(** * gh-manager: reconciliation of GitHub teams and repository permissions

    A shallow embedding of [main.py] and the properties of its ordering,
    diffing and applying functions.

    Python values are modelled as follows.
    - [str] is [string]; an f-string is a concatenation with [+:+].
    - A [dict] is an insertion-ordered association list ([PyDict]), since the
      program iterates over its dictionaries.
    - A [set] of names is a [gset string]; wherever the program iterates over
      a set, the order is taken from an arbitrary enumeration ([SetOrder]).
    - A [defaultdict(list)] is a [PyDict] of lists whose missing keys read [[]].
    - The remote organisation is an explicit state; every remote call is
      recorded in a trace, and an exception is an outcome of the computation. *)

From Stdlib Require Import String Ascii List Lia.
From stdpp Require Import base option list sets gmap strings.

Set Warnings "-clear-no-such-hyp".

Open Scope string_scope.
Open Scope list_scope.

(** ** Outcomes: normal return, raised exception, or no return at all *)

Inductive Exn :=
| KeyError (key : string)          (* a failed [d[key]] on a plain dict *)
| UnknownObject (what : string)    (* the remote service reports "not found" *)
| IndexError                       (* a list index out of range *)
| EOFError                         (* [input()] at the end of the input *)
| SystemExit (code : nat).         (* [exit(code)] *)

Inductive Res (A : Type) :=
| Ok (a : A)
| Raise (e : Exn)
| OutOfFuel.

Arguments Ok {A} a.
Arguments Raise {A} e.
Arguments OutOfFuel {A}.

Definition res_bind {A B} (r : Res A) (k : A → Res B) : Res B :=
  match r with
  | Ok a => k a
  | Raise e => Raise e
  | OutOfFuel => OutOfFuel
  end.

(** [for x in l: st = body x st], stopping at the first exception. *)
Fixpoint for_res {A S} (l : list A) (body : A → S → Res S) (st : S) : Res S :=
  match l with
  | [] => Ok st
  | x :: l' => res_bind (body x st) (for_res l' body)
  end.

(** ** Python dictionaries: insertion-ordered, keys unique *)

Module PyDict.
Abbreviation t V := (list (string * V)) (only parsing).

Fixpoint get {V} (k : string) (d : t V) : option V :=
  match d with
  | [] => None
  | (k', v) :: d' => if decide (k = k') then Some v else get k d'
  end.

(** [d[k] = v]: overwrite in place, or append a new key at the end. *)
Fixpoint set {V} (k : string) (v : V) (d : t V) : t V :=
  match d with
  | [] => [(k, v)]
  | (k', v') :: d' =>
      if decide (k = k') then (k', v) :: d' else (k', v') :: set k v d'
  end.

Definition keys {V} (d : t V) : list string := map fst d.

Definition mem {V} (k : string) (d : t V) : bool :=
  match get k d with Some _ => true | None => false end.

(** [{key(x): val(x) for x in l}] *)
Definition comprehension {A V} (key : A → string) (val : A → V) (l : list A) : t V :=
  fold_left (λ d x, set (key x) (val x) d) l [].
End PyDict.

(** ** Iteration order of Python sets

    The order in which a [set] of strings is enumerated is unspecified. It is
    a parameter of the model: any enumeration of the elements, possibly a
    different one for each owner of a set. *)

Record SetOrder := {
  iterate : string → gset string → list string;
  iterate_perm : ∀ owner X, iterate owner X ≡ₚ elements X
}.

Definition elements_order : SetOrder :=
  {| iterate := λ _ X, elements X; iterate_perm := λ _ X, reflexivity _ |}.

(** ** Configuration entities *)

(** One entry of [config['teams']]. An absent key is [None]. *)
Record TeamSpec := {
  name : string;
  maintainers : option (list string);
  members : option (list string);
  parent : option string
}.

(** [team.get(key, [])] *)
Definition get_list (field : option (list string)) : list string := default [] field.

(** ** Dependency orderer *)

Definition Graph := PyDict.t (gset string).

(** [for team in teams: if 'parent' in team: graph[team['parent']].add(team['name'])] *)
Definition add_edge (team : TeamSpec) (graph : Graph) : Res Graph :=
  match parent team with
  | None => Ok graph
  | Some p =>
      match PyDict.get p graph with
      | None => Raise (KeyError p)
      | Some children => Ok (PyDict.set p (children ∪ {[name team]}) graph)
      end
  end.

Definition build_graph (teams : list TeamSpec) : Res Graph :=
  for_res teams add_edge (PyDict.comprehension name (λ _, ∅) teams).

Section Orderer.
Context (order : SetOrder).

(** The state of the traversal: [(visited, result)]. *)
Definition DfsState : Type := gset string * list string.

(** The nested function [dfs] of [topological_sort], with the sets and the
    list it updates passed as a state. The interpreter's bound on the depth
    of the recursion is not modelled. *)
Fixpoint dfs (fuel : nat) (graph : Graph) (node : string) (st : DfsState) : Res DfsState :=
  match fuel with
  | 0 => OutOfFuel
  | S fuel' =>
      let '(visited, result) := st in
      let visited := visited ∪ {[node]} in
      match PyDict.get node graph with
      | None => Raise (KeyError node)
      | Some children =>
          res_bind
            (for_res (iterate order node children)
               (λ child st,
                  if decide (child ∈ st.1) then Ok st else dfs fuel' graph child st)
               (visited, result))
            (λ '(visited, result), Ok (visited, result ++ [node]))
      end
  end.

(** The recursion visits every key at most once, so its depth never
    exceeds the number of keys. *)
Definition topological_sort (teams : list TeamSpec) : Res (list string) :=
  res_bind (build_graph teams) (λ graph,
  res_bind
    (for_res (PyDict.keys graph)
       (λ node st,
          if decide (node ∈ st.1) then Ok st
          else dfs (S (length graph)) graph node st)
       (∅, []))
    (λ '(_, result), Ok (reverse result))).

End Orderer.

(** [get_dependent_teams]: the [while] loop runs at most [fuel] times. *)
Fixpoint get_dependent_teams_loop (fuel : nat) (current : string)
    (teams_dict : PyDict.t TeamSpec) (dependent_teams : list string) : Res (list string) :=
  match fuel with
  | 0 => OutOfFuel
  | S fuel' =>
      match PyDict.get current teams_dict with
      | Some team =>
          match parent team with
          | Some p => get_dependent_teams_loop fuel' p teams_dict (dependent_teams ++ [p])
          | None => Ok (reverse dependent_teams)
          end
      | None => Ok (reverse dependent_teams)
      end
  end.

Definition get_dependent_teams (fuel : nat) (team_name : string)
    (teams_dict : PyDict.t TeamSpec) : Res (list string) :=
  get_dependent_teams_loop fuel team_name teams_dict [].

(** ** The remote organisation *)

(** A team as the service holds it: visibility, parent team and the members
    with their roles. Teams are identified by their slug, which the model
    does not distinguish from the team's name. *)
Record RemoteTeam := {
  privacy : string;
  team_parent : option string;
  team_members : gmap string string
}.

Record Org := {
  org_teams : gmap string RemoteTeam;
  (** per repository, the teams [repo.get_teams()] lists with their permission *)
  org_repos : gmap string (list (string * string));
  org_users : gset string;
  (** the authenticated user, [g.get_user().login] *)
  org_identity : string
}.

(** Every call made to the remote service, reads included. *)
Inductive Call :=
| GetAuthenticatedUser
| GetOrganization (login : string)
| GetTeamBySlug (slug : string)
| GetMembers (team : string)
| GetUser (login : string)
| HasInMembers (team user : string)
| GetRepo (repo : string)
| GetTeams (repo : string)
| CreateTeam (team privacy : string)
| EditPrivacy (team privacy : string)
| EditParent (team parent : string)
| AddMembership (team user role : string)
| RemoveMembership (team user : string)
| UpdateTeamRepository (team repo permission : string)
| RemoveFromRepo (team repo : string).

Definition is_mutating (c : Call) : bool :=
  match c with
  | GetAuthenticatedUser | GetOrganization _
  | GetTeamBySlug _ | GetMembers _ | GetUser _ | HasInMembers _ _
  | GetRepo _ | GetTeams _ => false
  | _ => true
  end.

Record World := {
  org : Org;
  trace : list Call;       (* remote calls, oldest first *)
  stdout : list string;    (* printed lines, oldest first *)
  stdin : list string      (* lines still to be read by [input()] *)
}.

(** ** Computations over the world, with exceptions *)

Definition M (A : Type) : Type := World → Res A * World.

#[export] Instance M_ret : MRet M := λ A a w, (Ok a, w).
#[export] Instance M_bind : MBind M := λ A B k m w,
  match m w with
  | (Ok a, w') => k a w'
  | (Raise e, w') => (Raise e, w')
  | (OutOfFuel, w') => (OutOfFuel, w')
  end.

Definition raise {A} (e : Exn) : M A := λ w, (Raise e, w).
Definition lift {A} (r : Res A) : M A := λ w, (r, w).

(** [try: body except: handler]. Running out of fuel is not an exception. *)
Definition try_except {A} (body : M A) (handler : Exn → M A) : M A := λ w,
  match body w with
  | (Raise e, w') => handler e w'
  | r => r
  end.

(** [for x in l: st = body x st] *)
Fixpoint for_each {A S} (l : list A) (body : A → S → M S) (st : S) : M S :=
  match l with
  | [] => mret st
  | x :: l' => st' ← body x st; for_each l' body st'
  end.

Definition call (c : Call) : M unit := λ w,
  (Ok tt, {| org := org w; trace := trace w ++ [c]; stdout := stdout w; stdin := stdin w |}).

Definition print (line : string) : M unit := λ w,
  (Ok tt, {| org := org w; trace := trace w; stdout := stdout w ++ [line]; stdin := stdin w |}).

Definition input (prompt : string) : M string := λ w,
  match stdin w with
  | [] => (Raise EOFError, w)
  | line :: rest =>
      (Ok line, {| org := org w; trace := trace w; stdout := stdout w ++ [prompt]; stdin := rest |})
  end.

Definition get_org : M Org := λ w, (Ok (org w), w).

Definition set_org (o : Org) : M unit := λ w,
  (Ok tt, {| org := o; trace := trace w; stdout := stdout w; stdin := stdin w |}).

Definition set_team (s : string) (rt : RemoteTeam) (o : Org) : Org :=
  {| org_teams := <[s := rt]> (org_teams o); org_repos := org_repos o;
     org_users := org_users o; org_identity := org_identity o |}.

Definition set_repo (r : string) (grants : list (string * string)) (o : Org) : Org :=
  {| org_teams := org_teams o; org_repos := <[r := grants]> (org_repos o);
     org_users := org_users o; org_identity := org_identity o |}.

(** *** The client objects and their methods *)

(** A [Team] object: the attributes are those read when it was fetched. *)
Record Team := {
  slug : string;
  Team_privacy : string;
  Team_parent : option string
}.

Definition snapshot (s : string) (rt : RemoteTeam) : Team :=
  {| slug := s; Team_privacy := privacy rt; Team_parent := team_parent rt |}.

Definition get_team_by_slug (s : string) : M Team :=
  _ ← call (GetTeamBySlug s);
  o ← get_org;
  match org_teams o !! s with
  | Some rt => mret (snapshot s rt)
  | None => raise (UnknownObject s)
  end.

(** [set(member.login for member in team.get_members())] *)
Definition get_members (team : Team) : M (gset string) :=
  _ ← call (GetMembers (slug team));
  o ← get_org;
  match org_teams o !! slug team with
  | Some rt => mret (dom (team_members rt))
  | None => raise (UnknownObject (slug team))
  end.

Definition get_user (login : string) : M string :=
  _ ← call (GetUser login);
  o ← get_org;
  if decide (login ∈ org_users o) then mret login else raise (UnknownObject login).

Definition has_in_members (team : Team) (user : string) : M bool :=
  _ ← call (HasInMembers (slug team) user);
  o ← get_org;
  match org_teams o !! slug team with
  | Some rt => mret (bool_decide (user ∈ dom (team_members rt)))
  | None => raise (UnknownObject (slug team))
  end.

Definition update_remote_team (s : string) (f : RemoteTeam → RemoteTeam) : M unit :=
  o ← get_org;
  match org_teams o !! s with
  | Some rt => set_org (set_team s (f rt) o)
  | None => raise (UnknownObject s)
  end.

Definition remove_membership (team : Team) (user : string) : M unit :=
  _ ← call (RemoveMembership (slug team) user);
  update_remote_team (slug team) (λ rt,
    {| privacy := privacy rt; team_parent := team_parent rt;
       team_members := delete user (team_members rt) |}).

Definition add_membership (team : Team) (user role : string) : M unit :=
  _ ← call (AddMembership (slug team) user role);
  update_remote_team (slug team) (λ rt,
    {| privacy := privacy rt; team_parent := team_parent rt;
       team_members := <[user := role]> (team_members rt) |}).

(** [org.create_team(name=..., privacy=...)]: the service makes the creator a
    maintainer of the new team. *)
Definition create_team (team_name priv : string) : M Team :=
  _ ← call (CreateTeam team_name priv);
  o ← get_org;
  let rt := {| privacy := priv; team_parent := None;
               team_members := {[ org_identity o := "maintainer" ]} |} in
  _ ← set_org (set_team team_name rt o);
  mret (snapshot team_name rt).

Definition edit_privacy (team : Team) (priv : string) : M unit :=
  _ ← call (EditPrivacy (slug team) priv);
  update_remote_team (slug team) (λ rt,
    {| privacy := priv; team_parent := team_parent rt; team_members := team_members rt |}).

Definition edit_parent (team : Team) (parent_team : Team) : M unit :=
  _ ← call (EditParent (slug team) (slug parent_team));
  update_remote_team (slug team) (λ rt,
    {| privacy := privacy rt; team_parent := Some (slug parent_team);
       team_members := team_members rt |}).

Definition get_repo (repo_name : string) : M string :=
  _ ← call (GetRepo repo_name);
  o ← get_org;
  match org_repos o !! repo_name with
  | Some _ => mret repo_name
  | None => raise (UnknownObject repo_name)
  end.

Definition get_teams (repo : string) : M (list (string * string)) :=
  _ ← call (GetTeams repo);
  o ← get_org;
  match org_repos o !! repo with
  | Some grants => mret grants
  | None => raise (UnknownObject repo)
  end.

Definition update_team_repository (team : Team) (repo permission : string) : M unit :=
  _ ← call (UpdateTeamRepository (slug team) repo permission);
  o ← get_org;
  match org_repos o !! repo with
  | Some grants => set_org (set_repo repo (PyDict.set (slug team) permission grants) o)
  | None => raise (UnknownObject repo)
  end.

Definition remove_from_repo (team : Team) (repo : string) : M unit :=
  _ ← call (RemoveFromRepo (slug team) repo);
  o ← get_org;
  match org_repos o !! repo with
  | Some grants =>
      set_org (set_repo repo (filter (λ g, g.1 ≠ slug team) grants) o)
  | None => raise (UnknownObject repo)
  end.

(** ** ChangeSets: [defaultdict(list)] *)

Definition ChangeSet := PyDict.t (list string).

(** [changes[k]], read-only *)
Definition dd_get (k : string) (changes : ChangeSet) : list string :=
  default [] (PyDict.get k changes).

(** [changes[k].append(item)] *)
Definition dd_append (k item : string) (changes : ChangeSet) : ChangeSet :=
  PyDict.set k (dd_get k changes ++ [item]) changes.

(** [changes[k].extend(items)] *)
Definition dd_extend (k : string) (items : list string) (changes : ChangeSet) : ChangeSet :=
  PyDict.set k (dd_get k changes ++ items) changes.

(** ** Strings *)

Definition nl : string := String "010" "".

Definition lower_ascii (c : ascii) : ascii :=
  let n := nat_of_ascii c in
  if ((65 <=? n) && (n <=? 90))%nat then ascii_of_nat (n + 32) else c.

Definition upper_ascii (c : ascii) : ascii :=
  let n := nat_of_ascii c in
  if ((97 <=? n) && (n <=? 122))%nat then ascii_of_nat (n - 32) else c.

(** [s.lower()], on ASCII text *)
Fixpoint lower (s : string) : string :=
  match s with
  | EmptyString => EmptyString
  | String c s' => String (lower_ascii c) (lower s')
  end.

(** [s.capitalize()], on ASCII text *)
Definition capitalize (s : string) : string :=
  match s with
  | EmptyString => EmptyString
  | String c s' => String (upper_ascii c) (lower s')
  end.

(** The characters [s.split()] separates words at, on ASCII text: tab to
    carriage return, the four separators, and the space. On text with other
    characters Python also separates at the further spaces of Unicode. *)
Definition is_space (c : ascii) : bool :=
  let n := nat_of_ascii c in
  (((9 <=? n) && (n <=? 13)) || ((28 <=? n) && (n <=? 32)))%nat.

(** [s.split()]: the maximal runs of characters that are not whitespace *)
Fixpoint split_from (s word : string) : list string :=
  match s with
  | EmptyString => if decide (word = "") then [] else [word]
  | String c s' =>
      if is_space c
      then (if decide (word = "") then split_from s' "" else word :: split_from s' "")
      else split_from s' (word +:+ String c "")
  end.

Definition split (s : string) : list string := split_from s "".

(** [', '.join(l)] *)
Definition join (sep : string) (l : list string) : string := String.concat sep l.

(** [str(e)]; for a failed remote lookup the text only names the object. *)
Definition exn_str (e : Exn) : string :=
  match e with
  | KeyError k => "'" +:+ k +:+ "'"
  | UnknownObject what => "404 Not Found: " +:+ what
  | IndexError => "list index out of range"
  | EOFError => "EOF when reading a line"
  | SystemExit _ => ""
  end.

(** [if x:] on an optional string: [None] and [''] are false. *)
Definition truthy (x : option string) : option string :=
  match x with
  | Some s => if decide (s = "") then None else Some s
  | None => None
  end.

(** ** Teams: the differ, the applier and the sweep *)

Section Teams.
Context (order : SetOrder).

Definition role_of (member : string) (maintainers : list string) : string :=
  if decide (member ∈ maintainers) then "maintainer" else "member".

Definition create_or_update_team (team_name : string) (maintainers members : list string)
    (parent_name : option string) (dry_run : bool) : M ChangeSet :=
  let changes : ChangeSet := [] in
  '(team, changes) ← try_except
      (team ← get_team_by_slug team_name;
       let changes := dd_append "update" ("Would update existing team: " +:+ team_name) changes in
       let changes :=
         if decide (Team_privacy team ≠ "closed")
         then dd_append "update" ("Would change " +:+ team_name +:+ " visibility to public") changes
         else changes in
       mret (Some team, changes))
      (λ _, mret (None, dd_append "create" ("Would create new public team: " +:+ team_name) changes));
  changes ←
    match team with
    | Some team =>
        if dry_run then mret changes
        else
          let changes :=
            if decide (Team_privacy team ≠ "closed")
            then dd_append "update" ("Change " +:+ team_name +:+ " visibility to public") changes
            else changes in
          match truthy parent_name with
          | Some p =>
              parent_team ← get_team_by_slug p;
              if decide (Team_parent team ≠ Some (slug parent_team))
              then mret (dd_append "update"
                           ("Set parent team of " +:+ team_name +:+ " to " +:+ p) changes)
              else mret changes
          | None => mret changes
          end
    | None => mret changes
    end;
  current_members ← match team with Some team => get_members team | None => mret ∅ end;
  let desired_members : gset string := list_to_set (maintainers ++ members) in
  let changes :=
    fold_left (λ changes member,
        let role := role_of member maintainers in
        dd_append "add" ("Add " +:+ member +:+ " to " +:+ team_name +:+ " as " +:+ role) changes)
      (iterate order team_name (desired_members ∖ current_members)) changes in
  let changes :=
    fold_left (λ changes member,
        dd_append "remove" ("Remove " +:+ member +:+ " from " +:+ team_name) changes)
      (iterate order team_name (current_members ∖ desired_members)) changes in
  mret changes.

(** [change.split()[1]] *)
Definition second_word (change : string) : M string :=
  match split change !! 1 with
  | Some w => mret w
  | None => raise IndexError
  end.

(** Defined by the program, and called from nowhere in it. *)
Definition apply_changes (team_name : string) (maintainers members : list string)
    (parent_name : option string) (changes : ChangeSet) : M unit :=
  team ← try_except (get_team_by_slug team_name)
    (λ _, team ← create_team team_name "closed";
          _ ← print ("Created new public team: " +:+ team_name);
          mret team);
  _ ← (if decide (Team_privacy team ≠ "closed")
       then (_ ← edit_privacy team "closed";
             print ("Changed " +:+ team_name +:+ " visibility to public"))
       else mret tt);
  _ ← match truthy parent_name with
      | Some p =>
          parent_team ← get_team_by_slug p;
          if decide (Team_parent team ≠ Some (slug parent_team))
          then (_ ← edit_parent team parent_team;
                print ("Set parent team of " +:+ team_name +:+ " to " +:+ p))
          else mret tt
      | None => mret tt
      end;
  _ ← for_each (dd_get "add" changes) (λ change _,
        member ← second_word change;
        let role := role_of member maintainers in
        user ← get_user member;
        _ ← add_membership team user role;
        print ("Added " +:+ member +:+ " to " +:+ team_name +:+ " as " +:+ role)) tt;
  for_each (dd_get "remove" changes) (λ change _,
    member ← second_word change;
    user ← get_user member;
    _ ← remove_membership team user;
    print ("Removed " +:+ member +:+ " from " +:+ team_name)) tt.

(** The body of the loop of the sweep. *)
Definition sweep_step (current_user : string) (item : string * TeamSpec) (_ : unit)
    : M unit :=
  let '(team_name, team_data) := item in
  if decide ((current_user ∉ get_list (maintainers team_data))
             ∧ (current_user ∉ get_list (members team_data)))
  then
    try_except
      (team ← get_team_by_slug team_name;
       user ← get_user current_user;
       is_member ← has_in_members team user;
       if is_member : bool
       then (user ← get_user current_user;
             _ ← remove_membership team user;
             print ("Removed current user " +:+ current_user +:+ " from " +:+ team_name))
       else mret tt)
      (λ _, print ("Failed to remove current user " +:+ current_user
                    +:+ " from " +:+ team_name))
  else mret tt.

Definition remove_current_user_from_teams (teams_dict : PyDict.t TeamSpec)
    (current_user : string) : M unit :=
  for_each teams_dict (sweep_step current_user) tt.

End Teams.

(** ** Repository permissions *)

Definition translate_permission (perm : string) : string :=
  if decide (perm = "read") then "pull"
  else if decide (perm = "write") then "push"
  else perm.

(** The entry the first loop records for a desired pair whose team was found. *)
Definition grant_entry (repo_name : string) (current_teams : PyDict.t string)
    (team_name permission : string) (changes : ChangeSet) : ChangeSet :=
  match PyDict.get team_name current_teams with
  | None =>
      dd_append "add" ("Would add team " +:+ team_name +:+ " to " +:+ repo_name
                       +:+ " with " +:+ permission +:+ " permission") changes
  | Some current =>
      if decide (current ≠ translate_permission permission)
      then dd_append "update"
             ("Would update team " +:+ team_name +:+ " permission on " +:+ repo_name
              +:+ " from " +:+ current +:+ " to " +:+ permission) changes
      else changes
  end.

(** The body of the loop over the desired pairs. The entry is appended
    before the call that can fail after it, and [changes] is one object, so
    the handler adds its entry to the ChangeSet that holds the entry of the
    [try] block. *)
Definition grant_step (repo repo_name : string) (current_teams : PyDict.t string)
    (dry_run : bool) (pair : string * string) (changes : ChangeSet) : M ChangeSet :=
  let '(team_name, permission) := pair in
  let error changes e :=
    dd_append "error" ("Error processing team " +:+ team_name +:+ " for " +:+ repo_name
                       +:+ ": " +:+ exn_str e) changes in
  try_except
    (team ← get_team_by_slug team_name;
     let github_permission := translate_permission permission in
     let changes := grant_entry repo_name current_teams team_name permission changes in
     try_except
       (_ ← (if dry_run then mret tt
             else (_ ← update_team_repository team repo github_permission;
                   print ("Set team " +:+ team_name +:+ " permission on " +:+ repo_name
                          +:+ " to " +:+ permission)));
        mret changes)
       (λ e, mret (error changes e)))
    (λ e, mret (error changes e)).

(** The body of the loop over the current grants. *)
Definition revoke_step (repo repo_name : string) (team_permissions : PyDict.t string)
    (dry_run : bool) (team_name : string) (changes : ChangeSet) : M ChangeSet :=
  if PyDict.mem team_name team_permissions then mret changes
  else
    let changes := dd_append "remove"
                     ("Would remove team " +:+ team_name +:+ " from " +:+ repo_name) changes in
    _ ← (if dry_run then mret tt
         else (team ← get_team_by_slug team_name;
               _ ← remove_from_repo team repo;
               print ("Removed team " +:+ team_name +:+ " from " +:+ repo_name)));
    mret changes.

Definition process_repository_permissions (repo_name : string)
    (team_permissions : PyDict.t string) (dry_run : bool) : M ChangeSet :=
  let changes : ChangeSet := [] in
  found ← try_except (repo ← get_repo repo_name; mret (Some repo)) (λ _, mret None);
  match found with
  | None => mret (dd_append "error" ("Repository " +:+ repo_name +:+ " not found") changes)
  | Some repo =>
      grants ← get_teams repo;
      let current_teams : PyDict.t string := PyDict.comprehension fst snd grants in
      changes ← for_each team_permissions
                  (grant_step repo repo_name current_teams dry_run) changes;
      for_each (PyDict.keys current_teams)
        (revoke_step repo repo_name team_permissions dry_run) changes
  end.

(** ** The driver *)

Definition print_changes (changes : ChangeSet) : M unit :=
  for_each changes (λ '(action, items) _,
    match items with
    | [] => mret tt
    | _ :: _ =>
        _ ← print (nl +:+ capitalize action +:+ ":");
        for_each items (λ item _, print ("  " +:+ item)) tt
    end) tt.

Definition confirm_changes : M bool :=
  response ← input "Do you want to proceed with these changes? (yes/no): ";
  let response := lower response in
  mret (bool_decide (response = "yes") || bool_decide (response = "y")).

Record Args := {
  args_dry_run : bool;
  args_target : option string;
  args_mode : string
}.

(** One entry of [config['repositories']]. *)
Record RepoSpec := {
  repo_name : string;
  repo_teams : option (PyDict.t string)
}.

Record Config := {
  config_teams : list TeamSpec;
  config_repositories : list RepoSpec
}.

(** [d[k]] *)
Definition getitem {V} (k : string) (d : PyDict.t V) : M V :=
  match PyDict.get k d with
  | Some v => mret v
  | None => raise (KeyError k)
  end.

(** [for action, items in changes.items(): all_changes[action].extend(items)] *)
Definition accumulate (changes all_changes : ChangeSet) : ChangeSet :=
  fold_left (λ acc '(action, items), dd_extend action items acc) changes all_changes.

Section Driver.
Context (order : SetOrder).
(** a bound on the number of iterations of the loop of [get_dependent_teams] *)
Context (fuel : nat).

Definition teams_to_process (args : Args) (config : Config)
    (teams_dict : PyDict.t TeamSpec) : M (list string) :=
  match truthy (args_target args) with
  | Some target =>
      if PyDict.mem target teams_dict
      then ancestors ← lift (get_dependent_teams fuel target teams_dict);
           mret (ancestors ++ [target])
      else _ ← print ("Error: Team '" +:+ target +:+ "' not found in the configuration.");
           raise (SystemExit 1)
  | None => lift (topological_sort order (config_teams config))
  end.

(** The body of the first loop of the teams mode: the diff is computed with
    [dry_run=True] and displayed. *)
Definition teams_phase1_step (teams_dict : PyDict.t TeamSpec) (team_name : string)
    (all_changes : ChangeSet) : M ChangeSet :=
  team ← getitem team_name teams_dict;
  changes ← create_or_update_team order team_name
              (get_list (maintainers team)) (get_list (members team)) (parent team) true;
  let all_changes := accumulate changes all_changes in
  _ ← print (nl +:+ "Changes for team " +:+ team_name +:+ ":");
  _ ← print_changes changes;
  _ ← print (nl +:+ "Current team structure:");
  _ ← print ("  Maintainers: " +:+ join ", " (get_list (maintainers team)));
  _ ← print ("  Members: " +:+ join ", " (get_list (members team)));
  _ ← print ("  Parent: " +:+ default "None" (parent team));
  _ ← print "  Visibility: Public";
  mret all_changes.

Definition teams_phase1 (teams_dict : PyDict.t TeamSpec) (to_process : list string)
    : M ChangeSet :=
  for_each to_process (teams_phase1_step teams_dict) [].

(** The body of the loop after the confirmation. *)
Definition teams_phase2_step (teams_dict : PyDict.t TeamSpec) (team_name : string)
    (_ : unit) : M unit :=
  team ← getitem team_name teams_dict;
  _ ← create_or_update_team order team_name
        (get_list (maintainers team)) (get_list (members team)) (parent team) false;
  mret tt.

Definition teams_phase2 (teams_dict : PyDict.t TeamSpec) (to_process : list string)
    : M unit :=
  for_each to_process (teams_phase2_step teams_dict) tt.

Definition main_teams (args : Args) (config : Config) (current_user : string) : M unit :=
  let teams_dict := PyDict.comprehension name id (config_teams config) in
  to_process ← teams_to_process args config teams_dict;
  _ ← teams_phase1 teams_dict to_process;
  if args_dry_run args
  then print (nl +:+ "Dry run completed. No changes were made.")
  else
    confirmed ← confirm_changes;
    if confirmed : bool
    then
      (_ ← teams_phase2 teams_dict to_process;
       _ ← print (nl +:+ "Removing current user from teams where they're not explicitly listed...");
       _ ← remove_current_user_from_teams teams_dict current_user;
       print (nl +:+ "Team structure creation/update completed."))
    else print (nl +:+ "Operation cancelled. No changes were made.").

(** The body of the first loop of the repos mode. *)
Definition repos_phase1_step (repo_dict : PyDict.t RepoSpec) (repo : string)
    (all_changes : ChangeSet) : M ChangeSet :=
  repo_data ← getitem repo repo_dict;
  let team_permissions := default [] (repo_teams repo_data) in
  changes ← process_repository_permissions repo team_permissions true;
  let all_changes := accumulate changes all_changes in
  _ ← print (nl +:+ "Changes for repository " +:+ repo +:+ ":");
  _ ← print_changes changes;
  mret all_changes.

(** The body of the loop after the confirmation. *)
Definition repos_phase2_step (repo_dict : PyDict.t RepoSpec) (repo : string)
    (_ : unit) : M unit :=
  repo_data ← getitem repo repo_dict;
  let team_permissions := default [] (repo_teams repo_data) in
  _ ← process_repository_permissions repo team_permissions false;
  mret tt.

Definition main_repos (args : Args) (config : Config) : M unit :=
  let repo_dict := PyDict.comprehension repo_name id (config_repositories config) in
  to_process ←
    match truthy (args_target args) with
    | Some target =>
        if PyDict.mem target repo_dict then mret [target]
        else _ ← print ("Error: Repository '" +:+ target
                         +:+ "' not found in the configuration.");
             raise (SystemExit 1)
    | None => mret (PyDict.keys repo_dict)
    end;
  _ ← for_each to_process (repos_phase1_step repo_dict) [];
  if args_dry_run args
  then print (nl +:+ "Dry run completed. No changes were made.")
  else
    confirmed ← confirm_changes;
    if confirmed : bool
    then
      (_ ← for_each to_process (repos_phase2_step repo_dict) tt;
       print (nl +:+ "Repository team permissions update completed."))
    else print (nl +:+ "Operation cancelled. No changes were made.").

(** The module body, from the client initialisation on. The access token
    and the configuration file are taken as read. *)
Definition main (args : Args) (config : Config) : M unit :=
  _ ← call GetAuthenticatedUser;
  o ← get_org;
  let current_user := org_identity o in
  _ ← call (GetOrganization "open-telemetry");
  if decide (args_mode args = "teams") then main_teams args config current_user
  else if decide (args_mode args = "repos") then main_repos args config
  else mret tt.

End Driver.

(** * Sample inputs *)

Definition sample_team (n : string) (p : option string) : TeamSpec :=
  {| name := n; maintainers := Some ["alice"]; members := None; parent := p |}.

(** root, with the children mid and y; mid, with the child x *)
Definition sample_teams : list TeamSpec :=
  [sample_team "x" (Some "mid"); sample_team "mid" (Some "root");
   sample_team "root" None; sample_team "y" (Some "root")].

Definition sample_rank (n : string) : nat :=
  if decide (n = "root") then 0 else if decide (n = "mid") then 1 else 2.

(** a team whose parent is not configured *)
Definition dangling_teams : list TeamSpec := [sample_team "a" (Some "ghost")].

Definition world_of (o : Org) (input : list string) : World :=
  {| org := o; trace := []; stdout := []; stdin := input |}.

(** an organisation without teams and repositories *)
Definition empty_org : Org :=
  {| org_teams := ∅; org_repos := ∅; org_users := {[ "alice"; "me" ]};
     org_identity := "me" |}.

(** an organisation with the team t, whose only member is alice, and the
    repository r, on which t has the pull permission *)
Definition synced_org : Org :=
  {| org_teams := {[ "t" := {| privacy := "closed"; team_parent := None;
                               team_members := {[ "alice" := "maintainer" ]} |} ]};
     org_repos := {[ "r" := [("t", "pull")] ]};
     org_users := {[ "alice"; "me" ]};
     org_identity := "me" |}.

Definition live_teams_args : Args :=
  {| args_dry_run := false; args_target := None; args_mode := "teams" |}.

Definition scoped_args : Args :=
  {| args_dry_run := true; args_target := Some "x"; args_mode := "teams" |}.

Definition one_team_config : Config :=
  {| config_teams := [sample_team "t" None]; config_repositories := [] |}.

Definition sample_config : Config :=
  {| config_teams := sample_teams; config_repositories := [] |}.

(** two teams without parents *)
Definition flat_teams : list TeamSpec := [sample_team "a" None; sample_team "b" None].

(** two teams, each the parent of the other *)
Definition cyclic_teams : list TeamSpec :=
  [sample_team "a" (Some "b"); sample_team "b" (Some "a")].

Definition dangling_config : Config :=
  {| config_teams := dangling_teams; config_repositories := [] |}.

Definition dangling_args : Args :=
  {| args_dry_run := true; args_target := Some "a"; args_mode := "teams" |}.

Definition missing_args (mode : string) : Args :=
  {| args_dry_run := false; args_target := Some "zzz"; args_mode := mode |}.

(** an organisation with the team t, not closed, whose members are alice and
    carol, both with the role member *)
Definition staffed_org : Org :=
  {| org_teams := {[ "t" := {| privacy := "secret"; team_parent := None;
                               team_members := {[ "alice" := "member";
                                                  "carol" := "member" ]} |} ]};
     org_repos := ∅;
     org_users := {[ "alice"; "bob"; "carol"; "me" ]};
     org_identity := "me" |}.

(** * Vocabulary of the properties *)

(** ** Ordering *)

(** [c] is in the set the adjacency structure holds for [p]. *)
Definition child_of (G : Graph) (p c : string) : Prop :=
  ∃ children, PyDict.get p G = Some children ∧ c ∈ children.

(** In the list of finished nodes, the children of a node come before it. *)
Definition children_first (G : Graph) (r : list string) : Prop :=
  ∀ i x c, r !! i = Some x → child_of G x c → ∃ j, j < i ∧ r !! j = Some c.

(** The visited nodes are the finished ones and those on the call stack. *)
Definition dfs_inv (G : Graph) (stack visited : gset string) (r : list string) : Prop :=
  visited ≡ list_to_set r ∪ stack
  ∧ stack ## list_to_set r
  ∧ NoDup r
  ∧ children_first G r
  ∧ ∀ x, x ∈ visited → x ∈ PyDict.keys G.

Definition unvisited (G : Graph) (visited : gset string) : gset string :=
  list_to_set (PyDict.keys G) ∖ visited.

Definition is_parent (teams : list TeamSpec) (p c : string) : Prop :=
  ∃ t, t ∈ teams ∧ name t = c ∧ parent t = Some p.

(** [ancestor teams a x]: [a] is reached from [x] by following parents. *)
Definition ancestor (teams : list TeamSpec) : relation string := tc (is_parent teams).

(** The parent references form a forest: names identify teams, every parent
    is a configured team, and no team is its own ancestor. *)
Record forest (teams : list TeamSpec) : Prop := {
  forest_names : NoDup (map name teams);
  forest_closed : ∀ t p, t ∈ teams → parent t = Some p → p ∈ map name teams;
  forest_acyclic : ∀ x, ¬ ancestor teams x x
}.

(** [a] occurs at an earlier position of [l] than [b]. *)
Definition precedes (l : list string) (a b : string) : Prop :=
  ∃ i j, l !! i = Some a ∧ l !! j = Some b ∧ i < j.

(** Some team names a parent that is not a configured team. *)
Definition dangling (teams : list TeamSpec) : Prop :=
  ∃ t p, t ∈ teams ∧ parent t = Some p ∧ p ∉ map name teams.

(** [parent_chain teams_dict t l]: [l] lists the ancestors of the configured
    team [t], the root first and the parent of [t] last. *)
Inductive parent_chain (teams_dict : PyDict.t TeamSpec) : string → list string → Prop :=
| chain_root t team :
    PyDict.get t teams_dict = Some team → parent team = None →
    parent_chain teams_dict t []
| chain_step t team p l :
    PyDict.get t teams_dict = Some team → parent team = Some p →
    parent_chain teams_dict p l →
    parent_chain teams_dict t (l ++ [p]).

(** ** Worlds *)

(** The world after some more remote calls. *)
Definition add_calls (w : World) (calls : list Call) : World :=
  {| org := org w; trace := trace w ++ calls; stdout := stdout w; stdin := stdin w |}.

(** The world after some more printed lines. *)
Definition add_lines (w : World) (lines : list string) : World :=
  {| org := org w; trace := trace w; stdout := stdout w ++ lines; stdin := stdin w |}.

(** The teams looked up by slug, in the order of the lookups. *)
Definition team_lookups (calls : list Call) : list string :=
  omap (λ c, match c with GetTeamBySlug s => Some s | _ => None end) calls.

(** From [w] to [w'] the remote state is the same and no mutating call was
    made. *)
Definition quiet (w w' : World) : Prop :=
  org w' = org w
  ∧ ∃ calls, trace w' = trace w ++ calls ∧ Forall (λ c, is_mutating c = false) calls.

Definition read_only {A} (m : M A) : Prop := ∀ w, quiet w (m w).2.

(** ** Diffs *)

(** The logins [team.get_members()] lists; none when the team does not exist. *)
Definition current_members (o : Org) (team_name : string) : gset string :=
  match org_teams o !! team_name with
  | Some rt => dom (team_members rt)
  | None => ∅
  end.

(** The membership entries the team differ appends to the entries [head]
    recorded before it compares the members. *)
Definition with_membership (order : SetOrder) (team_name : string)
    (maintainers members : list string) (current : gset string) (head : ChangeSet)
    : ChangeSet :=
  let desired : gset string := list_to_set (maintainers ++ members) in
  fold_left (λ changes member,
      dd_append "remove" ("Remove " +:+ member +:+ " from " +:+ team_name) changes)
    (iterate order team_name (current ∖ desired))
    (fold_left (λ changes member,
         dd_append "add" ("Add " +:+ member +:+ " to " +:+ team_name +:+ " as "
                          +:+ role_of member maintainers) changes)
       (iterate order team_name (desired ∖ current)) head).

(** The desired state of a team is the remote state: the team exists with
    closed visibility, its parent is the desired one and exists, and its
    members are the desired maintainers and members. *)
Definition team_in_sync (o : Org) (team : TeamSpec) : Prop :=
  ∃ rt, org_teams o !! name team = Some rt
        ∧ privacy rt = "closed"
        ∧ team_parent rt = truthy (parent team)
        ∧ dom (team_members rt)
          = list_to_set (get_list (maintainers team) ++ get_list (members team))
        ∧ ∀ p, team_parent rt = Some p → is_Some (org_teams o !! p).

(** The desired grants of a repository are the remote ones: every desired
    pair is granted at its translated level, and every granted team is
    desired. *)
Definition repo_in_sync (o : Org) (repo : string) (team_permissions : PyDict.t string)
    : Prop :=
  ∃ grants, org_repos o !! repo = Some grants
            ∧ (∀ team_name level, (team_name, level) ∈ team_permissions →
                 PyDict.get team_name (PyDict.comprehension fst snd grants)
                 = Some (translate_permission level))
            ∧ (∀ team_name, team_name ∈ PyDict.keys (PyDict.comprehension fst snd grants) →
                 team_name ∈ PyDict.keys team_permissions).

(** ** The sweep *)

(** The user is named among the maintainers or the members of the team. *)
Definition listed (user : string) (team : TeamSpec) : Prop :=
  user ∈ get_list (maintainers team) ∨ user ∈ get_list (members team).

(** The remote team without the membership of [user]. *)
Definition revoke (user : string) (rt : RemoteTeam) : RemoteTeam :=
  {| privacy := privacy rt; team_parent := team_parent rt;
     team_members := delete user (team_members rt) |}.

(** From [o] to [o'] nothing changed but memberships of [user], revoked. *)
Definition swept (user : string) (o o' : Org) : Prop :=
  org_users o' = org_users o
  ∧ ∀ s, org_teams o' !! s = org_teams o !! s
         ∨ ∃ rt, org_teams o !! s = Some rt ∧ org_teams o' !! s = Some (revoke user rt).

Definition sweep_failure (user team_name : string) : string :=
  "Failed to remove current user " +:+ user +:+ " from " +:+ team_name.

(** ** Calls of the repository pass *)

(** The grant-update calls, as (team, repository, permission). *)
Definition grant_calls (calls : list Call) : list (string * string * string) :=
  omap (λ c, match c with
             | UpdateTeamRepository t r p => Some (t, r, p)
             | _ => None
             end) calls.

(** The revocation calls, as (team, repository). *)
Definition revoke_calls (calls : list Call) : list (string * string) :=
  omap (λ c, match c with RemoveFromRepo t r => Some (t, r) | _ => None end) calls.

(** The grant-update calls the live pass makes for the desired pairs: one
    for every pair whose team exists remotely. *)
Definition expected_grants (o : Org) (repo : string) (team_permissions : PyDict.t string)
    : list (string * string * string) :=
  map (λ pair, (pair.1, repo, translate_permission pair.2))
    (filter (λ pair, is_Some (org_teams o !! pair.1)) team_permissions).

(** The revocations the live pass is to make: one for every current grant
    whose team is not a key of the desired mapping. *)
Definition expected_revocations (repo : string) (team_permissions : PyDict.t string)
    (current : list string) : list (string * string) :=
  map (λ t, (t, repo)) (filter (λ t, t ∉ PyDict.keys team_permissions) current).

(** ** Ancestor chains that leave the configuration *)

(** [open_chain teams_dict t l]: following the parents from [t] ends at a
    name that is not configured; [l] lists the names met on the way, the
    last one met first. *)
Inductive open_chain (teams_dict : PyDict.t TeamSpec) : string → list string → Prop :=
| open_end t :
    PyDict.get t teams_dict = None →
    open_chain teams_dict t []
| open_step t team p l :
    PyDict.get t teams_dict = Some team → parent team = Some p →
    open_chain teams_dict p l →
    open_chain teams_dict t (l ++ [p]).

(** ** Runs and what they leave alone *)

(** From [w] to [w'] the remote state is the same, no mutating call was
    made and nothing was read from the input. *)
Definition hushed (w w' : World) : Prop := quiet w w' ∧ stdin w' = stdin w.

(** From [w] to [w'] the only mutating calls revoke memberships of [user]. *)
Definition only_revokes (user : string) (w w' : World) : Prop :=
  ∃ calls, trace w' = trace w ++ calls
           ∧ Forall (λ c, is_mutating c = false ∨ ∃ s, c = RemoveMembership s user) calls.

(** Whatever the outcome of [m], the worlds before and after it are related
    by [R]. *)
Definition preserves {A} (R : World → World → Prop) (m : M A) : Prop :=
  ∀ w, R w (m w).2.

(** ** Entries of the repository diff *)

(** The team of the desired pair has no grant on the repository. *)
Definition to_add (teams : gmap string RemoteTeam) (current : PyDict.t string)
    (pair : string * string) : Prop :=
  is_Some (teams !! pair.1) ∧ PyDict.get pair.1 current = None.

(** The team of the desired pair has a grant at another level. *)
Definition to_update (teams : gmap string RemoteTeam) (current : PyDict.t string)
    (pair : string * string) : Prop :=
  is_Some (teams !! pair.1)
  ∧ is_Some (PyDict.get pair.1 current)
  ∧ PyDict.get pair.1 current ≠ Some (translate_permission pair.2).

Definition add_message (repo : string) (pair : string * string) : string :=
  "Would add team " +:+ pair.1 +:+ " to " +:+ repo +:+ " with " +:+ pair.2 +:+ " permission".

Definition update_message (repo : string) (current : PyDict.t string)
    (pair : string * string) : string :=
  "Would update team " +:+ pair.1 +:+ " permission on " +:+ repo +:+ " from "
  +:+ default "" (PyDict.get pair.1 current) +:+ " to " +:+ pair.2.

Definition error_message (repo : string) (pair : string * string) : string :=
  "Error processing team " +:+ pair.1 +:+ " for " +:+ repo +:+ ": "
  +:+ exn_str (UnknownObject pair.1).

Definition remove_message (repo team_name : string) : string :=
  "Would remove team " +:+ team_name +:+ " from " +:+ repo.

(** ** Grants after a live repository pass *)

(** The grants after the calls of the first loop, when every team is found. *)
Definition granted (team_permissions : PyDict.t string) (grants : list (string * string))
    : list (string * string) :=
  fold_left (λ g pair, PyDict.set pair.1 (translate_permission pair.2) g)
    team_permissions grants.

(** The grants after the calls of the second loop over the teams [ks]. *)
Definition revoked (team_permissions : PyDict.t string) (ks : list string)
    (grants : list (string * string)) : list (string * string) :=
  fold_left (λ g t, if PyDict.mem t team_permissions then g
                    else filter (λ x, x.1 ≠ t) g) ks grants.

(** ** Entries and the names in them *)

(** No character of [s] is one [split] separates words at. *)
Fixpoint no_space (s : string) : bool :=
  match s with
  | EmptyString => true
  | String c s' => negb (is_space c) && no_space s'
  end.

(** Every character of [s] is an ASCII character. *)
Fixpoint ascii_only (s : string) : bool :=
  match s with
  | EmptyString => true
  | String c s' => (nat_of_ascii c <? 128)%nat && ascii_only s'
  end.

(** The entries the team differ holds when it starts to compare the
    members, in a dry run. *)
Definition dry_head (o : Org) (team_name : string) : ChangeSet :=
  match org_teams o !! team_name with
  | Some rt =>
      let changes := dd_append "update" ("Would update existing team: " +:+ team_name) [] in
      if decide (privacy rt ≠ "closed")
      then dd_append "update" ("Would change " +:+ team_name +:+ " visibility to public") changes
      else changes
  | None => dd_append "create" ("Would create new public team: " +:+ team_name) []
  end.

(** ** The applier *)

(** The member [m] can be handled by the applier: its name comes back from
    the entry and the service knows the user. *)
Definition appliable (o : Org) (m : string) : Prop :=
  m ≠ "" ∧ no_space m = true ∧ m ∈ org_users o.

Definition add_entry (team_name : string) (maintainers : list string) (m : string) : string :=
  "Add " +:+ m +:+ " to " +:+ team_name +:+ " as " +:+ role_of m maintainers.

Definition remove_entry (team_name m : string) : string :=
  "Remove " +:+ m +:+ " from " +:+ team_name.

(** The members of a team after the membership grants for [adds]. *)
Definition members_added (maintainers : list string) (adds : list string)
    (mm : gmap string string) : gmap string string :=
  fold_left (λ mm m, <[m := role_of m maintainers]> mm) adds mm.

(** The members of a team after the revocations for [rems]. *)
Definition members_removed (rems : list string) (mm : gmap string string)
    : gmap string string :=
  fold_left (λ mm m, delete m mm) rems mm.

(** The world after a change of the team [s] to [rt]. *)
Definition put_team (w : World) (s : string) (rt : RemoteTeam) (calls : list Call)
    (lines : list string) : World :=
  {| org := set_team s rt (org w); trace := trace w ++ calls;
     stdout := stdout w ++ lines; stdin := stdin w |}.

(** From [w] to [w'] only the team [n] may have changed, and it still exists
    if it did. *)
Definition only_team (n : string) (w w' : World) : Prop :=
  org_users (org w') = org_users (org w)
  ∧ (∀ s, s ≠ n → org_teams (org w') !! s = org_teams (org w) !! s)
  ∧ (is_Some (org_teams (org w) !! n) → is_Some (org_teams (org w') !! n)).

(** * Properties *)

Lemma elem_of_map {A B} (f : A → B) (l : list A) y :
  y ∈ map f l ↔ ∃ x, y = f x ∧ x ∈ l.
Proof. apply (list_elem_of_fmap f l y). Qed.

(** ** Dictionaries *)

Module PyDictFacts.
Import PyDict.

Section Facts.
Context {V : Type}.
Implicit Types (d : t V) (k : string) (v : V).

Lemma get_set_eq d k v : get k (set k v d) = Some v.
Proof.
  induction d as [|[k' v'] d IH]; simpl; repeat case_decide; simpl;
    repeat case_decide; congruence.
Qed.

Lemma get_set_ne d k k' v : k ≠ k' → get k' (set k v d) = get k' d.
Proof.
  intros Hne. induction d as [|[k0 v0] d IH]; simpl; repeat case_decide; simpl;
    repeat case_decide; congruence.
Qed.

Lemma get_Some_keys d k : is_Some (get k d) ↔ k ∈ keys d.
Proof.
  unfold keys. induction d as [|[k' v'] d IH]; simpl.
  - split; [intros [? [=]] | intros ?%elem_of_nil; done].
  - rewrite elem_of_cons. case_decide; [naive_solver | ].
    rewrite IH. naive_solver.
Qed.

Lemma get_None_keys d k : get k d = None ↔ k ∉ keys d.
Proof. rewrite <- get_Some_keys, eq_None_not_Some. done. Qed.

Lemma keys_set_present d k v : k ∈ keys d → keys (set k v d) = keys d.
Proof.
  unfold keys. induction d as [|[k' v'] d IH]; simpl.
  - intros ?%elem_of_nil; done.
  - rewrite elem_of_cons. case_decide; simpl; [done | ].
    intros [? | ?]; [done | ]. f_equal. auto.
Qed.

Lemma keys_set_absent d k v : k ∉ keys d → keys (set k v d) = keys d ++ [k].
Proof.
  unfold keys. induction d as [|[k' v'] d IH]; simpl; [done | ].
  rewrite not_elem_of_cons. intros [? ?]. case_decide; [done | ].
  simpl. f_equal. auto.
Qed.

Lemma NoDup_keys_set d k v : NoDup (keys d) → NoDup (keys (set k v d)).
Proof.
  intros Hnd. destruct (decide (k ∈ keys d)).
  - by rewrite keys_set_present.
  - rewrite keys_set_absent by done. apply NoDup_app. split; [done | ].
    split; [ | apply NoDup_singleton].
    intros x Hx ->%list_elem_of_singleton. done.
Qed.

Lemma elem_of_keys_set d k k' v : k' ∈ keys (set k v d) ↔ k' = k ∨ k' ∈ keys d.
Proof.
  destruct (decide (k ∈ keys d)).
  - rewrite keys_set_present by done. naive_solver.
  - rewrite keys_set_absent by done. rewrite elem_of_app, list_elem_of_singleton.
    naive_solver.
Qed.

Lemma length_keys d : length (keys d) = length d.
Proof. apply length_map. Qed.

Context {A : Type} (key : A → string) (val : A → V).

Lemma fold_set_keys (l : list A) d :
  NoDup (keys d) →
  NoDup (keys (fold_left (λ d x, set (key x) (val x) d) l d))
  ∧ ∀ k, k ∈ keys (fold_left (λ d x, set (key x) (val x) d) l d)
         ↔ k ∈ keys d ∨ k ∈ map key l.
Proof.
  revert d. induction l as [|x l IH]; intros d Hnd; simpl.
  - split; [done | ]. intros k. rewrite elem_of_nil. naive_solver.
  - destruct (IH (set (key x) (val x) d)) as [H1 H2]; [by apply NoDup_keys_set | ].
    split; [done | ]. intros k. rewrite H2, elem_of_keys_set, elem_of_cons.
    naive_solver.
Qed.

Lemma fold_set_fresh (l : list A) d :
  NoDup (map key l) → (∀ x, x ∈ l → key x ∉ keys d) →
  fold_left (λ d x, set (key x) (val x) d) l d = d ++ map (λ x, (key x, val x)) l.
Proof.
  revert d. induction l as [|x l IH]; intros d Hnd Hfresh; simpl.
  - by rewrite app_nil_r.
  - apply NoDup_cons in Hnd as [Hx Hnd].
    assert (set (key x) (val x) d = d ++ [(key x, val x)]) as ->.
    { assert (key x ∉ keys d) as Hk by (apply Hfresh; left).
      clear -Hk. unfold keys in Hk. induction d as [|[k' v'] d IH]; simpl; [done | ].
      simpl in Hk. apply not_elem_of_cons in Hk as [? ?].
      case_decide; [done | ]. f_equal. auto. }
    rewrite IH; [by rewrite <- app_assoc | done | ].
    intros y Hy. unfold keys. rewrite map_app, elem_of_app. simpl.
    rewrite list_elem_of_singleton. intros [Hin | Heq].
    + apply (Hfresh y); [by right | done].
    + apply Hx. rewrite <- Heq. apply elem_of_map. eauto.
Qed.

Lemma comprehension_NoDup (l : list A) :
  NoDup (map key l) → comprehension key val l = map (λ x, (key x, val x)) l.
Proof.
  intros Hnd. unfold comprehension. rewrite fold_set_fresh; [done | done | ].
  intros x _ ?%elem_of_nil. done.
Qed.

Lemma comprehension_keys (l : list A) k :
  k ∈ keys (comprehension key val l) ↔ k ∈ map key l.
Proof.
  unfold comprehension.
  destruct (fold_set_keys l []) as [_ H]; [constructor | ].
  rewrite H. unfold keys. simpl. rewrite elem_of_nil. naive_solver.
Qed.

Lemma comprehension_keys_NoDup (l : list A) : NoDup (keys (comprehension key val l)).
Proof. apply fold_set_keys. constructor. Qed.

End Facts.
End PyDictFacts.

(** ** The depth-first traversal *)

Section DfsCorrect.
Context (order : SetOrder) (G : Graph).

Hypothesis keys_NoDup : NoDup (PyDict.keys G).
Hypothesis closed : ∀ p c, child_of G p c → c ∈ PyDict.keys G.
Hypothesis acyclic : ∀ x, ¬ tc (child_of G) x x.

Lemma children_first_snoc r n :
  children_first G r → (∀ c, child_of G n c → c ∈ r) → children_first G (r ++ [n]).
Proof.
  intros Hr Hn i x c Hi Hc.
  destruct (decide (i < length r)) as [Hlt | Hge].
  - rewrite lookup_app_l in Hi by done.
    destruct (Hr i x c Hi Hc) as (j & Hj & Hjc).
    exists j. split; [done | ]. rewrite lookup_app_l by lia. done.
  - rewrite lookup_app_r in Hi by lia.
    destruct (i - length r) as [|k] eqn:Hk; simpl in Hi; [ | by destruct k].
    injection Hi as <-.
    apply Hn, list_elem_of_lookup in Hc as [j Hj].
    exists j. pose proof (lookup_lt_Some _ _ _ Hj).
    split; [lia | ]. by rewrite lookup_app_l.
Qed.

(** The loop over the children of [node], given the specification of the
    recursive calls. *)
Lemma dfs_children_loop fuel node stack :
  (∀ child v r,
      dfs_inv G (stack ∪ {[node]}) v r → child_of G node child → child ∉ v →
      size (unvisited G v) < fuel →
      ∃ v' new, dfs order fuel G child (v, r) = Ok (v', r ++ new)
                ∧ child ∈ new ∧ dfs_inv G (stack ∪ {[node]}) v' (r ++ new)) →
  ∀ cs v r,
    dfs_inv G (stack ∪ {[node]}) v r → (∀ c, c ∈ cs → child_of G node c) →
    size (unvisited G v) < fuel →
    ∃ v' new,
      for_res cs
        (λ child st, if decide (child ∈ st.1) then Ok st else dfs order fuel G child st)
        (v, r) = Ok (v', r ++ new)
      ∧ dfs_inv G (stack ∪ {[node]}) v' (r ++ new)
      ∧ ∀ c, c ∈ cs → c ∈ v'.
Proof.
  intros Hdfs cs. induction cs as [|c cs IH]; intros v r Hinv Hcs Hfuel.
  - exists v, []. rewrite app_nil_r. simpl. split_and!; [done | done | ].
    intros c ?%elem_of_nil. done.
  - simpl. case_decide as Hc.
    + destruct (IH v r) as (v' & new & Hrun & Hinv' & Hall); [done | | done | ].
      { intros c' ?. apply Hcs. by right. }
      exists v', new. simpl. split_and!; [done | done | ].
      intros c' [-> | ?]%elem_of_cons; [ | by apply Hall].
      destruct Hinv as (Hv & _), Hinv' as (Hv' & _).
      rewrite list_to_set_app in Hv'. set_solver.
    + destruct (Hdfs c v r) as (v1 & new1 & Hrun1 & Hin1 & Hinv1); [done | | done | done | ].
      { apply Hcs. by left. }
      assert (v ⊆ v1) as Hsub.
      { destruct Hinv as (Hv & _), Hinv1 as (Hv1 & _).
        rewrite list_to_set_app in Hv1. set_solver. }
      destruct (IH v1 (r ++ new1)) as (v' & new & Hrun & Hinv' & Hall); [done | | | ].
      { intros c' ?. apply Hcs. by right. }
      { eapply Nat.le_lt_trans; [ | exact Hfuel].
        apply subseteq_size. unfold unvisited. set_solver. }
      exists v', (new1 ++ new). rewrite Hrun1. simpl. rewrite app_assoc.
      split_and!; [done | done | ].
      intros c' [-> | ?]%elem_of_cons; [ | by apply Hall].
      destruct Hinv1 as (Hv1 & _), Hinv' as (Hv' & _).
      rewrite !list_to_set_app in *. set_solver.
Qed.

(** A call of [dfs] on an unvisited node returns when the fuel exceeds the
    number of unvisited keys; it appends the nodes it finishes, the node
    itself last. *)
Lemma dfs_spec fuel : ∀ node stack v r,
  dfs_inv G stack v r → node ∈ PyDict.keys G → node ∉ v →
  (∀ a, a ∈ stack → tc (child_of G) a node) →
  size (unvisited G v) < fuel →
  ∃ v' new, dfs order fuel G node (v, r) = Ok (v', r ++ new)
            ∧ node ∈ new ∧ dfs_inv G stack v' (r ++ new).
Proof.
  induction fuel as [|fuel IH]; intros node stack v r Hinv Hkey Hfresh Hstack Hfuel; [lia | ].
  destruct Hinv as (Hv & Hdisj & Hnd & Hcf & Hkeys).
  simpl. apply PyDictFacts.get_Some_keys in Hkey as Hget. destruct Hget as [children Hget].
  rewrite Hget.
  assert (Hchildren : ∀ c, c ∈ iterate order node children → child_of G node c).
  { intros c Hc. exists children. split; [done | ].
    rewrite (iterate_perm order node children) in Hc. by apply elem_of_elements in Hc. }
  destruct (dfs_children_loop fuel node stack) with
    (cs := iterate order node children) (v := v ∪ {[node]}) (r := r)
    as (v2 & newl & Hrun & (Hv2 & Hdisj2 & Hnd2 & Hcf2 & Hkeys2) & Hall).
  - intros child v0 r0 Hinv0 Hchild Hfresh0 Hfuel0.
    apply IH; try done.
    + by eapply closed.
    + intros a [Ha | ->%elem_of_singleton]%elem_of_union.
      * eapply tc_r; [by apply Hstack | done].
      * by apply tc_once.
  - split_and!; [set_solver | set_solver | done | done | ].
    intros x [? | ->%elem_of_singleton]%elem_of_union; auto.
  - done.
  - assert (unvisited G (v ∪ {[node]}) ⊂ unvisited G v) as Hlt%subset_size; [ | lia].
    unfold unvisited. split; [set_solver | ].
    intros Hsub. specialize (Hsub node). set_solver.
  - rewrite Hrun. simpl. exists v2, (newl ++ [node]). rewrite app_assoc.
    split_and!; [done | set_solver | ]. rewrite list_to_set_app in Hv2, Hdisj2.
    split_and!.
    + rewrite !list_to_set_app. set_solver.
    + rewrite !list_to_set_app. set_solver.
    + apply NoDup_app. split_and!; [done | | apply NoDup_singleton].
      intros x Hx ->%list_elem_of_singleton.
      apply (Hdisj2 node); [set_solver | ].
      rewrite <- list_to_set_app. by apply elem_of_list_to_set.
    + apply children_first_snoc; [done | ].
      intros c Hc.
      assert (c ∈ v2) as Hc2.
      { apply Hall. rewrite (iterate_perm order node children).
        destruct Hc as (s & Hs & Hcs). rewrite Hget in Hs. injection Hs as <-.
        by apply elem_of_elements. }
      apply Hv2 in Hc2.
      apply elem_of_union in Hc2 as [Hc2 | Hc2].
      { rewrite <- list_to_set_app in Hc2. by apply elem_of_list_to_set in Hc2. }
      exfalso. apply elem_of_union in Hc2 as [Ha | ->%elem_of_singleton].
      * apply (acyclic c). eapply tc_r; [by apply Hstack | done].
      * apply (acyclic node). by apply tc_once.
    + done.
Qed.

#[local] Arguments dfs : simpl never.

Lemma dfs_roots_loop : ∀ ks v r,
  dfs_inv G ∅ v r → (∀ k, k ∈ ks → k ∈ PyDict.keys G) →
  ∃ v' new,
    for_res ks
      (λ node st, if decide (node ∈ st.1) then Ok st
                  else dfs order (S (length G)) G node st)
      (v, r) = Ok (v', r ++ new)
    ∧ dfs_inv G ∅ v' (r ++ new)
    ∧ ∀ k, k ∈ ks → k ∈ v'.
Proof.
  assert (Hfuel : ∀ v, size (unvisited G v) < S (length G)).
  { intros v. apply Nat.lt_succ_r.
    rewrite <- (PyDictFacts.length_keys G), <- (size_list_to_set (C := gset string)) by done.
    apply subseteq_size. unfold unvisited. set_solver. }
  induction ks as [|k ks IH]; intros v r Hinv Hks.
  - exists v, []. rewrite app_nil_r. simpl. split_and!; [done | done | ].
    intros c ?%elem_of_nil. done.
  - simpl. case_decide as Hk.
    + destruct (IH v r) as (v' & new & Hrun & Hinv' & Hall); [done | | ].
      { intros c' ?. apply Hks. by right. }
      exists v', new. simpl. split_and!; [done | done | ].
      intros c' [-> | ?]%elem_of_cons; [ | by apply Hall].
      destruct Hinv as (Hv & _), Hinv' as (Hv' & _).
      rewrite list_to_set_app in Hv'. set_solver.
    + destruct (dfs_spec (S (length G)) k ∅ v r)
        as (v1 & new1 & Hrun1 & Hin1 & Hinv1); [done | | done | | done | ].
      { apply Hks. by left. }
      { intros a ?%elem_of_empty. done. }
      destruct (IH v1 (r ++ new1)) as (v' & new & Hrun & Hinv' & Hall); [done | | ].
      { intros c' ?. apply Hks. by right. }
      exists v', (new1 ++ new). rewrite Hrun1. simpl. rewrite app_assoc.
      split_and!; [done | done | ].
      intros c' [-> | ?]%elem_of_cons; [ | by apply Hall].
      destruct Hinv1 as (Hv1 & _), Hinv' as (Hv' & _).
      rewrite !list_to_set_app in *. set_solver.
Qed.

(** The traversal from every key returns, with every key once and every
    node after its children. *)
Lemma dfs_all :
  ∃ v r,
    for_res (PyDict.keys G)
      (λ node st, if decide (node ∈ st.1) then Ok st
                  else dfs order (S (length G)) G node st)
      (∅, []) = Ok (v, r)
    ∧ r ≡ₚ PyDict.keys G
    ∧ children_first G r.
Proof.
  destruct (dfs_roots_loop (PyDict.keys G) ∅ []) as (v & r & Hrun & Hinv & Hall).
  - split_and!; [set_solver | set_solver | constructor | | set_solver].
    intros i x c Hi. by rewrite lookup_nil in Hi.
  - done.
  - simpl in *. exists v, r. destruct Hinv as (Hv & _ & Hnd & Hcf & Hkeys).
    split_and!; [done | | done].
    apply NoDup_Permutation; [done | done | ].
    intros x. split.
    + intros Hx. apply Hkeys, Hv. set_solver.
    + intros Hx. apply Hall, Hv in Hx. set_solver.
Qed.

End DfsCorrect.

(** ** The adjacency structure *)

Lemma tc_subrel {A} (R1 R2 : relation A) x y :
  (∀ a b, R1 a b → R2 a b) → tc R1 x y → tc R2 x y.
Proof. intros Hsub. apply (tc_congruence id). exact Hsub. Qed.

Lemma child_of_set G p0 s n p c :
  PyDict.get p0 G = Some s →
  child_of (PyDict.set p0 (s ∪ {[n]}) G) p c ↔ child_of G p c ∨ (p = p0 ∧ c = n).
Proof.
  intros Hget. unfold child_of. destruct (decide (p0 = p)) as [-> | Hne].
  - rewrite PyDictFacts.get_set_eq, Hget. split.
    + intros (s' & [= <-] & [? | ->%elem_of_singleton]%elem_of_union); eauto.
    + intros [(s' & [= <-] & ?) | [_ ->]]; eexists; (split; [done | set_solver]).
  - rewrite PyDictFacts.get_set_ne by done. naive_solver.
Qed.

Lemma add_edges_spec : ∀ l G,
  (∀ t p, t ∈ l → parent t = Some p → p ∈ PyDict.keys G) →
  ∃ G', for_res l add_edge G = Ok G'
        ∧ PyDict.keys G' = PyDict.keys G
        ∧ ∀ p c, child_of G' p c ↔ child_of G p c ∨ is_parent l p c.
Proof.
  induction l as [|t l IH]; intros G Hclosed.
  - exists G. split_and!; [done | done | ]. intros p c. unfold is_parent.
    split; [auto | ]. intros [? | (t & ?%elem_of_nil & _)]; done.
  - simpl. unfold add_edge at 1. destruct (parent t) as [p0|] eqn:Hp.
    + assert (p0 ∈ PyDict.keys G) as Hin by (eapply Hclosed; [by left | done]).
      apply PyDictFacts.get_Some_keys in Hin as [s Hs]. rewrite Hs. simpl.
      destruct (IH (PyDict.set p0 (s ∪ {[name t]}) G)) as (G' & Hrun & Hkeys & Hrel).
      { intros t' p' Ht' Hp'. rewrite PyDictFacts.elem_of_keys_set. right.
        eapply Hclosed; [by right | done]. }
      exists G'. split; [done | ]. split.
      { rewrite Hkeys. apply PyDictFacts.keys_set_present.
        apply PyDictFacts.get_Some_keys. eauto. }
      intros p c. rewrite Hrel, child_of_set by done. unfold is_parent. split.
      * intros [[? | [-> ->]] | (t' & ? & ? & ?)]; [by left | right .. ].
        -- exists t. split_and!; [by left | done | done].
        -- exists t'. split_and!; [by right | done | done].
      * intros [? | (t' & [-> | ?]%elem_of_cons & ? & ?)]; [by left; left | | ].
        -- left; right. split; congruence.
        -- right. by exists t'.
    + simpl. destruct (IH G) as (G' & Hrun & Hkeys & Hrel).
      { intros t' p' Ht' Hp'. eapply Hclosed; [by right | done]. }
      exists G'. split_and!; [done | done | ].
      intros p c. rewrite Hrel. unfold is_parent. split.
      * intros [? | (t' & ? & ? & ?)]; [by left | right].
        exists t'. split_and!; [by right | done | done].
      * intros [? | (t' & [-> | ?]%elem_of_cons & ? & ?)]; [by left | congruence | ].
        right. by exists t'.
Qed.

Lemma add_edges_dangling : ∀ l G,
  (∃ t p, t ∈ l ∧ parent t = Some p ∧ p ∉ PyDict.keys G) →
  ∃ p, for_res l add_edge G = Raise (KeyError p) ∧ p ∉ PyDict.keys G.
Proof.
  induction l as [|t l IH]; intros G (t' & p' & Ht' & Hp' & Hout).
  - by apply elem_of_nil in Ht'.
  - simpl. unfold add_edge at 1. destruct (parent t) as [p0|] eqn:Hp.
    + destruct (PyDict.get p0 G) as [s|] eqn:Hs.
      * simpl. apply elem_of_cons in Ht' as [-> | Ht'].
        { exfalso. apply Hout, PyDictFacts.get_Some_keys. rewrite Hp in Hp'.
          injection Hp' as <-. eauto. }
        assert (PyDict.keys (PyDict.set p0 (s ∪ {[name t]}) G) = PyDict.keys G) as Hk.
        { apply PyDictFacts.keys_set_present, PyDictFacts.get_Some_keys. eauto. }
        destruct (IH (PyDict.set p0 (s ∪ {[name t]}) G)) as (p & Hrun & Hp0).
        { exists t', p'. by rewrite Hk. }
        exists p. by rewrite <- Hk.
      * exists p0. split; [done | ]. by apply PyDictFacts.get_None_keys.
    + simpl. apply elem_of_cons in Ht' as [-> | Ht']; [congruence | ].
      apply IH. by exists t', p'.
Qed.

Lemma child_of_initial (teams : list TeamSpec) p c :
  ¬ child_of (PyDict.comprehension name (λ _, ∅) teams) p c.
Proof.
  unfold PyDict.comprehension.
  enough (∀ l G, (∀ p c, ¬ child_of G p c) →
            ∀ p c, ¬ child_of (fold_left (λ d x, PyDict.set (name x) (∅ : gset string) d) l G) p c)
    as H.
  { apply H. intros p' c' (s & [=] & _). }
  clear. induction l as [|t l IH]; intros G HG; simpl; [done | ].
  apply IH. intros p c (s & Hs & Hc).
  destruct (decide (name t = p)) as [<- | Hne].
  - rewrite PyDictFacts.get_set_eq in Hs. injection Hs as <-. set_solver.
  - rewrite PyDictFacts.get_set_ne in Hs by done. apply (HG p c). by exists s.
Qed.

(** ** Positions in a list *)

Lemma precedes_trans (l : list string) a b c :
  NoDup l → precedes l a b → precedes l b c → precedes l a c.
Proof.
  intros Hnd (i & j & Hi & Hj & Hij) (j' & k & Hj' & Hk & Hjk).
  assert (j = j') as <- by (eapply NoDup_lookup; eauto).
  exists i, k. split_and!; [done | done | lia].
Qed.

Lemma precedes_reverse (l : list string) a b : precedes l b a → precedes (reverse l) a b.
Proof.
  intros (i & j & Hi & Hj & Hij).
  pose proof (lookup_lt_Some _ _ _ Hi). pose proof (lookup_lt_Some _ _ _ Hj).
  exists (length l - S j), (length l - S i).
  rewrite !reverse_lookup by lia.
  replace (length l - S (length l - S j)) with j by lia.
  replace (length l - S (length l - S i)) with i by lia.
  split_and!; [done | done | lia].
Qed.

(** ** The full ordering *)

Lemma build_graph_forest teams :
  forest teams →
  ∃ G, build_graph teams = Ok G
       ∧ PyDict.keys G = map name teams
       ∧ ∀ p c, child_of G p c ↔ is_parent teams p c.
Proof.
  intros [Hnd Hclosed _]. unfold build_graph.
  assert (PyDict.keys (PyDict.comprehension name (λ _, ∅ : gset string) teams)
          = map name teams) as Hkeys0.
  { rewrite PyDictFacts.comprehension_NoDup by done.
    unfold PyDict.keys. rewrite map_map. done. }
  destruct (add_edges_spec teams (PyDict.comprehension name (λ _, ∅) teams))
    as (G & Hrun & Hkeys & Hrel).
  { intros t p Ht Hp. rewrite Hkeys0. eauto. }
  exists G. split_and!; [done | congruence | ].
  intros p c. rewrite Hrel. split; [ | auto].
  intros [?%child_of_initial | ?]; done.
Qed.

Lemma forest_intro (rank : string → nat) teams :
  NoDup (map name teams) →
  Forall (λ t, ∀ p, parent t = Some p → p ∈ map name teams ∧ rank p < rank (name t)) teams →
  forest teams.
Proof.
  intros Hnd Hall. rewrite Forall_forall in Hall. split; [done | | ].
  - intros t p Ht Hp. by apply (Hall t Ht p).
  - assert (∀ a x, ancestor teams a x → rank a < rank x) as Hrank.
    { intros a x H. induction H as [a x (t & Ht & <- & Hp) | a b x (t & Ht & <- & Hp) _ IH].
      - by apply (Hall t Ht a).
      - pose proof (Hall t Ht a Hp). lia. }
    intros x Hx%Hrank. lia.
Qed.

(** C3: for every list of teams whose parent references form a forest, the
    full topological ordering returns a sequence that contains every team
    name exactly once and in which every ancestor of a team occurs strictly
    before that team. *)
Theorem topological_sort_forest (order : SetOrder) (teams : list TeamSpec) :
  forest teams →
  ∃ result,
    topological_sort order teams = Ok result
    ∧ result ≡ₚ map name teams
    ∧ ∀ a x, ancestor teams a x → precedes result a x.
Proof.
  intros Hforest. destruct (build_graph_forest teams Hforest) as (G & HG & Hkeys & Hrel).
  destruct Hforest as [Hnd Hclosed Hacyclic].
  destruct (dfs_all order G) as (v & r & Hrun & Hperm & Hcf).
  - by rewrite Hkeys.
  - intros p c (t & Ht & <- & _)%Hrel. rewrite Hkeys. apply elem_of_map. eauto.
  - intros x Hx. apply (Hacyclic x). eapply tc_subrel; [ | exact Hx].
    intros a b. apply Hrel.
  - exists (reverse r). unfold topological_sort. rewrite HG. cbn [res_bind].
    unfold DfsState in *. rewrite Hrun. cbn [res_bind].
    assert (reverse r ≡ₚ map name teams) as Hrev.
    { rewrite reverse_Permutation, Hperm, Hkeys. done. }
    split_and!; [done | done | ].
    assert (NoDup (reverse r)) as Hndr by (by rewrite Hrev).
    intros a x Hax. induction Hax as [a x Hp | a b x Hp _ IH].
    + apply precedes_reverse.
      assert (a ∈ r) as [i Hi]%list_elem_of_lookup.
      { rewrite Hperm, Hkeys. destruct Hp as (t & Ht & _ & Hpar). eauto. }
      destruct (Hcf i a x Hi) as (j & Hj & Hjx); [by apply Hrel | ].
      by exists j, i.
    + eapply precedes_trans; [done | | exact IH].
      apply precedes_reverse.
      assert (a ∈ r) as [i Hi]%list_elem_of_lookup.
      { rewrite Hperm, Hkeys. destruct Hp as (t & Ht & _ & Hpar). eauto. }
      destruct (Hcf i a b Hi) as (j & Hj & Hjx); [by apply Hrel | ].
      by exists j, i.
Qed.

(** When some team names a parent that is not a configured team, the full
    ordering raises a key error for such a name while it builds the
    adjacency structure. *)
Lemma topological_sort_dangling (order : SetOrder) (teams : list TeamSpec) :
  dangling teams →
  ∃ p, topological_sort order teams = Raise (KeyError p) ∧ p ∉ map name teams.
Proof.
  intros (t & p & Ht & Hp & Hout).
  destruct (add_edges_dangling teams (PyDict.comprehension name (λ _, ∅) teams))
    as (p' & Hrun & Hp').
  { exists t, p. split_and!; [done | done | ].
    by rewrite PyDictFacts.comprehension_keys. }
  exists p'. unfold topological_sort, build_graph. rewrite Hrun. simpl.
  split; [done | ]. by rewrite PyDictFacts.comprehension_keys in Hp'.
Qed.

(** ** Running computations *)

Lemma add_calls_nil w : add_calls w [] = w.
Proof. destruct w. unfold add_calls. simpl. by rewrite app_nil_r. Qed.

Lemma add_calls_app w c1 c2 : add_calls (add_calls w c1) c2 = add_calls w (c1 ++ c2).
Proof. unfold add_calls. simpl. by rewrite app_assoc. Qed.

Lemma add_lines_nil w : add_lines w [] = w.
Proof. destruct w. unfold add_lines. simpl. by rewrite app_nil_r. Qed.

Lemma add_lines_app w l1 l2 : add_lines (add_lines w l1) l2 = add_lines w (l1 ++ l2).
Proof. unfold add_lines. simpl. by rewrite app_assoc. Qed.

Lemma bind_run {A B} (m : M A) (k : A → M B) w :
  (m ≫= k) w = match m w with
               | (Ok a, w') => k a w'
               | (Raise e, w') => (Raise e, w')
               | (OutOfFuel, w') => (OutOfFuel, w')
               end.
Proof. done. Qed.

Lemma print_run line w : print line w = (Ok tt, add_lines w [line]).
Proof. done. Qed.

Lemma call_run c w : call c w = (Ok tt, add_calls w [c]).
Proof. done. Qed.

Ltac run_prints := repeat (rewrite bind_run, print_run; cbv beta iota).

Lemma for_each_print {A} (f : A → string) (l : list A) w :
  for_each l (λ x _, print (f x)) tt w = (Ok tt, add_lines w (map f l)).
Proof.
  revert w. induction l as [|x l IH]; intros w; simpl.
  - by rewrite add_lines_nil.
  - rewrite bind_run, print_run, IH, add_lines_app. done.
Qed.

Lemma print_changes_run changes w :
  ∃ lines, print_changes changes w = (Ok tt, add_lines w lines).
Proof.
  unfold print_changes. revert w.
  induction changes as [|[action items] changes IH]; intros w.
  - exists []. by rewrite add_lines_nil.
  - cbn [for_each]. rewrite bind_run. destruct items as [|item items].
    + exact (IH w).
    + rewrite bind_run, print_run, for_each_print.
      match goal with
      | |- context [for_each changes _ tt ?w'] => destruct (IH w') as [lines Hlines]
      end.
      rewrite Hlines, !add_lines_app. eauto.
Qed.

(** A dry-run diff of a team returns, after one lookup of the team and, when
    the team exists, one listing of its members. *)
Lemma create_or_update_team_dry order n Ms Ns p w :
  ∃ changes,
    create_or_update_team order n Ms Ns p true w
    = (Ok changes,
       add_calls w (GetTeamBySlug n ::
                    match org_teams (org w) !! n with
                    | Some _ => [GetMembers n]
                    | None => []
                    end)).
Proof.
  unfold create_or_update_team, try_except, get_team_by_slug, get_members, mbind, M_bind,
    mret, M_ret, call, get_org, raise, add_calls.
  cbn. destruct (org_teams (org w) !! n) as [rt|] eqn:Hn; cbn.
  - rewrite Hn. cbn. rewrite <- app_assoc. eauto.
  - eauto.
Qed.

(** ** The ancestor chain *)

Lemma parent_chain_configured d t l : parent_chain d t l → is_Some (PyDict.get t d).
Proof. intros []; eauto. Qed.

Lemma parent_chain_lookup d t l :
  parent_chain d t l → ∀ i a, l !! i = Some a → parent_chain d a (take i l).
Proof.
  induction 1 as [|t team p l Hget Hpar Hchain IH]; intros i a Hi.
  - by rewrite lookup_nil in Hi.
  - destruct (decide (i < length l)) as [Hlt | Hge].
    + rewrite lookup_app_l in Hi by done. rewrite take_app_le by lia. by apply IH.
    + rewrite lookup_app_r in Hi by lia.
      destruct (i - length l) as [|k] eqn:Hk; simpl in Hi; [ | by destruct k].
      injection Hi as <-. replace i with (length l) by lia.
      by rewrite take_app_length.
Qed.

Lemma parent_chain_det d t l1 :
  parent_chain d t l1 → ∀ l2, parent_chain d t l2 → l1 = l2.
Proof.
  induction 1 as [t team Hget Hpar | t team p l Hget Hpar Hchain IH]; intros l2 H2;
    inversion H2 as [t' team' Hget' Hpar' | t' team' p' l' Hget' Hpar' Hchain']; subst;
    try congruence.
  assert (team' = team) as -> by congruence.
  assert (p' = p) as -> by congruence.
  f_equal. by apply IH.
Qed.

Lemma parent_chain_excludes d t l : parent_chain d t l → t ∉ l.
Proof.
  intros Hchain [i Hi]%list_elem_of_lookup.
  pose proof (parent_chain_lookup d t l Hchain i t Hi) as Hsub.
  pose proof (parent_chain_det d t _ Hsub l Hchain) as Heq.
  apply lookup_lt_Some in Hi. apply (f_equal length) in Heq.
  rewrite length_take in Heq. lia.
Qed.

Lemma parent_chain_all_configured d t l :
  parent_chain d t l → ∀ a, a ∈ l ++ [t] → is_Some (PyDict.get a d).
Proof.
  intros Hchain a [[i Hi]%list_elem_of_lookup | ->%list_elem_of_singleton]%elem_of_app.
  - eapply parent_chain_configured, parent_chain_lookup; eauto.
  - by eapply parent_chain_configured.
Qed.

Lemma get_dependent_teams_loop_chain d t l :
  parent_chain d t l →
  ∀ fuel acc, length l < fuel →
    get_dependent_teams_loop fuel t d acc = Ok (l ++ reverse acc).
Proof.
  induction 1 as [t team Hget Hpar | t team p l Hget Hpar Hchain IH]; intros fuel acc Hfuel.
  - destruct fuel as [|fuel]; [simpl in Hfuel; lia | ]. simpl. by rewrite Hget, Hpar.
  - rewrite length_app in Hfuel. simpl in Hfuel.
    destruct fuel as [|fuel]; [lia | ]. simpl. rewrite Hget, Hpar.
    rewrite IH by lia. rewrite reverse_app. simpl. by rewrite <- app_assoc.
Qed.

Lemma team_lookups_app c1 c2 : team_lookups (c1 ++ c2) = team_lookups c1 ++ team_lookups c2.
Proof. apply omap_app. Qed.

Lemma teams_phase1_step_run order d n team acc w :
  PyDict.get n d = Some team →
  ∃ all_changes calls lines,
    teams_phase1_step order d n acc w = (Ok all_changes, add_lines (add_calls w calls) lines)
    ∧ team_lookups calls = [n].
Proof.
  intros Hget. unfold teams_phase1_step, getitem. rewrite Hget.
  rewrite bind_run. cbn [mret M_ret]. rewrite bind_run.
  destruct (create_or_update_team_dry order n (get_list (maintainers team))
              (get_list (members team)) (parent team) w) as [changes ->].
  run_prints. rewrite bind_run.
  match goal with
  | |- context [print_changes changes ?w'] =>
      destruct (print_changes_run changes w') as [lines ->]
  end.
  run_prints. rewrite !add_lines_app. cbn [mret M_ret].
  eexists _, _, _. split; [reflexivity | ].
  by destruct (org_teams (org w) !! n).
Qed.

Lemma teams_phase1_run order d : ∀ l acc w,
  (∀ n, n ∈ l → is_Some (PyDict.get n d)) →
  ∃ all_changes w',
    for_each l (teams_phase1_step order d) acc w = (Ok all_changes, w')
    ∧ org w' = org w
    ∧ team_lookups (trace w') = team_lookups (trace w) ++ l.
Proof.
  induction l as [|n l IH]; intros acc w Hall.
  - exists acc, w. by rewrite app_nil_r.
  - cbn [for_each]. rewrite bind_run.
    destruct (Hall n) as [team Hteam]; [by left | ].
    destruct (teams_phase1_step_run order d n team acc w Hteam)
      as (acc1 & calls & lines & -> & Hcalls).
    destruct (IH acc1 (add_lines (add_calls w calls) lines)) as (acc2 & w' & -> & Horg & Htrace).
    { intros n' ?. apply Hall. by right. }
    exists acc2, w'. split_and!; [done | done | ].
    rewrite Htrace. simpl. rewrite team_lookups_app, Hcalls, <- app_assoc. done.
Qed.

(** C4: when the parent chain of the configured team [t] is [l], root first,
    the ancestor computation returns exactly [l], which does not contain [t],
    and a run scoped to [t] processes the teams of [l ++ [t]], in that order,
    and no other team. *)
Theorem scoped_run_order (order : SetOrder) (fuel : nat) (args : Args) (config : Config)
    (t : string) (l : list string) (w : World) :
  let teams_dict := PyDict.comprehension name id (config_teams config) in
  parent_chain teams_dict t l →
  length l < fuel →
  args_target args = Some t →
  t ≠ "" →
  get_dependent_teams fuel t teams_dict = Ok l
  ∧ (t ∉ l)
  ∧ teams_to_process order fuel args config teams_dict w = (Ok (l ++ [t]), w)
  ∧ ∃ all_changes w',
      teams_phase1 order teams_dict (l ++ [t]) w = (Ok all_changes, w')
      ∧ team_lookups (trace w') = team_lookups (trace w) ++ l ++ [t].
Proof.
  intros d Hchain Hfuel Htarget Hne.
  assert (get_dependent_teams fuel t d = Ok l) as Hanc.
  { unfold get_dependent_teams. rewrite (get_dependent_teams_loop_chain d t l) by done.
    by rewrite app_nil_r. }
  split_and!; [done | by eapply parent_chain_excludes | | ].
  - unfold teams_to_process, truthy. rewrite Htarget. rewrite decide_False by done.
    unfold PyDict.mem. destruct (parent_chain_configured d t l Hchain) as [team ->].
    rewrite bind_run. unfold lift. by rewrite Hanc.
  - destruct (teams_phase1_run order d (l ++ [t]) [] w) as (ac & w' & Hrun & _ & Htrace).
    + by apply parent_chain_all_configured.
    + exists ac, w'. split; [done | ]. by rewrite Htrace, app_assoc.
Qed.

(** ** ChangeSets *)

Lemma dd_get_nil k : dd_get k [] = [].
Proof. done. Qed.

Lemma dd_get_append_eq k x changes :
  dd_get k (dd_append k x changes) = dd_get k changes ++ [x].
Proof. unfold dd_append, dd_get at 1. by rewrite PyDictFacts.get_set_eq. Qed.

Lemma dd_get_append_ne k k' x changes :
  k ≠ k' → dd_get k' (dd_append k x changes) = dd_get k' changes.
Proof. intros Hne. unfold dd_append, dd_get. by rewrite PyDictFacts.get_set_ne. Qed.

Lemma dd_get_fold_eq {A} k (f : A → string) (l : list A) changes :
  dd_get k (fold_left (λ changes x, dd_append k (f x) changes) l changes)
  = dd_get k changes ++ map f l.
Proof.
  revert changes. induction l as [|x l IH]; intros changes; simpl.
  - by rewrite app_nil_r.
  - by rewrite IH, dd_get_append_eq, <- app_assoc.
Qed.

Lemma dd_get_fold_ne {A} k k' (f : A → string) (l : list A) changes :
  k ≠ k' →
  dd_get k' (fold_left (λ changes x, dd_append k (f x) changes) l changes)
  = dd_get k' changes.
Proof.
  intros Hne. revert changes. induction l as [|x l IH]; intros changes; simpl; [done | ].
  by rewrite IH, dd_get_append_ne.
Qed.

Lemma with_membership_add order n Ms Ns current head :
  dd_get "add" (with_membership order n Ms Ns current head)
  = dd_get "add" head
    ++ map (λ member, "Add " +:+ member +:+ " to " +:+ n +:+ " as " +:+ role_of member Ms)
         (iterate order n (list_to_set (Ms ++ Ns) ∖ current)).
Proof.
  unfold with_membership. rewrite dd_get_fold_ne by done.
  apply (dd_get_fold_eq "add"
           (λ member, "Add " +:+ member +:+ " to " +:+ n +:+ " as " +:+ role_of member Ms)).
Qed.

Lemma with_membership_remove order n Ms Ns current head :
  dd_get "remove" (with_membership order n Ms Ns current head)
  = dd_get "remove" head
    ++ map (λ member, "Remove " +:+ member +:+ " from " +:+ n)
         (iterate order n (current ∖ list_to_set (Ms ++ Ns))).
Proof.
  unfold with_membership.
  rewrite (dd_get_fold_eq "remove" (λ member, "Remove " +:+ member +:+ " from " +:+ n)).
  by rewrite dd_get_fold_ne.
Qed.

Lemma with_membership_other order n Ms Ns current head k :
  k ≠ "add" → k ≠ "remove" →
  dd_get k (with_membership order n Ms Ns current head) = dd_get k head.
Proof.
  intros H1 H2. unfold with_membership. by rewrite !dd_get_fold_ne.
Qed.

#[local] Arguments dd_append : simpl never.
#[local] Arguments dd_get : simpl never.

(** ** The team differ *)

(** The team differ either returns the entries of the lookups followed by
    the membership entries, or fails on the lookup of the desired parent. It
    makes no mutating call either way. *)
Lemma create_or_update_team_cases order n Ms Ns p dry w :
  (∃ head calls,
      create_or_update_team order n Ms Ns p dry w
      = (Ok (with_membership order n Ms Ns (current_members (org w) n) head),
         add_calls w calls)
      ∧ dd_get "add" head = [] ∧ dd_get "remove" head = []
      ∧ Forall (λ c, is_mutating c = false) calls)
  ∨ (dry = false
     ∧ ∃ p', truthy p = Some p'
             ∧ is_Some (org_teams (org w) !! n)
             ∧ org_teams (org w) !! p' = None
             ∧ create_or_update_team order n Ms Ns p dry w
               = (Raise (UnknownObject p'), add_calls w [GetTeamBySlug n; GetTeamBySlug p'])).
Proof.
  unfold create_or_update_team, with_membership, current_members, try_except,
    get_team_by_slug, get_members, mbind, M_bind, mret, M_ret, call, get_org, raise, add_calls.
  cbn. destruct (org_teams (org w) !! n) as [rt|] eqn:Hn; cbn.
  - destruct dry; cbn.
    + left. rewrite Hn. cbn. rewrite <- app_assoc. eexists _, _. split; [reflexivity | ].
      split_and!; [ | | by repeat constructor];
        case_decide; by rewrite ?dd_get_append_ne, ?dd_get_nil.
    + destruct (truthy p) as [p'|] eqn:Hp; cbn.
      * destruct (org_teams (org w) !! p') as [rtp|] eqn:Hp'; cbn.
        -- left. case_decide; cbn; rewrite Hn; cbn; rewrite <- !app_assoc;
             (eexists _, _; split; [reflexivity | ]);
             (split_and!; [ | | by repeat constructor]);
             repeat case_decide; by rewrite ?dd_get_append_ne, ?dd_get_nil.
        -- right. split; [done | ]. exists p'. rewrite <- app_assoc. eauto.
      * left. rewrite Hn. cbn. rewrite <- !app_assoc.
        eexists _, _; split; [reflexivity | ].
        split_and!; [ | | by repeat constructor];
          repeat case_decide; by rewrite ?dd_get_append_ne, ?dd_get_nil.
  - left. eexists _, _. split; [reflexivity | ].
    split_and!; [ | | by repeat constructor]; by rewrite ?dd_get_append_ne, ?dd_get_nil.
Qed.

(** C5: with the desired names being the maintainers together with the
    members, the team diff records one add entry for every desired name that
    is not a current member, with the role maintainer when the name is among
    the maintainers and member otherwise, one remove entry for every current
    member that is not desired, and no add or remove entry for any other
    name. The diff fails only when, in live mode, the desired parent of an
    existing team cannot be looked up. *)
Theorem team_diff_membership (order : SetOrder) (team_name : string)
    (maintainers members : list string) (parent_name : option string) (dry_run : bool)
    (w : World) :
  let current := current_members (org w) team_name in
  let desired : gset string := list_to_set (maintainers ++ members) in
  match (create_or_update_team order team_name maintainers members parent_name dry_run w).1 with
  | Ok changes =>
      dd_get "add" changes
        ≡ₚ map (λ member, "Add " +:+ member +:+ " to " +:+ team_name +:+ " as "
                          +:+ (if decide (member ∈ maintainers) then "maintainer" else "member"))
             (elements (desired ∖ current))
      ∧ dd_get "remove" changes
        ≡ₚ map (λ member, "Remove " +:+ member +:+ " from " +:+ team_name)
             (elements (current ∖ desired))
  | Raise e =>
      dry_run = false
      ∧ ∃ p, truthy parent_name = Some p
             ∧ is_Some (org_teams (org w) !! team_name)
             ∧ org_teams (org w) !! p = None
             ∧ e = UnknownObject p
  | OutOfFuel => False
  end.
Proof.
  intros current desired.
  destruct (create_or_update_team_cases order team_name maintainers members parent_name
              dry_run w) as [(head & calls & -> & Hadd & Hrem & _) | (-> & p & Hp & Hn & Hnone & ->)].
  - cbn [fst]. rewrite with_membership_add, with_membership_remove, Hadd, Hrem.
    cbn [app]. split.
    + apply Permutation_map, iterate_perm.
    + apply Permutation_map, iterate_perm.
  - cbn [fst]. split; [done | ]. exists p. done.
Qed.

(** The example of the specification: current members a and b, desired
    maintainers b and c, no desired members. *)
Lemma team_diff_example (order : SetOrder) (w : World) (rt : RemoteTeam) :
  org_teams (org w) !! "T" = Some rt →
  dom (team_members rt) = {[ "a"; "b" ]} →
  ∃ changes w',
    create_or_update_team order "T" ["b"; "c"] [] None true w = (Ok changes, w')
    ∧ dd_get "add" changes = ["Add c to T as maintainer"]
    ∧ dd_get "remove" changes = ["Remove a from T"].
Proof.
  intros Hrt Hdom.
  destruct (create_or_update_team_cases order "T" ["b"; "c"] [] None true w)
    as [(head & calls & -> & Hadd & Hrem & _) | ([=] & _)].
  eexists _, _. split; [reflexivity | ].
  rewrite with_membership_add, with_membership_remove, Hadd, Hrem.
  unfold current_members. rewrite Hrt, Hdom. cbn [app].
  assert (list_to_set ["b"; "c"] ∖ ({[ "a"; "b" ]} : gset string) = {[ "c" ]}) as ->.
  { apply set_eq. intros x. rewrite elem_of_difference, elem_of_list_to_set.
    rewrite !elem_of_cons, elem_of_nil, elem_of_union, !elem_of_singleton.
    split; [ | intros ->; split; [auto | intros [? | ?]; done] ].
    intros [[-> | [-> | []]] Hn]; [ | done]. exfalso. apply Hn. auto. }
  assert (({[ "a"; "b" ]} : gset string) ∖ list_to_set ["b"; "c"] = {[ "a" ]}) as ->.
  { apply set_eq. intros x. rewrite elem_of_difference, elem_of_list_to_set.
    rewrite !elem_of_cons, elem_of_nil, elem_of_union, !elem_of_singleton.
    split; [ | intros ->; split; [auto | intros [? | [? | []]]; done] ].
    intros [[-> | ->] Hn]; [done | ]. exfalso. apply Hn. auto. }
  pose proof (iterate_perm order "T" {[ "c" ]}) as Hc.
  pose proof (iterate_perm order "T" {[ "a" ]}) as Ha.
  rewrite elements_singleton in Hc, Ha.
  apply Permutation_singleton_r in Hc, Ha. rewrite Hc, Ha. done.
Qed.

(** ** Loops *)

Lemma for_each_inv {A S} (P : S → World → Prop) (l : list A) (body : A → S → M S) :
  (∀ x st w, x ∈ l → P st w → ∃ st' w', body x st w = (Ok st', w') ∧ P st' w') →
  ∀ st w, P st w → ∃ st' w', for_each l body st w = (Ok st', w') ∧ P st' w'.
Proof.
  induction l as [|x l IH]; intros Hbody st w HP.
  - exists st, w. done.
  - cbn [for_each]. rewrite bind_run.
    destruct (Hbody x st w) as (st1 & w1 & -> & HP1); [by left | done | ].
    apply IH; [ | done]. intros y st' w' Hy. apply Hbody. by right.
Qed.

(** ** Repository permissions *)

(** C6: the permission translation maps read to pull and write to push, and
    leaves admin, maintain and triage as they are. *)
Theorem translate_permission_table :
  translate_permission "read" = "pull"
  ∧ translate_permission "write" = "push"
  ∧ translate_permission "admin" = "admin"
  ∧ translate_permission "maintain" = "maintain"
  ∧ translate_permission "triage" = "triage".
Proof. unfold translate_permission. repeat split; by repeat case_decide. Qed.

(** C7: for a repository that the lookup does not find, the repository diff
    returns at once, after that one lookup and no other call, a ChangeSet
    with exactly one error entry and no add, update or remove entry. *)
Theorem repository_not_found (repo : string) (team_permissions : PyDict.t string)
    (dry_run : bool) (w : World) :
  org_repos (org w) !! repo = None →
  ∃ changes,
    process_repository_permissions repo team_permissions dry_run w
    = (Ok changes, add_calls w [GetRepo repo])
    ∧ dd_get "error" changes = ["Repository " +:+ repo +:+ " not found"]
    ∧ dd_get "add" changes = []
    ∧ dd_get "update" changes = []
    ∧ dd_get "remove" changes = [].
Proof.
  intros Hrepo.
  unfold process_repository_permissions, try_except, get_repo, mbind, M_bind, mret, M_ret,
    call, get_org, raise, add_calls.
  cbn. rewrite Hrepo. cbn. eexists. split; [reflexivity | ].
  rewrite dd_get_append_eq, !dd_get_append_ne, !dd_get_nil by done. done.
Qed.

Lemma grant_step_run repo repo_name current dry t l changes w :
  grant_step repo repo_name current dry (t, l) changes w
  = match org_teams (org w) !! t with
    | None =>
        (Ok (dd_append "error"
               ("Error processing team " +:+ t +:+ " for " +:+ repo_name +:+ ": "
                +:+ exn_str (UnknownObject t)) changes),
         add_calls w [GetTeamBySlug t])
    | Some _ =>
        let changes' := grant_entry repo_name current t l changes in
        if dry then (Ok changes', add_calls w [GetTeamBySlug t])
        else
          let calls := [GetTeamBySlug t; UpdateTeamRepository t repo (translate_permission l)] in
          match org_repos (org w) !! repo with
          | Some grants =>
              (Ok changes',
               {| org := set_repo repo (PyDict.set t (translate_permission l) grants) (org w);
                  trace := trace w ++ calls;
                  stdout := stdout w ++ ["Set team " +:+ t +:+ " permission on " +:+ repo_name
                                         +:+ " to " +:+ l];
                  stdin := stdin w |})
          | None =>
              (Ok (dd_append "error"
                     ("Error processing team " +:+ t +:+ " for " +:+ repo_name +:+ ": "
                      +:+ exn_str (UnknownObject repo)) changes'),
               add_calls w calls)
          end
    end.
Proof.
  unfold grant_step, try_except, get_team_by_slug, update_team_repository, set_org, print,
    mbind, M_bind, mret, M_ret, call, get_org, raise, add_calls.
  cbn. destruct (org_teams (org w) !! t) as [rt|]; cbn; [ | done].
  destruct dry; cbn; [done | ].
  destruct (org_repos (org w) !! repo) as [grants|]; cbn; by rewrite <- app_assoc.
Qed.

Lemma revoke_step_run repo repo_name perms dry t changes w :
  revoke_step repo repo_name perms dry t changes w
  = if PyDict.mem t perms then (Ok changes, w)
    else
      let changes' := dd_append "remove"
                        ("Would remove team " +:+ t +:+ " from " +:+ repo_name) changes in
      if dry then (Ok changes', w)
      else
        match org_teams (org w) !! t with
        | None => (Raise (UnknownObject t), add_calls w [GetTeamBySlug t])
        | Some _ =>
            let calls := [GetTeamBySlug t; RemoveFromRepo t repo] in
            match org_repos (org w) !! repo with
            | Some grants =>
                (Ok changes',
                 {| org := set_repo repo (filter (λ g, g.1 ≠ t) grants) (org w);
                    trace := trace w ++ calls;
                    stdout := stdout w ++ ["Removed team " +:+ t +:+ " from " +:+ repo_name];
                    stdin := stdin w |})
            | None => (Raise (UnknownObject repo), add_calls w calls)
            end
        end.
Proof.
  unfold revoke_step, try_except, get_team_by_slug, remove_from_repo, set_org, print,
    mbind, M_bind, mret, M_ret, call, get_org, raise, add_calls.
  destruct (PyDict.mem t perms); [done | ].
  cbn. destruct dry; cbn; [done | ].
  destruct (org_teams (org w) !! t) as [rt|]; cbn; [ | done].
  destruct (org_repos (org w) !! repo) as [grants|]; cbn; by rewrite <- app_assoc.
Qed.

Lemma process_repository_permissions_found repo perms dry w grants :
  org_repos (org w) !! repo = Some grants →
  process_repository_permissions repo perms dry w
  = (changes ← for_each perms
                 (grant_step repo repo (PyDict.comprehension fst snd grants) dry) [];
     for_each (PyDict.keys (PyDict.comprehension fst snd grants))
       (revoke_step repo repo perms dry) changes)
      (add_calls w [GetRepo repo; GetTeams repo]).
Proof.
  intros Hrepo.
  unfold process_repository_permissions, try_except, get_repo, get_teams, mbind, M_bind,
    mret, M_ret, call, get_org, raise, add_calls.
  cbn. rewrite Hrepo. cbn. rewrite Hrepo. cbn. by rewrite <- app_assoc.
Qed.

(** ** Diffs of entities that are in sync *)

Lemma team_diff_in_sync order team dry w :
  team_in_sync (org w) team →
  ∃ changes w',
    create_or_update_team order (name team) (get_list (maintainers team))
      (get_list (members team)) (parent team) dry w = (Ok changes, w')
    ∧ dd_get "add" changes = []
    ∧ dd_get "remove" changes = []
    ∧ dd_get "update" changes = ["Would update existing team: " +:+ name team].
Proof.
  intros (rt & Hrt & Hpriv & Hparent & Hdom & Hpexists).
  assert (∀ X : gset string, iterate order (name team) (X ∖ X) = []) as Hempty.
  { intros X. apply Permutation_nil_r. rewrite iterate_perm.
    replace (X ∖ X) with (∅ : gset string) by set_solver. by rewrite elements_empty. }
  unfold create_or_update_team, try_except, get_team_by_slug, get_members, mbind, M_bind,
    mret, M_ret, call, get_org, raise.
  cbn. rewrite Hrt. cbn. rewrite Hpriv. rewrite (decide_False (P := "closed" ≠ "closed")) by auto.
  destruct dry; cbn.
  - rewrite Hrt. cbn. rewrite Hdom, Hempty. cbn. eexists _, _. split; [reflexivity | ].
    by rewrite (dd_get_append_eq "update"), !dd_get_append_ne, !dd_get_nil.
  - rewrite <- Hparent. destruct (team_parent rt) as [p|] eqn:Hp; cbn.
    + destruct (Hpexists p eq_refl) as [rtp Hrtp]. rewrite Hrtp. cbn.
      rewrite (decide_False (P := Some p ≠ Some p)) by auto. cbn.
      rewrite Hrt. cbn. rewrite Hdom, Hempty. cbn. eexists _, _. split; [reflexivity | ].
      rewrite !(decide_False (P := "closed" ≠ "closed")) by auto.
      by rewrite (dd_get_append_eq "update"), !dd_get_append_ne, !dd_get_nil.
    + rewrite Hrt. cbn. rewrite Hdom, Hempty. cbn. eexists _, _. split; [reflexivity | ].
      rewrite !(decide_False (P := "closed" ≠ "closed")) by auto.
      by rewrite (dd_get_append_eq "update"), !dd_get_append_ne, !dd_get_nil.
Qed.

Lemma repo_diff_in_sync repo perms dry w :
  repo_in_sync (org w) repo perms →
  ∃ changes w',
    process_repository_permissions repo perms dry w = (Ok changes, w')
    ∧ dd_get "add" changes = []
    ∧ dd_get "update" changes = []
    ∧ dd_get "remove" changes = [].
Proof.
  intros (grants & Hrepo & Hgranted & Hdesired).
  rewrite (process_repository_permissions_found repo perms dry w grants Hrepo), bind_run.
  set (clean := λ (changes : ChangeSet) (_ : World),
         dd_get "add" changes = [] ∧ dd_get "update" changes = []
         ∧ dd_get "remove" changes = []).
  destruct (for_each_inv clean perms
              (grant_step repo repo (PyDict.comprehension fst snd grants) dry))
    with (st := ([] : ChangeSet)) (w := add_calls w [GetRepo repo; GetTeams repo])
    as (changes1 & w1 & -> & Hclean1).
  - intros [t l] changes w0 Hin (Ha & Hu & Hr). rewrite grant_step_run.
    assert (grant_entry repo (PyDict.comprehension fst snd grants) t l changes = changes)
      as Hentry.
    { unfold grant_entry. rewrite (Hgranted t l Hin). by rewrite decide_False by auto. }
    cbn zeta. rewrite Hentry.
    destruct (org_teams (org w0) !! t); [destruct dry | ];
      [ | destruct (org_repos (org w0) !! repo) | ];
      (eexists _, _; split; [reflexivity | ]); unfold clean;
      by rewrite ?dd_get_append_ne.
  - done.
  - apply (for_each_inv clean); [ | done].
    intros t changes w0 Hin Hclean. rewrite revoke_step_run.
    apply Hdesired, PyDictFacts.get_Some_keys in Hin as [l Hl].
    unfold PyDict.mem. rewrite Hl. eauto.
Qed.

(** C2, as amended: when the desired state of a team is its remote state,
    the team diff has no add and no remove entry, and its update category
    holds exactly the entry that announces the existing team; when the
    desired grants of a repository are the remote ones, the repository diff
    has no add, no update and no remove entry. *)
Theorem diff_in_sync (order : SetOrder) (dry_run : bool) (w : World) :
  (∀ team,
      team_in_sync (org w) team →
      ∃ changes w',
        create_or_update_team order (name team) (get_list (maintainers team))
          (get_list (members team)) (parent team) dry_run w = (Ok changes, w')
        ∧ dd_get "add" changes = []
        ∧ dd_get "remove" changes = []
        ∧ dd_get "update" changes = ["Would update existing team: " +:+ name team])
  ∧ (∀ repo team_permissions,
        repo_in_sync (org w) repo team_permissions →
        ∃ changes w',
          process_repository_permissions repo team_permissions dry_run w = (Ok changes, w')
          ∧ dd_get "add" changes = []
          ∧ dd_get "update" changes = []
          ∧ dd_get "remove" changes = []).
Proof.
  split.
  - intros team. apply team_diff_in_sync.
  - intros repo perms. apply repo_diff_in_sync.
Qed.

(** ** The sweep *)

Lemma sweep_step_run u s spec w :
  sweep_step u (s, spec) tt w
  = if decide ((u ∉ get_list (maintainers spec)) ∧ (u ∉ get_list (members spec)))
    then
      match org_teams (org w) !! s with
      | None => (Ok tt, add_lines (add_calls w [GetTeamBySlug s]) [sweep_failure u s])
      | Some rt =>
          if decide (u ∈ org_users (org w))
          then
            if bool_decide (u ∈ dom (team_members rt))
            then
              (Ok tt,
               {| org := set_team s (revoke u rt) (org w);
                  trace := trace w ++ [GetTeamBySlug s; GetUser u; HasInMembers s u;
                                       GetUser u; RemoveMembership s u];
                  stdout := stdout w ++ ["Removed current user " +:+ u +:+ " from " +:+ s];
                  stdin := stdin w |})
            else (Ok tt, add_calls w [GetTeamBySlug s; GetUser u; HasInMembers s u])
          else (Ok tt, add_lines (add_calls w [GetTeamBySlug s; GetUser u]) [sweep_failure u s])
      end
    else (Ok tt, w).
Proof.
  unfold sweep_step, try_except, get_team_by_slug, get_user, has_in_members,
    remove_membership, update_remote_team, set_org, print, mbind, M_bind, mret, M_ret, call,
    get_org, raise, add_calls, add_lines, revoke.
  case_decide; [ | done].
  cbn. destruct (org_teams (org w) !! s) as [rt|] eqn:Hs; cbn; [ | done].
  case_decide; cbn; [ | by rewrite <- app_assoc].
  rewrite Hs. cbn. destruct (bool_decide (u ∈ dom (team_members rt))); cbn.
  - rewrite decide_True by done. cbn. rewrite Hs. cbn. by rewrite <- !app_assoc.
  - by rewrite <- !app_assoc.
Qed.

Lemma swept_refl u o : swept u o o.
Proof. split; [done | ]. intros s. by left. Qed.

Lemma revoke_idemp u rt : revoke u (revoke u rt) = revoke u rt.
Proof. unfold revoke. simpl. f_equal. apply delete_delete_eq. Qed.

Lemma swept_trans u o1 o2 o3 : swept u o1 o2 → swept u o2 o3 → swept u o1 o3.
Proof.
  intros [Hu1 H1] [Hu2 H2]. split; [congruence | ]. intros s.
  destruct (H1 s) as [E1 | (rt1 & E1 & E1')], (H2 s) as [E2 | (rt2 & E2 & E2')].
  - left. congruence.
  - right. exists rt2. split; congruence.
  - right. exists rt1. split; congruence.
  - right. exists rt1. split; [done | ]. rewrite E2'.
    assert (rt2 = revoke u rt1) as -> by congruence. by rewrite revoke_idemp.
Qed.

Lemma swept_members u o o' s :
  swept u o o' →
  current_members o' s = current_members o s
  ∨ current_members o' s = current_members o s ∖ {[u]}.
Proof.
  intros [_ H]. unfold current_members.
  destruct (H s) as [-> | (rt & -> & ->)]; [by left | right].
  simpl. apply dom_delete_L.
Qed.

Lemma swept_step u s rt o :
  org_teams o !! s = Some rt → swept u o (set_team s (revoke u rt) o).
Proof.
  intros Hs. split; [done | ]. intros s'. simpl.
  destruct (decide (s = s')) as [<- | Hne].
  - right. exists rt. by rewrite lookup_insert_eq.
  - left. by rewrite lookup_insert_ne.
Qed.

Lemma sweep_step_spec u s spec w :
  ∃ w1,
    sweep_step u (s, spec) tt w = (Ok tt, w1)
    ∧ swept u (org w) (org w1)
    ∧ (∃ lines, stdout w1 = stdout w ++ lines)
    ∧ (¬ listed u spec →
         (u ∈ org_users (org w) → u ∉ current_members (org w1) s)
         ∧ (org_teams (org w) !! s = None ∨ u ∉ org_users (org w) →
              sweep_failure u s ∈ stdout w1))
    ∧ (listed u spec → org w1 = org w)
    ∧ (∀ s', s' ≠ s → org_teams (org w1) !! s' = org_teams (org w) !! s').
Proof.
  rewrite sweep_step_run. unfold listed. case_decide as Hl.
  - destruct (org_teams (org w) !! s) as [rt|] eqn:Hs.
    + case_decide as Hu.
      * destruct (bool_decide (u ∈ dom (team_members rt))) eqn:Hm.
        -- eexists. split; [reflexivity | ]. cbn.
           split_and!; [by apply swept_step | eauto | | tauto | ].
           ++ intros _. split; [ | intros [? | ?]; done].
              intros _. unfold current_members. cbn. rewrite lookup_insert_eq. cbn.
              rewrite dom_delete_L. set_solver.
           ++ intros s' Hne. by rewrite lookup_insert_ne.
        -- eexists. split; [reflexivity | ]. cbn.
           split_and!; [apply swept_refl | exists []; by rewrite app_nil_r | | tauto | done].
           intros _. split; [ | intros [? | ?]; done].
           intros _. unfold current_members. rewrite Hs.
           by apply bool_decide_eq_false in Hm.
      * eexists. split; [reflexivity | ]. cbn.
        split_and!; [apply swept_refl | eauto | | tauto | done].
        intros _. split; [done | ]. intros _. set_solver.
    + eexists. split; [reflexivity | ]. cbn.
      split_and!; [apply swept_refl | eauto | | tauto | done].
      intros _. split; [ | intros _; set_solver].
      intros _. unfold current_members. rewrite Hs. set_solver.
  - eexists. split; [reflexivity | ].
    split_and!; [apply swept_refl | exists []; by rewrite app_nil_r | | done | done].
    intros Hn. exfalso. apply Hl. split; intros ?; apply Hn; auto.
Qed.

Lemma sweep_run u : ∀ teams_dict w,
  ∃ w',
    for_each teams_dict (sweep_step u) tt w = (Ok tt, w')
    ∧ swept u (org w) (org w')
    ∧ (∃ lines, stdout w' = stdout w ++ lines)
    ∧ (∀ s spec, (s, spec) ∈ teams_dict → ¬ listed u spec →
         (u ∈ org_users (org w) → u ∉ current_members (org w') s)
         ∧ (org_teams (org w) !! s = None ∨ u ∉ org_users (org w) →
              sweep_failure u s ∈ stdout w'))
    ∧ (∀ s, (∀ spec, (s, spec) ∈ teams_dict → listed u spec) →
         org_teams (org w') !! s = org_teams (org w) !! s).
Proof.
  induction teams_dict as [|[s0 spec0] d IH]; intros w.
  - exists w. split_and!; [done | apply swept_refl | exists []; by rewrite app_nil_r | | done].
    intros s spec ?%elem_of_nil. done.
  - cbn [for_each]. rewrite bind_run.
    destruct (sweep_step_spec u s0 spec0 w)
      as (w1 & -> & Hsw1 & [l1 Hl1] & Hun1 & Hli1 & Hother1).
    destruct (IH w1) as (w' & Hrun & Hsw & [l2 Hl2] & Hun & Hli).
    exists w'. split_and!; [done | by eapply swept_trans | | | ].
    + exists (l1 ++ l2). by rewrite Hl2, Hl1, app_assoc.
    + intros s spec [[= -> ->] | Hin]%elem_of_cons Hnl.
      * destruct (Hun1 Hnl) as [Hrev Hfail]. split.
        -- intros Hu%Hrev. destruct (swept_members u (org w1) (org w') s0 Hsw) as [-> | ->];
             set_solver.
        -- intros Hf%Hfail. rewrite Hl2. set_solver.
      * destruct (Hun s spec Hin Hnl) as [Hrev Hfail]. destruct Hsw1 as [Husers Hteams].
        split.
        -- intros Hu. apply Hrev. by rewrite Husers.
        -- intros Hf. apply Hfail. rewrite Husers.
           destruct Hf as [Hnone | ?]; [left | by right].
           destruct (Hteams s) as [-> | (rt & E & _)]; congruence.
    + intros s Hall. rewrite Hli.
      * destruct (decide (listed u spec0)) as [Hl0 | Hn0]; [by rewrite (Hli1 Hl0) | ].
        apply Hother1. intros ->. apply Hn0, Hall. by left.
      * intros spec Hin. apply Hall. by right.
Qed.

(** C8: the sweep always returns. For every configured team that does not
    list the current identity among its maintainers or members, the identity
    is no longer a member of the remote team afterwards; a team or an
    identity that cannot be looked up is reported and the sweep goes on with
    the remaining teams. Teams that list the identity are left as they were,
    and no membership other than the identity's is changed. *)
Theorem sweep_unlisted_current_user (teams_dict : PyDict.t TeamSpec) (user : string)
    (w : World) :
  ∃ w',
    remove_current_user_from_teams teams_dict user w = (Ok tt, w')
    ∧ (∀ s spec, (s, spec) ∈ teams_dict → ¬ listed user spec →
         (user ∈ org_users (org w) → user ∉ current_members (org w') s)
         ∧ (org_teams (org w) !! s = None ∨ user ∉ org_users (org w) →
              sweep_failure user s ∈ stdout w'))
    ∧ (∀ s, (∀ spec, (s, spec) ∈ teams_dict → listed user spec) →
         org_teams (org w') !! s = org_teams (org w) !! s)
    ∧ swept user (org w) (org w').
Proof.
  destruct (sweep_run user teams_dict w) as (w' & Hrun & Hsw & _ & Hun & Hli).
  exists w'. done.
Qed.

(** ** The live repository pass *)

Lemma mem_keys {V} k (d : PyDict.t V) : PyDict.mem k d = true ↔ k ∈ PyDict.keys d.
Proof.
  rewrite <- PyDictFacts.get_Some_keys. unfold PyDict.mem.
  destruct (PyDict.get k d); split; try done; eauto.
Qed.

Lemma grant_calls_app c1 c2 : grant_calls (c1 ++ c2) = grant_calls c1 ++ grant_calls c2.
Proof. apply omap_app. Qed.

Lemma revoke_calls_app c1 c2 : revoke_calls (c1 ++ c2) = revoke_calls c1 ++ revoke_calls c2.
Proof. apply omap_app. Qed.

Lemma grant_loop repo current (T : gmap string RemoteTeam) : ∀ perms changes w,
  org_teams (org w) = T → is_Some (org_repos (org w) !! repo) →
  ∃ changes' w' calls,
    for_each perms (grant_step repo repo current false) changes w = (Ok changes', w')
    ∧ trace w' = trace w ++ calls
    ∧ org_teams (org w') = T
    ∧ is_Some (org_repos (org w') !! repo)
    ∧ grant_calls calls
      = map (λ pair, (pair.1, repo, translate_permission pair.2))
          (filter (λ pair, is_Some (T !! pair.1)) perms)
    ∧ revoke_calls calls = [].
Proof.
  induction perms as [|[t l] perms IH]; intros changes w HT Hrepo.
  - exists changes, w, []. by rewrite app_nil_r.
  - pose proof (grant_step_run repo repo current false t l changes w) as Hstep.
    rewrite HT in Hstep. cbn [for_each]. rewrite bind_run.
    destruct (T !! t) as [rt|] eqn:Ht; cbn zeta in Hstep.
    + destruct Hrepo as [grants Hgrants]. rewrite Hgrants in Hstep. rewrite Hstep. clear Hstep.
      edestruct IH as (changes' & w' & calls & -> & Htrace & HT' & Hrepo' & Hg & Hr);
        [ | | eexists _, _, (_ ++ _); split; [reflexivity | ] ].
      * done.
      * cbn. rewrite lookup_insert_eq. eauto.
      * rewrite Htrace. cbn [trace]. rewrite <- app_assoc.
        split_and!; [reflexivity | done | done | | ].
        -- rewrite filter_cons_True by (cbn; rewrite Ht; eauto).
           rewrite grant_calls_app, Hg. done.
        -- rewrite revoke_calls_app, Hr. done.
    + rewrite Hstep. clear Hstep.
      edestruct IH as (changes' & w' & calls & -> & Htrace & HT' & Hrepo' & Hg & Hr);
        [ | | eexists _, _, (_ ++ _); split; [reflexivity | ] ].
      * done.
      * done.
      * rewrite Htrace. cbn [trace add_calls]. rewrite <- app_assoc.
        split_and!; [reflexivity | done | done | | ].
        -- rewrite filter_cons_False by (cbn; rewrite Ht; by intros [? ?]).
           rewrite grant_calls_app, Hg. done.
        -- rewrite revoke_calls_app, Hr. done.
Qed.

Lemma revoke_loop repo perms (T : gmap string RemoteTeam) : ∀ ks changes w,
  org_teams (org w) = T → is_Some (org_repos (org w) !! repo) →
  ∃ r w' calls,
    for_each ks (revoke_step repo repo perms false) changes w = (r, w')
    ∧ trace w' = trace w ++ calls
    ∧ grant_calls calls = []
    ∧ revoke_calls calls `prefix_of` expected_revocations repo perms ks
    ∧ (∀ changes', r = Ok changes' → revoke_calls calls = expected_revocations repo perms ks).
Proof.
  unfold expected_revocations.
  induction ks as [|t ks IH]; intros changes w HT Hrepo.
  - exists (Ok changes), w, []. by rewrite app_nil_r.
  - pose proof (revoke_step_run repo repo perms false t changes w) as Hstep.
    rewrite HT in Hstep. cbn [for_each]. rewrite bind_run.
    destruct (PyDict.mem t perms) eqn:Hmem.
    + rewrite Hstep. rewrite filter_cons_False by (intros Hn; by apply Hn, mem_keys).
      by apply IH.
    + assert (t ∉ PyDict.keys perms) as Hout.
      { intros Hin%mem_keys. congruence. }
      rewrite filter_cons_True by done. cbn zeta in Hstep.
      destruct (T !! t) as [rt|] eqn:Ht; [ | rewrite Hstep; clear Hstep].
      * destruct Hrepo as [grants Hgrants]. rewrite Hgrants in Hstep.
        rewrite Hstep. clear Hstep.
        edestruct IH as (r & w' & calls & -> & Htrace & Hg & Hpre & Hfull);
          [ | | eexists _, _, (_ ++ _); split; [reflexivity | ] ].
        -- done.
        -- cbn. rewrite lookup_insert_eq. eauto.
        -- rewrite Htrace. cbn [trace]. rewrite <- app_assoc.
           split_and!; [reflexivity | by rewrite grant_calls_app, Hg | | ].
           ++ rewrite revoke_calls_app. cbn. by apply prefix_cons.
           ++ intros changes' Hr. rewrite revoke_calls_app, (Hfull changes' Hr). done.
      * eexists _, _, [GetTeamBySlug t]. split; [reflexivity | ].
        split_and!; [done | done | apply prefix_nil | done].
Qed.

(** The error entries of the live loop over the desired pairs: one, in
    order, for every pair whose team cannot be looked up. *)
Lemma grant_loop_errors repo current (T : gmap string RemoteTeam) :
  ∀ perms changes w changes' w',
  org_teams (org w) = T → is_Some (org_repos (org w) !! repo) →
  for_each perms (grant_step repo repo current false) changes w = (Ok changes', w') →
  dd_get "error" changes'
  = dd_get "error" changes
    ++ map (error_message repo) (filter (λ pair, T !! pair.1 = None) perms).
Proof.
  induction perms as [|[t l] perms IH]; intros changes w changes' w' HT Hrepo Hrun.
  - cbn in Hrun. injection Hrun as <- <-. cbn. by rewrite app_nil_r.
  - pose proof (grant_step_run repo repo current false t l changes w) as Hstep.
    rewrite HT in Hstep. cbn [for_each] in Hrun. rewrite bind_run in Hrun.
    destruct (T !! t) as [rt|] eqn:Ht; cbn zeta in Hstep.
    + destruct Hrepo as [grants Hgrants]. rewrite Hgrants in Hstep.
      rewrite Hstep in Hrun. cbv beta iota in Hrun.
      apply IH in Hrun; [ | done | cbn; rewrite lookup_insert_eq; eauto].
      rewrite Hrun, filter_cons_False by (cbn; congruence).
      f_equal. unfold grant_entry.
      destruct (PyDict.get t current); [case_decide | ]; by rewrite ?dd_get_append_ne.
    + rewrite Hstep in Hrun. cbv beta iota in Hrun.
      apply IH in Hrun; [ | done | done].
      rewrite Hrun, filter_cons_True by done.
      rewrite dd_get_append_eq. cbn [map]. by rewrite <- app_assoc.
Qed.

(** The live loop over the current grants records no error entry. *)
Lemma revoke_loop_errors repo perms : ∀ ks changes w changes' w',
  for_each ks (revoke_step repo repo perms false) changes w = (Ok changes', w') →
  dd_get "error" changes' = dd_get "error" changes.
Proof.
  induction ks as [|t ks IH]; intros changes w changes' w' Hrun.
  - cbn in Hrun. by injection Hrun as <- <-.
  - cbn [for_each] in Hrun. rewrite bind_run, revoke_step_run in Hrun.
    destruct (PyDict.mem t perms); [by apply IH in Hrun | ].
    cbn zeta in Hrun.
    destruct (org_teams (org w) !! t); [ | discriminate Hrun].
    destruct (org_repos (org w) !! repo); [ | discriminate Hrun].
    apply IH in Hrun. by rewrite Hrun, dd_get_append_ne.
Qed.

(** C10, as amended: in live mode, for a repository that exists, the pass
    issues one grant-update call, in order, for every pair of the desired
    mapping whose team can be looked up, whatever the current permission of
    the team and whether or not an add or update entry was recorded for it;
    a pair whose team cannot be looked up gets no call and, in the diff the
    pass returns, an error entry, these entries being in the order of the
    pairs. Every revocation call the pass issues is for a current grant
    whose team is not a key of the desired mapping, and when the pass
    returns it has issued one for every such grant. *)
Theorem live_repository_pass (repo : string) (team_permissions : PyDict.t string)
    (w : World) (grants : list (string * string)) :
  org_repos (org w) !! repo = Some grants →
  ∃ r w' calls,
    process_repository_permissions repo team_permissions false w = (r, w')
    ∧ trace w' = trace w ++ calls
    ∧ grant_calls calls = expected_grants (org w) repo team_permissions
    ∧ revoke_calls calls
        `prefix_of` expected_revocations repo team_permissions
                      (PyDict.keys (PyDict.comprehension fst snd grants))
    ∧ (∀ changes, r = Ok changes →
         revoke_calls calls
         = expected_revocations repo team_permissions
             (PyDict.keys (PyDict.comprehension fst snd grants)))
    ∧ (∀ changes, r = Ok changes →
         Forall2 (λ entry pair,
                    ∃ text, entry = "Error processing team " +:+ pair.1 +:+ " for "
                                    +:+ repo +:+ ": " +:+ text)
           (dd_get "error" changes)
           (filter (λ pair, org_teams (org w) !! pair.1 = None) team_permissions)).
Proof.
  intros Hrepo.
  rewrite (process_repository_permissions_found repo team_permissions false w grants Hrepo).
  rewrite bind_run.
  destruct (grant_loop repo (PyDict.comprehension fst snd grants) (org_teams (org w))
              team_permissions [] (add_calls w [GetRepo repo; GetTeams repo]))
    as (changes1 & w1 & calls1 & Hrun1 & Htrace1 & HT1 & Hrepo1 & Hg1 & Hr1);
    [done | by eexists | ].
  rewrite Hrun1.
  destruct (revoke_loop repo team_permissions (org_teams (org w))
              (PyDict.keys (PyDict.comprehension fst snd grants)) changes1 w1)
    as (r & w' & calls2 & Hrun2 & Htrace2 & Hg2 & Hpre & Hfull); [done | done | ].
  rewrite Hrun2.
  exists r, w', ([GetRepo repo; GetTeams repo] ++ calls1 ++ calls2).
  split_and!; [done | | | | | ].
  - rewrite Htrace2, Htrace1. cbn [trace add_calls]. by rewrite <- !app_assoc.
  - rewrite !grant_calls_app, Hg1, Hg2. cbn. by rewrite app_nil_r.
  - rewrite !revoke_calls_app, Hr1. done.
  - intros changes Hr. rewrite !revoke_calls_app, Hr1. by apply (Hfull changes).
  - intros changes ->.
    apply revoke_loop_errors in Hrun2.
    apply (grant_loop_errors repo _ (org_teams (org w))) in Hrun1; [ | done | by eexists].
    rewrite Hrun2, Hrun1, dd_get_nil. cbn [app].
    apply Forall2_fmap_l, Forall_Forall2_diag, Forall_forall.
    intros pair _. by eexists.
Qed.

(** ** The second phase of the teams mode *)

Lemma quiet_refl w : quiet w w.
Proof. split; [done | ]. exists []. by rewrite app_nil_r. Qed.

Lemma quiet_trans w1 w2 w3 : quiet w1 w2 → quiet w2 w3 → quiet w1 w3.
Proof.
  intros [Ho1 (c1 & Ht1 & Hc1)] [Ho2 (c2 & Ht2 & Hc2)]. split; [congruence | ].
  exists (c1 ++ c2). rewrite Ht2, Ht1, app_assoc. split; [done | ]. by apply Forall_app.
Qed.

Lemma quiet_add_calls w calls :
  Forall (λ c, is_mutating c = false) calls → quiet w (add_calls w calls).
Proof. intros H. split; [done | ]. by exists calls. Qed.

(** The team differ makes no mutating call, in live mode as in a dry run. *)
Lemma create_or_update_team_quiet order n Ms Ns p dry w :
  quiet w (create_or_update_team order n Ms Ns p dry w).2.
Proof.
  destruct (create_or_update_team_cases order n Ms Ns p dry w)
    as [(head & calls & -> & _ & _ & Hcalls) | (_ & p' & _ & _ & _ & ->)]; cbn [snd].
  - by apply quiet_add_calls.
  - apply quiet_add_calls. by repeat constructor.
Qed.

(** The loop that follows the confirmation only reads: whatever the
    configuration and the remote state, it leaves the organisation as it was
    and makes no mutating call. *)
Lemma teams_phase2_quiet order teams_dict : ∀ to_process w,
  quiet w (teams_phase2 order teams_dict to_process w).2.
Proof.
  unfold teams_phase2.
  induction to_process as [|n l IH]; intros w; [apply quiet_refl | ].
  cbn [for_each]. rewrite bind_run. unfold teams_phase2_step at 1, getitem.
  destruct (PyDict.get n teams_dict) as [team|]; [ | apply quiet_refl].
  rewrite bind_run. cbn [mret M_ret]. rewrite bind_run.
  pose proof (create_or_update_team_quiet order n (get_list (maintainers team))
                (get_list (members team)) (parent team) false w) as Hq.
  destruct (create_or_update_team order n (get_list (maintainers team))
              (get_list (members team)) (parent team) false w) as [[changes | e | ] w1];
    cbn [snd] in *; [ | done | done].
  eapply quiet_trans; [exact Hq | apply IH].
Qed.

(** C1: in teams mode, with the team t, maintained by alice, configured and
    no team in the remote organisation, the confirmed live run ends normally
    and has made no mutating call: the organisation is as it was, t does not
    exist, and alice is a member of no team. The call of the applier, which
    the program defines, is missing from the second phase. *)
Theorem phase2_issues_no_mutation :
  let '(r, w') := main elements_order 0 live_teams_args one_team_config
                    (world_of empty_org ["yes"]) in
  r = Ok tt
  ∧ org w' = empty_org
  ∧ org_teams (org w') !! "t" = None
  ∧ Forall (λ c, is_mutating c = false) (trace w')
  ∧ team_lookups (trace w') = ["t"; "t"; "t"].
Proof.
  vm_compute. split_and!; [reflexivity | reflexivity | reflexivity | | reflexivity].
  repeat constructor.
Qed.

(** The applier, called with the diff of the same team, creates the team
    and grants alice the membership. *)
Lemma apply_changes_creates :
  let w := world_of empty_org [] in
  let '(r, w1) := create_or_update_team elements_order "t" ["alice"] [] None true w in
  match r with
  | Ok changes =>
      let '(r', w') := apply_changes "t" ["alice"] [] None changes w1 in
      r' = Ok tt
      ∧ filter (λ c, is_mutating c = true) (trace w')
        = [CreateTeam "t" "closed"; AddMembership "t" "alice" "maintainer"]
      ∧ current_members (org w') "t" = {[ "alice"; "me" ]}
  | _ => False
  end.
Proof. vm_compute. split_and!; reflexivity. Qed.

(** ** Dangling parents *)

(** C9, as amended: when some team names a parent that is not a configured
    team, the full ordering of an untargeted run raises a key error for such
    a name while it builds the adjacency structure; the run ends with that
    error before any team is looked up remotely. *)
Theorem dangling_parent_fails_ordering (order : SetOrder) (fuel : nat) (args : Args)
    (config : Config) (w : World) :
  dangling (config_teams config) →
  args_mode args = "teams" →
  truthy (args_target args) = None →
  ∃ p,
    (p ∉ map name (config_teams config))
    ∧ topological_sort order (config_teams config) = Raise (KeyError p)
    ∧ main order fuel args config w
      = (Raise (KeyError p),
         add_calls w [GetAuthenticatedUser; GetOrganization "open-telemetry"]).
Proof.
  intros Hdangling Hmode Htarget.
  destruct (topological_sort_dangling order (config_teams config) Hdangling) as (p & Hsort & Hp).
  exists p. split_and!; [done | done | ].
  unfold main. rewrite bind_run, call_run. cbv beta iota.
  rewrite bind_run. unfold get_org at 1. cbv beta iota.
  rewrite bind_run, call_run. cbv beta iota.
  rewrite decide_True by done.
  unfold main_teams. rewrite bind_run. unfold teams_to_process.
  rewrite Htarget. unfold lift. rewrite Hsort. by rewrite add_calls_app.
Qed.

(** ** The properties at the sample inputs *)

Lemma sample_teams_forest : forest sample_teams.
Proof.
  apply (forest_intro sample_rank).
  - apply (bool_decide_unpack (NoDup (map name sample_teams))). vm_compute. exact I.
  - unfold sample_teams.
    repeat (constructor;
            [cbn; intros p Hp;
             first [discriminate Hp
                   | injection Hp as <-; split; [set_solver | vm_compute; lia] ] | ]).
    constructor.
Qed.

Lemma topological_sort_forest_witness :
  forest sample_teams
  ∧ ∃ result,
      topological_sort elements_order sample_teams = Ok result
      ∧ result ≡ₚ map name sample_teams
      ∧ ∀ a x, ancestor sample_teams a x → precedes result a x.
Proof.
  split; [exact sample_teams_forest | ].
  apply (topological_sort_forest elements_order sample_teams). exact sample_teams_forest.
Defined.

Lemma dangling_teams_dangling : dangling dangling_teams.
Proof.
  exists (sample_team "a" (Some "ghost")), "ghost".
  split_and!; [by left | done | ]. cbn. set_solver.
Qed.

(** C9, the claim as stated fails: a team with a parent that is not
    configured makes the ordering fail. *)
Lemma dangling_parent_counterexample :
  dangling dangling_teams
  ∧ topological_sort elements_order dangling_teams = Raise (KeyError "ghost").
Proof. split; [exact dangling_teams_dangling | reflexivity]. Qed.

Lemma dangling_parent_fails_ordering_witness :
  dangling dangling_teams
  ∧ ∃ p,
      (p ∉ map name dangling_teams)
      ∧ topological_sort elements_order dangling_teams = Raise (KeyError p)
      ∧ main elements_order 0 live_teams_args
          {| config_teams := dangling_teams; config_repositories := [] |}
          (world_of empty_org ["yes"])
        = (Raise (KeyError p),
           add_calls (world_of empty_org ["yes"])
             [GetAuthenticatedUser; GetOrganization "open-telemetry"]).
Proof.
  split; [exact dangling_teams_dangling | ].
  apply (dangling_parent_fails_ordering elements_order 0 live_teams_args
           {| config_teams := dangling_teams; config_repositories := [] |}
           (world_of empty_org ["yes"])).
  - exact dangling_teams_dangling.
  - reflexivity.
  - reflexivity.
Defined.

Lemma sample_chain :
  parent_chain (PyDict.comprehension name id sample_teams) "x" ["root"; "mid"].
Proof.
  apply (chain_step _ "x" (sample_team "x" (Some "mid")) "mid" ["root"]);
    [reflexivity | reflexivity | ].
  apply (chain_step _ "mid" (sample_team "mid" (Some "root")) "root" []);
    [reflexivity | reflexivity | ].
  apply (chain_root _ "root" (sample_team "root" None)); reflexivity.
Qed.

Lemma scoped_run_order_witness :
  let teams_dict := PyDict.comprehension name id sample_teams in
  let w := world_of empty_org [] in
  get_dependent_teams 3 "x" teams_dict = Ok ["root"; "mid"]
  ∧ ("x" ∉ ["root"; "mid"])
  ∧ teams_to_process elements_order 3 scoped_args sample_config teams_dict w
    = (Ok (["root"; "mid"] ++ ["x"]), w)
  ∧ ∃ all_changes w',
      teams_phase1 elements_order teams_dict (["root"; "mid"] ++ ["x"]) w
      = (Ok all_changes, w')
      ∧ team_lookups (trace w') = team_lookups (trace w) ++ ["root"; "mid"] ++ ["x"].
Proof.
  apply (scoped_run_order elements_order 3 scoped_args sample_config "x" ["root"; "mid"]
           (world_of empty_org [])).
  - exact sample_chain.
  - simpl. lia.
  - reflexivity.
  - discriminate.
Defined.

Lemma repository_not_found_witness :
  ∃ changes,
    process_repository_permissions "r" [("t", "read")] false (world_of empty_org [])
    = (Ok changes, add_calls (world_of empty_org []) [GetRepo "r"])
    ∧ dd_get "error" changes = ["Repository " +:+ "r" +:+ " not found"]
    ∧ dd_get "add" changes = []
    ∧ dd_get "update" changes = []
    ∧ dd_get "remove" changes = [].
Proof.
  apply (repository_not_found "r" [("t", "read")] false (world_of empty_org [])).
  reflexivity.
Defined.

Lemma synced_team : team_in_sync synced_org (sample_team "t" None).
Proof.
  eexists. split_and!; [reflexivity | reflexivity | reflexivity | reflexivity | ].
  intros p [=].
Qed.

Lemma synced_repo : repo_in_sync synced_org "r" [("t", "read")].
Proof.
  eexists. split_and!; [reflexivity | | ].
  - intros t l [[= -> ->] | []%elem_of_nil]%elem_of_cons. reflexivity.
  - intros t Ht. exact Ht.
Qed.

(** C2, the claim as stated fails: the diff of a team whose desired state is
    the remote state has an update entry. *)
Lemma diff_in_sync_counterexample :
  team_in_sync synced_org (sample_team "t" None)
  ∧ ∃ changes w',
      create_or_update_team elements_order "t" ["alice"] [] None true
        (world_of synced_org []) = (Ok changes, w')
      ∧ dd_get "update" changes = ["Would update existing team: t"].
Proof. split; [exact synced_team | ]. eexists _, _. split; reflexivity. Qed.

Lemma diff_in_sync_witness :
  (team_in_sync synced_org (sample_team "t" None)
   ∧ ∃ changes w',
       create_or_update_team elements_order "t" ["alice"] [] None false
         (world_of synced_org []) = (Ok changes, w')
       ∧ dd_get "add" changes = []
       ∧ dd_get "remove" changes = []
       ∧ dd_get "update" changes = ["Would update existing team: " +:+ "t"])
  ∧ (repo_in_sync synced_org "r" [("t", "read")]
     ∧ ∃ changes w',
         process_repository_permissions "r" [("t", "read")] false (world_of synced_org [])
         = (Ok changes, w')
         ∧ dd_get "add" changes = []
         ∧ dd_get "update" changes = []
         ∧ dd_get "remove" changes = []).
Proof.
  destruct (diff_in_sync elements_order false (world_of synced_org [])) as [Hteam Hrepo].
  split; split.
  - exact synced_team.
  - exact (Hteam (sample_team "t" None) synced_team).
  - exact synced_repo.
  - exact (Hrepo "r" [("t", "read")] synced_repo).
Defined.

(** C10, the claim as stated fails: a desired pair whose team cannot be
    looked up gets an error entry and no grant-update call. *)
Lemma live_repository_pass_counterexample :
  let '(r, w') := process_repository_permissions "r" [("ghost", "read"); ("t", "read")] false
                    (world_of synced_org []) in
  (∃ changes message, r = Ok changes ∧ dd_get "error" changes = [message])
  ∧ grant_calls (trace w') = [("t", "r", "pull")].
Proof. vm_compute. split; [eexists _, _; split; reflexivity | reflexivity]. Qed.

Lemma live_repository_pass_witness :
  ∃ r w' calls,
    process_repository_permissions "r" [("ghost", "read"); ("t", "read")] false
      (world_of synced_org []) = (r, w')
    ∧ trace w' = trace (world_of synced_org []) ++ calls
    ∧ grant_calls calls
      = expected_grants (org (world_of synced_org [])) "r" [("ghost", "read"); ("t", "read")]
    ∧ revoke_calls calls
        `prefix_of` expected_revocations "r" [("ghost", "read"); ("t", "read")]
                      (PyDict.keys (PyDict.comprehension fst snd [("t", "pull")]))
    ∧ (∀ changes, r = Ok changes →
         revoke_calls calls
         = expected_revocations "r" [("ghost", "read"); ("t", "read")]
             (PyDict.keys (PyDict.comprehension fst snd [("t", "pull")])))
    ∧ (∀ changes, r = Ok changes →
         Forall2 (λ entry pair,
                    ∃ text, entry = "Error processing team " +:+ pair.1 +:+ " for "
                                    +:+ "r" +:+ ": " +:+ text)
           (dd_get "error" changes)
           (filter (λ pair, org_teams (org (world_of synced_org [])) !! pair.1 = None)
              [("ghost", "read"); ("t", "read")])).
Proof.
  apply (live_repository_pass "r" [("ghost", "read"); ("t", "read")] (world_of synced_org [])
           [("t", "pull")]).
  reflexivity.
Defined.

(** * Further properties *)

(** ** The traversal returns on every graph *)

Section DfsTotal.
Context (order : SetOrder) (G : Graph).

Hypothesis keys_NoDup : NoDup (PyDict.keys G).
Hypothesis closed : ∀ p c, child_of G p c → c ∈ PyDict.keys G.

Lemma dfs_children_total fuel :
  (∀ child v r,
      child ∈ PyDict.keys G → child ∉ v → size (unvisited G v) < fuel →
      ∃ v' new, dfs order fuel G child (v, r) = Ok (v', r ++ new)
                ∧ v' ≡ v ∪ list_to_set new ∧ child ∈ new ∧ NoDup new
                ∧ ∀ x, x ∈ new → (x ∉ v) ∧ x ∈ PyDict.keys G) →
  ∀ cs v r,
    (∀ c, c ∈ cs → c ∈ PyDict.keys G) → size (unvisited G v) < fuel →
    ∃ v' new,
      for_res cs
        (λ child st, if decide (child ∈ st.1) then Ok st else dfs order fuel G child st)
        (v, r) = Ok (v', r ++ new)
      ∧ v' ≡ v ∪ list_to_set new ∧ NoDup new
      ∧ (∀ x, x ∈ new → (x ∉ v) ∧ x ∈ PyDict.keys G)
      ∧ ∀ c, c ∈ cs → c ∈ v'.
Proof.
  intros Hdfs cs. induction cs as [|c cs IH]; intros v r Hcs Hfuel.
  - exists v, []. rewrite app_nil_r. simpl.
    split_and!; [done | set_solver | constructor | | ]; intros x ?%elem_of_nil; done.
  - simpl. case_decide as Hc.
    + destruct (IH v r) as (v' & new & Hrun & Hv' & Hnd & Hnew & Hall); [ | done | ].
      { intros c' ?. apply Hcs. by right. }
      exists v', new. simpl. split_and!; [done | done | done | done | ].
      intros c' [-> | ?]%elem_of_cons; [set_solver | by apply Hall].
    + destruct (Hdfs c v r) as (v1 & new1 & Hrun1 & Hv1 & Hin1 & Hnd1 & Hnew1); [ | done | done | ].
      { apply Hcs. by left. }
      destruct (IH v1 (r ++ new1)) as (v' & new & Hrun & Hv' & Hnd & Hnew & Hall).
      { intros c' ?. apply Hcs. by right. }
      { eapply Nat.le_lt_trans; [ | exact Hfuel].
        apply subseteq_size. unfold unvisited. set_solver. }
      exists v', (new1 ++ new). rewrite Hrun1. simpl. rewrite app_assoc.
      split_and!; [done | | | | ].
      * rewrite list_to_set_app. set_solver.
      * apply NoDup_app. split_and!; [done | | done].
        intros x Hx1 Hx. apply Hnew in Hx as [Hx _]. apply Hx, Hv1.
        apply elem_of_union_r. by apply elem_of_list_to_set.
      * intros x [Hx | Hx]%elem_of_app; [by apply Hnew1 | ].
        apply Hnew in Hx as [Hx ?]. split; [ | done]. set_solver.
      * intros c' [-> | ?]%elem_of_cons; [ | by apply Hall].
        apply Hv', elem_of_union_l, Hv1, elem_of_union_r. by apply elem_of_list_to_set.
Qed.

Lemma dfs_total fuel : ∀ node v r,
  node ∈ PyDict.keys G → node ∉ v → size (unvisited G v) < fuel →
  ∃ v' new, dfs order fuel G node (v, r) = Ok (v', r ++ new)
            ∧ v' ≡ v ∪ list_to_set new ∧ node ∈ new ∧ NoDup new
            ∧ ∀ x, x ∈ new → (x ∉ v) ∧ x ∈ PyDict.keys G.
Proof.
  induction fuel as [|fuel IH]; intros node v r Hkey Hfresh Hfuel; [lia | ].
  simpl. apply PyDictFacts.get_Some_keys in Hkey as Hget. destruct Hget as [children Hget].
  rewrite Hget.
  destruct (dfs_children_total fuel IH (iterate order node children) (v ∪ {[node]}) r)
    as (v2 & newl & Hrun & Hv2 & Hnd & Hnew & _).
  - intros c Hc. apply (closed node). exists children. split; [done | ].
    rewrite (iterate_perm order node children) in Hc. by apply elem_of_elements in Hc.
  - assert (unvisited G (v ∪ {[node]}) ⊂ unvisited G v) as Hlt%subset_size; [ | lia].
    unfold unvisited. split; [set_solver | ].
    intros Hsub. specialize (Hsub node). set_solver.
  - rewrite Hrun. simpl. exists v2, (newl ++ [node]). rewrite app_assoc.
    split_and!; [done | | set_solver | | ].
    + rewrite list_to_set_app. set_solver.
    + apply NoDup_app. split_and!; [done | | apply NoDup_singleton].
      intros x Hx ->%list_elem_of_singleton. apply Hnew in Hx as [Hx _]. set_solver.
    + intros x [Hx | ->%list_elem_of_singleton]%elem_of_app; [ | done].
      apply Hnew in Hx as [Hx ?]. split; [set_solver | done].
Qed.

#[local] Arguments dfs : simpl never.

Lemma dfs_all_total :
  ∃ v r,
    for_res (PyDict.keys G)
      (λ node st, if decide (node ∈ st.1) then Ok st
                  else dfs order (S (length G)) G node st)
      (∅, []) = Ok (v, r)
    ∧ NoDup r ∧ ∀ x, x ∈ r ↔ x ∈ PyDict.keys G.
Proof.
  assert (Hfuel : ∀ v, size (unvisited G v) < S (length G)).
  { intros v. apply Nat.lt_succ_r.
    rewrite <- (PyDictFacts.length_keys G), <- (size_list_to_set (C := gset string)) by done.
    apply subseteq_size. unfold unvisited. set_solver. }
  destruct (dfs_children_total (S (length G)) (dfs_total (S (length G)))
              (PyDict.keys G) ∅ []) as (v & r & Hrun & Hv & Hnd & Hnew & Hall);
    [done | apply Hfuel | ].
  exists v, r. split_and!; [done | done | ].
  intros x. split; [by intros [_ ?]%Hnew | ].
  intros Hx%Hall%Hv. apply elem_of_union in Hx as [?%elem_of_empty | Hx]; [done | ].
  by apply elem_of_list_to_set in Hx.
Qed.

End DfsTotal.

Lemma add_edges_cases : ∀ l G,
  (∃ p t, for_res l add_edge G = Raise (KeyError p)
          ∧ (p ∉ PyDict.keys G) ∧ t ∈ l ∧ parent t = Some p)
  ∨ (∃ G', for_res l add_edge G = Ok G'
           ∧ PyDict.keys G' = PyDict.keys G
           ∧ ∀ p c, child_of G' p c → child_of G p c ∨ is_parent l p c).
Proof.
  induction l as [|t l IH]; intros G.
  - right. exists G. split_and!; [done | done | auto].
  - simpl. unfold add_edge at 1 3. destruct (parent t) as [p0|] eqn:Hp.
    + destruct (PyDict.get p0 G) as [s|] eqn:Hs.
      * simpl.
        assert (PyDict.keys (PyDict.set p0 (s ∪ {[name t]}) G) = PyDict.keys G) as Hk.
        { apply PyDictFacts.keys_set_present, PyDictFacts.get_Some_keys. eauto. }
        destruct (IH (PyDict.set p0 (s ∪ {[name t]}) G))
          as [(p & t' & Hrun & Hout & Ht' & Hp') | (G' & Hrun & Hkeys & Hrel)].
        -- left. exists p, t'. rewrite <- Hk. split_and!; [done | done | by right | done].
        -- right. exists G'. split_and!; [done | congruence | ].
           intros p c [[? | [-> ->]]%child_of_set | (t' & ? & ? & ?)]%Hrel; try done.
           ++ by left.
           ++ right. exists t. split_and!; [by left | done | done].
           ++ right. exists t'. split_and!; [by right | done | done].
      * left. exists p0, t. split_and!; [done | | by left | done].
        by apply PyDictFacts.get_None_keys.
    + simpl. destruct (IH G) as [(p & t' & Hrun & Hout & Ht' & Hp') | (G' & Hrun & Hkeys & Hrel)].
      * left. exists p, t'. split_and!; [done | done | by right | done].
      * right. exists G'. split_and!; [done | done | ].
        intros p c [? | (t' & ? & ? & ?)]%Hrel; [by left | right].
        exists t'. split_and!; [by right | done | done].
Qed.

(** X1: the full ordering returns on every configuration, cyclic parent
    references included: either some team names a parent that is not
    configured and the ordering raises a key error for that name, or it
    returns a sequence that holds every team name exactly once. *)
Theorem topological_sort_total (order : SetOrder) (teams : list TeamSpec) :
  (∃ p t, topological_sort order teams = Raise (KeyError p)
          ∧ t ∈ teams ∧ parent t = Some p ∧ p ∉ map name teams)
  ∨ (∃ result, topological_sort order teams = Ok result
               ∧ NoDup result ∧ ∀ n, n ∈ result ↔ n ∈ map name teams).
Proof.
  unfold topological_sort, build_graph.
  destruct (add_edges_cases teams (PyDict.comprehension name (λ _, ∅) teams))
    as [(p & t & -> & Hout & Ht & Hp) | (G & -> & Hkeys & Hrel)].
  - left. exists p, t. cbn [res_bind]. split_and!; [done | done | done | ].
    by rewrite PyDictFacts.comprehension_keys in Hout.
  - right. cbn [res_bind].
    assert (∀ n, n ∈ PyDict.keys G ↔ n ∈ map name teams) as Hnames.
    { intros n. rewrite Hkeys. apply PyDictFacts.comprehension_keys. }
    destruct (dfs_all_total order G) as (v & r & Hrun & Hnd & Hr).
    + rewrite Hkeys. apply PyDictFacts.comprehension_keys_NoDup.
    + intros p c [?%child_of_initial | (t & Ht & <- & _)]%Hrel; [done | ].
      apply Hnames, elem_of_map. eauto.
    + exists (reverse r). unfold DfsState in *. rewrite Hrun. cbn [res_bind].
      split_and!; [done | by rewrite reverse_Permutation | ].
      intros n. rewrite elem_of_reverse, Hr. apply Hnames.
Qed.

(** ** Orders the orderer produces *)

Lemma add_edges_no_parent : ∀ l G,
  (∀ t, t ∈ l → parent t = None) → for_res l add_edge G = Ok G.
Proof.
  induction l as [|t l IH]; intros G Hall; [done | ].
  simpl. unfold add_edge at 1. rewrite (Hall t) by (by left). simpl.
  apply IH. intros t' ?. apply Hall. by right.
Qed.

Lemma dfs_leaf order (G : Graph) fuel k v r :
  PyDict.get k G = Some ∅ → dfs order (S fuel) G k (v, r) = Ok (v ∪ {[k]}, r ++ [k]).
Proof.
  intros Hget. simpl. rewrite Hget.
  assert (iterate order k ∅ = []) as ->; [ | done].
  apply Permutation_nil_r. by rewrite iterate_perm, elements_empty.
Qed.

Lemma dfs_roots_leaves order (G : Graph) : ∀ ks v r,
  (∀ k, k ∈ ks → PyDict.get k G = Some ∅) → NoDup ks → (∀ k, k ∈ ks → k ∉ v) →
  ∃ v',
    for_res ks
      (λ node st, if decide (node ∈ st.1) then Ok st
                  else dfs order (S (length G)) G node st)
      (v, r) = Ok (v', r ++ ks).
Proof.
  induction ks as [|k ks IH]; intros v r Hget Hnd Hfresh.
  - exists v. by rewrite app_nil_r.
  - apply NoDup_cons in Hnd as [Hk Hnd]. cbn [for_res fst].
    rewrite decide_False by (apply Hfresh; by left).
    rewrite dfs_leaf by (apply Hget; by left). cbn [res_bind].
    destruct (IH (v ∪ {[k]}) (r ++ [k])) as [v' Hrun].
    + intros k' ?. apply Hget. by right.
    + done.
    + intros k' Hk' [? | ->%elem_of_singleton]%elem_of_union; [ | done].
      apply (Hfresh k'); [by right | done].
    + exists v'. rewrite Hrun, <- app_assoc. done.
Qed.

(** X2: when no team has a parent, the full ordering returns the team names
    in the reverse of their order in the configuration. *)
Theorem topological_sort_flat (order : SetOrder) (teams : list TeamSpec) :
  NoDup (map name teams) →
  (∀ t, t ∈ teams → parent t = None) →
  topological_sort order teams = Ok (reverse (map name teams)).
Proof.
  intros Hnd Hflat. unfold topological_sort, build_graph.
  rewrite add_edges_no_parent by done. cbn [res_bind].
  assert (PyDict.keys (PyDict.comprehension name (λ _, ∅ : gset string) teams)
          = map name teams) as Hkeys.
  { rewrite PyDictFacts.comprehension_NoDup by done. unfold PyDict.keys. by rewrite map_map. }
  destruct (dfs_roots_leaves order (PyDict.comprehension name (λ _, ∅) teams)
              (map name teams) ∅ []) as [v Hrun].
  - intros k Hk. rewrite <- Hkeys in Hk.
    apply PyDictFacts.get_Some_keys in Hk as [s Hs]. rewrite Hs. f_equal.
    apply set_eq. intros c. split; [ | by intros ?%elem_of_empty].
    intros Hc. exfalso. apply (child_of_initial teams k c). by exists s.
  - done.
  - intros k _ ?%elem_of_empty. done.
  - rewrite Hkeys. unfold DfsState in *. rewrite Hrun. done.
Qed.

(** X3: when following the parents from the target never leaves the
    configured teams and never reaches a team without parent, which is the
    case when the target lies on or leads to a cycle of parent references,
    the ancestor computation does not return: no number of iterations of
    its loop suffices. *)
Theorem get_dependent_teams_cycle (fuel : nat) (teams_dict : PyDict.t TeamSpec)
    (team_name : string) (on_chain : string → Prop) :
  on_chain team_name →
  (∀ x, on_chain x →
        ∃ team p, PyDict.get x teams_dict = Some team ∧ parent team = Some p ∧ on_chain p) →
  get_dependent_teams fuel team_name teams_dict = OutOfFuel.
Proof.
  intros Hstart Hclosed. unfold get_dependent_teams. generalize (@nil string).
  revert team_name Hstart. induction fuel as [|fuel IH]; intros x Hx acc; [done | ].
  destruct (Hclosed x Hx) as (team & p & Hget & Hp & Hnext).
  simpl. rewrite Hget, Hp. by apply IH.
Qed.

(** ** A target with an ancestor that is not configured *)

Lemma open_chain_head d t l :
  open_chain d t l →
  (l = [] ∧ PyDict.get t d = None)
  ∨ (∃ h l', l = h :: l' ∧ PyDict.get h d = None ∧ is_Some (PyDict.get t d)).
Proof.
  induction 1 as [t Hget | t team p l Hget Hpar Hchain IH]; [by left | right].
  destruct IH as [[-> Hp] | (h & l' & -> & Hh & _)].
  - exists p, []. eauto.
  - exists h, (l' ++ [p]). eauto.
Qed.

Lemma get_dependent_teams_loop_open d t l :
  open_chain d t l →
  ∀ fuel acc, length l < fuel →
    get_dependent_teams_loop fuel t d acc = Ok (l ++ reverse acc).
Proof.
  induction 1 as [t Hget | t team p l Hget Hpar Hchain IH]; intros fuel acc Hfuel.
  - destruct fuel as [|fuel]; [simpl in Hfuel; lia | ]. simpl. by rewrite Hget.
  - rewrite length_app in Hfuel. simpl in Hfuel.
    destruct fuel as [|fuel]; [lia | ]. simpl. rewrite Hget, Hpar.
    rewrite IH by lia. rewrite reverse_app. simpl. by rewrite <- app_assoc.
Qed.

(** X4: when the parents of a configured target lead to a name that is not
    configured, the ancestor computation returns, with that name first, and
    a run scoped to the target ends with a key error for that name in the
    first loop, before any team is looked up remotely. *)
Theorem scoped_run_dangling (order : SetOrder) (fuel : nat) (args : Args) (config : Config)
    (t : string) (l : list string) (w : World) :
  let teams_dict := PyDict.comprehension name id (config_teams config) in
  open_chain teams_dict t l →
  is_Some (PyDict.get t teams_dict) →
  length l < fuel →
  args_mode args = "teams" →
  args_target args = Some t →
  t ≠ "" →
  ∃ p l',
    l = p :: l'
    ∧ PyDict.get p teams_dict = None
    ∧ get_dependent_teams fuel t teams_dict = Ok l
    ∧ main order fuel args config w
      = (Raise (KeyError p),
         add_calls w [GetAuthenticatedUser; GetOrganization "open-telemetry"]).
Proof.
  intros d Hchain [team Hteam] Hfuel Hmode Htarget Hne.
  destruct (open_chain_head d t l Hchain) as [[_ Hnone] | (p & l' & -> & Hp & _)];
    [congruence | ].
  assert (get_dependent_teams fuel t d = Ok (p :: l')) as Hanc.
  { unfold get_dependent_teams. rewrite (get_dependent_teams_loop_open d t (p :: l')) by done.
    by rewrite app_nil_r. }
  exists p, l'. split_and!; [done | done | done | ].
  unfold main. rewrite bind_run, call_run. cbv beta iota.
  rewrite bind_run. unfold get_org at 1. cbv beta iota.
  rewrite bind_run, call_run. cbv beta iota.
  rewrite decide_True by done.
  unfold main_teams. rewrite bind_run. unfold teams_to_process, truthy.
  rewrite Htarget. rewrite decide_False by done.
  unfold PyDict.mem. fold d. rewrite Hteam. rewrite bind_run. unfold lift. rewrite Hanc.
  cbn [mret M_ret]. cbv beta iota. rewrite bind_run.
  unfold teams_phase1. cbn [app for_each]. rewrite bind_run.
  unfold teams_phase1_step at 1, getitem. rewrite Hp. rewrite bind_run.
  unfold raise. cbv beta iota. by rewrite add_calls_app.
Qed.

(** ** Relations kept by every step of a computation *)

Section Preserves.
Context (R : World → World → Prop) `{!PreOrder R}.

Lemma preserves_ret {A} (a : A) : preserves R (mret a).
Proof. intros w. reflexivity. Qed.

Lemma preserves_raise {A} e : preserves R (@raise A e).
Proof. intros w. reflexivity. Qed.

Lemma preserves_lift {A} (r : Res A) : preserves R (lift r).
Proof. intros w. reflexivity. Qed.

Lemma preserves_get_org : preserves R get_org.
Proof. intros w. reflexivity. Qed.

Lemma preserves_bind {A B} (m : M A) (k : A → M B) :
  preserves R m → (∀ a, preserves R (k a)) → preserves R (m ≫= k).
Proof.
  intros Hm Hk w. rewrite bind_run. specialize (Hm w).
  destruct (m w) as [[a | e | ] w1]; cbn [snd] in *; [ | done | done].
  etransitivity; [exact Hm | apply Hk].
Qed.

Lemma preserves_try {A} (body : M A) (handler : Exn → M A) :
  preserves R body → (∀ e, preserves R (handler e)) → preserves R (try_except body handler).
Proof.
  intros Hm Hk w. unfold try_except. specialize (Hm w).
  destruct (body w) as [[a | e | ] w1]; cbn [snd] in *; [done | | done].
  etransitivity; [exact Hm | apply Hk].
Qed.

Lemma preserves_for_each {A S} (l : list A) (body : A → S → M S) :
  (∀ x st, preserves R (body x st)) → ∀ st, preserves R (for_each l body st).
Proof.
  intros Hbody. induction l as [|x l IH]; intros st; [apply preserves_ret | ].
  cbn [for_each]. apply preserves_bind; [apply Hbody | apply IH].
Qed.

End Preserves.

#[export] Instance quiet_preorder : PreOrder quiet.
Proof. split; [intros w; apply quiet_refl | intros w1 w2 w3; apply quiet_trans]. Qed.

#[export] Instance hushed_preorder : PreOrder hushed.
Proof.
  split.
  - intros w. split; [apply quiet_refl | done].
  - intros w1 w2 w3 [Hq1 Hi1] [Hq2 Hi2]. split; [by eapply quiet_trans | congruence].
Qed.

#[export] Instance only_revokes_preorder user : PreOrder (only_revokes user).
Proof.
  split.
  - intros w. exists []. by rewrite app_nil_r.
  - intros w1 w2 w3 (c1 & Ht1 & Hc1) (c2 & Ht2 & Hc2).
    exists (c1 ++ c2). rewrite Ht2, Ht1, app_assoc. split; [done | by apply Forall_app].
Qed.

Lemma hushed_add_calls w calls :
  Forall (λ c, is_mutating c = false) calls → hushed w (add_calls w calls).
Proof. intros H. split; [by apply quiet_add_calls | done]. Qed.

Lemma hushed_add_lines w lines : hushed w (add_lines w lines).
Proof. split; [ | done]. split; [done | ]. exists []. by rewrite app_nil_r. Qed.

Lemma quiet_only_revokes user w w' : quiet w w' → only_revokes user w w'.
Proof.
  intros [_ (calls & Ht & Hc)]. exists calls. split; [done | ].
  eapply Forall_impl; [exact Hc | ]. intros c ?. by left.
Qed.

Lemma preserves_weaken {A} (R1 R2 : World → World → Prop) (m : M A) :
  (∀ w w', R1 w w' → R2 w w') → preserves R1 m → preserves R2 m.
Proof. intros Hsub Hm w. apply Hsub, Hm. Qed.

Lemma hushed_call c : is_mutating c = false → preserves hushed (call c).
Proof. intros Hc w. rewrite call_run. apply hushed_add_calls. by constructor. Qed.

Lemma hushed_print line : preserves hushed (print line).
Proof. intros w. rewrite print_run. apply hushed_add_lines. Qed.

Lemma hushed_print_changes changes : preserves hushed (print_changes changes).
Proof.
  intros w. destruct (print_changes_run changes w) as [lines ->]. apply hushed_add_lines.
Qed.

Lemma hushed_getitem {V} k (d : PyDict.t V) : preserves hushed (getitem k d).
Proof.
  unfold getitem.
  destruct (PyDict.get k d); [apply preserves_ret | apply preserves_raise]; apply _.
Qed.

Lemma hushed_create_or_update_team order n Ms Ns p dry :
  preserves hushed (create_or_update_team order n Ms Ns p dry).
Proof.
  intros w. destruct (create_or_update_team_cases order n Ms Ns p dry w)
    as [(head & calls & -> & _ & _ & Hcalls) | (_ & p' & _ & _ & _ & ->)]; cbn [snd].
  - by apply hushed_add_calls.
  - apply hushed_add_calls. by repeat constructor.
Qed.

(** Applies the rule for the construct at the head of a computation. *)
Ltac preserves_step :=
  first
    [ apply preserves_ret; apply _
    | apply preserves_raise; apply _
    | apply preserves_lift; apply _
    | apply preserves_get_org; apply _
    | apply hushed_print
    | apply hushed_print_changes
    | apply hushed_getitem
    | apply hushed_create_or_update_team
    | apply hushed_call; reflexivity
    | apply preserves_bind; [apply _ | | intros ?]
    | apply preserves_try; [apply _ | | intros ?]
    | apply preserves_for_each; [apply _ | intros ? ?]
    | match goal with
      | |- preserves _ (match ?x with _ => _ end) => destruct x
      end ].

Lemma hushed_teams_to_process order fuel args config teams_dict :
  preserves hushed (teams_to_process order fuel args config teams_dict).
Proof. unfold teams_to_process. repeat preserves_step. Qed.

Lemma hushed_teams_phase1 order teams_dict to_process :
  preserves hushed (teams_phase1 order teams_dict to_process).
Proof. unfold teams_phase1, teams_phase1_step. repeat preserves_step. Qed.

Lemma hushed_get_team_by_slug s : preserves hushed (get_team_by_slug s).
Proof. unfold get_team_by_slug. repeat preserves_step. Qed.

Lemma hushed_get_repo r : preserves hushed (get_repo r).
Proof. unfold get_repo. repeat preserves_step. Qed.

Lemma hushed_get_teams r : preserves hushed (get_teams r).
Proof. unfold get_teams. repeat preserves_step. Qed.

(** The repository pass, in a dry run, only reads. *)
Lemma hushed_process_repository_permissions repo perms :
  preserves hushed (process_repository_permissions repo perms true).
Proof.
  unfold process_repository_permissions.
  apply preserves_bind; [apply _ | | intros found].
  { apply preserves_try; [apply _ | | intros ?]; [ | preserves_step].
    apply preserves_bind; [apply _ | apply hushed_get_repo | intros ?]. preserves_step. }
  destruct found as [r|]; [ | preserves_step].
  apply preserves_bind; [apply _ | apply hushed_get_teams | intros grants].
  apply preserves_bind; [apply _ | | intros changes].
  - apply preserves_for_each; [apply _ | ]. intros [t l] changes w.
    rewrite grant_step_run. destruct (org_teams (org w) !! t); cbn [snd];
      apply hushed_add_calls; by repeat constructor.
  - apply preserves_for_each; [apply _ | ]. intros t changes' w.
    rewrite revoke_step_run. destruct (PyDict.mem t perms); cbn [snd]; reflexivity.
Qed.

Lemma hushed_repos_phase1 repo_dict to_process :
  preserves hushed (for_each to_process (repos_phase1_step repo_dict) []).
Proof.
  apply preserves_for_each; [apply _ | ]. intros repo acc. unfold repos_phase1_step.
  apply preserves_bind; [apply _ | apply hushed_getitem | intros repo_data].
  apply preserves_bind; [apply _ | apply hushed_process_repository_permissions | intros ?].
  repeat preserves_step.
Qed.

(** ** What the differ and the runs never do *)

(** X5: the team differ, in live mode as in a dry run and whether it returns
    or fails, leaves the organisation as it was, makes no mutating call,
    prints nothing and reads no input. *)
Theorem team_differ_read_only (order : SetOrder) (team_name : string)
    (maintainers members : list string) (parent_name : option string) (dry_run : bool)
    (w : World) :
  let w' := (create_or_update_team order team_name maintainers members parent_name
               dry_run w).2 in
  org w' = org w
  ∧ stdout w' = stdout w
  ∧ stdin w' = stdin w
  ∧ ∃ calls, trace w' = trace w ++ calls ∧ Forall (λ c, is_mutating c = false) calls.
Proof.
  destruct (create_or_update_team_cases order team_name maintainers members parent_name
              dry_run w)
    as [(head & calls & -> & _ & _ & Hcalls) | (_ & p' & _ & _ & _ & ->)]; cbn [snd].
  - split_and!; [done | done | done | ]. by exists calls.
  - split_and!; [done | done | done | ]. eexists. split; [done | ]. by repeat constructor.
Qed.

Lemma hushed_main_dry order fuel args config :
  args_dry_run args = true → preserves hushed (main order fuel args config).
Proof.
  intros Hdry. unfold main.
  apply preserves_bind; [apply _ | by apply hushed_call | intros _].
  apply preserves_bind; [apply _ | apply preserves_get_org; apply _ | intros o].
  apply preserves_bind; [apply _ | by apply hushed_call | intros _].
  case_decide; [ | case_decide; [ | apply preserves_ret; apply _] ].
  - unfold main_teams.
    apply preserves_bind; [apply _ | apply hushed_teams_to_process | intros to_process].
    apply preserves_bind; [apply _ | apply hushed_teams_phase1 | intros _].
    rewrite Hdry. apply hushed_print.
  - unfold main_repos.
    apply preserves_bind; [apply _ | | intros to_process].
    { repeat preserves_step. }
    apply preserves_bind; [apply _ | apply hushed_repos_phase1 | intros _].
    rewrite Hdry. apply hushed_print.
Qed.

(** X9: a run with the dry-run option, in either mode and whatever its
    outcome, leaves the organisation as it was, makes no mutating call and
    does not ask for a confirmation. *)
Theorem dry_run_changes_nothing (order : SetOrder) (fuel : nat) (args : Args)
    (config : Config) (w : World) :
  args_dry_run args = true →
  let w' := (main order fuel args config w).2 in
  org w' = org w
  ∧ stdin w' = stdin w
  ∧ ∃ calls, trace w' = trace w ++ calls ∧ Forall (λ c, is_mutating c = false) calls.
Proof.
  intros Hdry. destruct (hushed_main_dry order fuel args config Hdry w) as [[Horg Hcalls] Hin].
  done.
Qed.

(** The confirmation is declined by every answer that is not yes or y,
    whatever the case of its letters. *)
Lemma confirm_declined w response rest :
  stdin w = response :: rest → lower response ≠ "yes" → lower response ≠ "y" →
  ∃ w', confirm_changes w = (Ok false, w') ∧ quiet w w'.
Proof.
  intros Hin Hyes Hy. unfold confirm_changes. rewrite bind_run. unfold input. rewrite Hin.
  cbv beta iota. cbn [mret M_ret].
  rewrite !bool_decide_eq_false_2 by done. eexists. split; [reflexivity | ].
  split; [done | ]. exists []. cbn. by rewrite app_nil_r.
Qed.

Lemma quiet_after_hushed {A B} (m : M A) (k : A → M B) w :
  preserves hushed m →
  (∀ a w1, stdin w1 = stdin w → quiet w1 (k a w1).2) →
  quiet w ((m ≫= k) w).2.
Proof.
  intros Hm Hk. rewrite bind_run. destruct (Hm w) as [Hq Hin].
  destruct (m w) as [[a | e | ] w1]; cbn [snd] in *; [ | done | done].
  eapply quiet_trans; [exact Hq | by apply Hk].
Qed.

Lemma declined_tail (dry : bool) (line_dry line_cancel : string) (live : M unit) w
    response rest :
  stdin w = response :: rest → lower response ≠ "yes" → lower response ≠ "y" →
  quiet w ((if dry then print line_dry
            else confirmed ← confirm_changes;
                 if confirmed : bool then live else print line_cancel) w).2.
Proof.
  intros Hin Hyes Hy. destruct dry.
  - rewrite print_run. apply hushed_add_lines.
  - rewrite bind_run. destruct (confirm_declined w response rest Hin Hyes Hy) as (w1 & -> & Hq).
    cbv beta iota. eapply quiet_trans; [exact Hq | ].
    rewrite print_run. apply hushed_add_lines.
Qed.

(** X10: when the answer to the confirmation is neither yes nor y, in any
    mix of upper and lower case, the run, in either mode and with or without
    the dry-run option, leaves the organisation as it was and makes no
    mutating call. *)
Theorem declined_run_changes_nothing (order : SetOrder) (fuel : nat) (args : Args)
    (config : Config) (w : World) (response : string) (rest : list string) :
  stdin w = response :: rest →
  lower response ≠ "yes" →
  lower response ≠ "y" →
  let w' := (main order fuel args config w).2 in
  org w' = org w
  ∧ ∃ calls, trace w' = trace w ++ calls ∧ Forall (λ c, is_mutating c = false) calls.
Proof.
  intros Hin Hyes Hy. change (quiet w (main order fuel args config w).2).
  unfold main.
  apply quiet_after_hushed; [by apply hushed_call | intros _ w1 Hin1].
  apply quiet_after_hushed; [apply preserves_get_org; apply _ | intros o w2 Hin2].
  apply quiet_after_hushed; [by apply hushed_call | intros _ w3 Hin3].
  case_decide; [ | case_decide; [ | apply quiet_refl] ].
  - unfold main_teams.
    apply quiet_after_hushed; [apply hushed_teams_to_process | intros to_process w4 Hin4].
    apply quiet_after_hushed; [apply hushed_teams_phase1 | intros _ w5 Hin5].
    apply (declined_tail _ _ _ _ w5 response rest); [congruence | done | done].
  - unfold main_repos.
    apply quiet_after_hushed; [repeat preserves_step | intros to_process w4 Hin4].
    apply quiet_after_hushed; [apply hushed_repos_phase1 | intros _ w5 Hin5].
    apply (declined_tail _ _ _ _ w5 response rest); [congruence | done | done].
Qed.

(** X11: when the target is not a key of the configuration of the mode, the
    run prints the error and exits with status 1 right after the client is
    set up: no team and no repository is looked up. *)
Theorem target_not_found (order : SetOrder) (fuel : nat) (args : Args) (config : Config)
    (target : string) (w : World) :
  truthy (args_target args) = Some target →
  let w0 := add_calls w [GetAuthenticatedUser; GetOrganization "open-telemetry"] in
  (args_mode args = "teams" →
   PyDict.mem target (PyDict.comprehension name id (config_teams config)) = false →
   main order fuel args config w
   = (Raise (SystemExit 1),
      add_lines w0 ["Error: Team '" +:+ target +:+ "' not found in the configuration."]))
  ∧ (args_mode args = "repos" →
     PyDict.mem target (PyDict.comprehension repo_name id (config_repositories config))
     = false →
     main order fuel args config w
     = (Raise (SystemExit 1),
        add_lines w0
          ["Error: Repository '" +:+ target +:+ "' not found in the configuration."])).
Proof.
  intros Htarget w0. split; intros Hmode Hmem.
  - unfold main. rewrite bind_run, call_run. cbv beta iota.
    rewrite bind_run. unfold get_org at 1. cbv beta iota.
    rewrite bind_run, call_run. cbv beta iota.
    rewrite decide_True by done.
    unfold main_teams. rewrite bind_run. unfold teams_to_process.
    rewrite Htarget, Hmem. rewrite bind_run, print_run. cbv beta iota.
    unfold raise. by rewrite add_calls_app.
  - unfold main. rewrite bind_run, call_run. cbv beta iota.
    rewrite bind_run. unfold get_org at 1. cbv beta iota.
    rewrite bind_run, call_run. cbv beta iota.
    rewrite decide_False by (rewrite Hmode; discriminate).
    rewrite decide_True by done.
    unfold main_repos. rewrite bind_run.
    rewrite Htarget, Hmem. rewrite bind_run, print_run. cbv beta iota.
    unfold raise. by rewrite add_calls_app.
Qed.

(** ** The only mutation of the teams mode *)

Lemma only_revokes_same_trace user w w' : trace w' = trace w → only_revokes user w w'.
Proof. intros H. exists []. by rewrite app_nil_r. Qed.

Lemma only_revokes_sweep_step user item :
  preserves (only_revokes user) (sweep_step user item tt).
Proof.
  destruct item as [s spec]. intros w. rewrite sweep_step_run.
  case_decide; [ | reflexivity].
  destruct (org_teams (org w) !! s) as [rt|].
  - case_decide.
    + destruct (bool_decide (user ∈ dom (team_members rt))); cbn [snd].
      * eexists. split; [reflexivity | ].
        repeat (constructor; [first [by left | right; by eexists] | ]). constructor.
      * eexists. split; [reflexivity | ]. repeat (constructor; [by left | ]). constructor.
    + eexists. split; [reflexivity | ]. repeat (constructor; [by left | ]). constructor.
  - eexists. split; [reflexivity | ]. repeat (constructor; [by left | ]). constructor.
Qed.

Lemma only_revokes_main_teams order fuel args config user :
  preserves (only_revokes user) (main_teams order fuel args config user).
Proof.
  assert (∀ A (m : M A), preserves hushed m → preserves (only_revokes user) m) as Hweak.
  { intros A m. apply preserves_weaken. intros w w' [Hq _]. by apply quiet_only_revokes. }
  unfold main_teams.
  apply preserves_bind; [apply _ | apply Hweak, hushed_teams_to_process | intros to_process].
  apply preserves_bind; [apply _ | apply Hweak, hushed_teams_phase1 | intros _].
  destruct (args_dry_run args); [apply Hweak, hushed_print | ].
  apply preserves_bind; [apply _ | | intros confirmed].
  { intros w. apply only_revokes_same_trace. unfold confirm_changes.
    rewrite bind_run. unfold input. by destruct (stdin w). }
  destruct confirmed; [ | apply Hweak, hushed_print].
  apply preserves_bind; [apply _ | | intros _].
  { intros w. apply quiet_only_revokes, teams_phase2_quiet. }
  apply preserves_bind; [apply _ | apply Hweak, hushed_print | intros _].
  apply preserves_bind; [apply _ | | intros _; apply Hweak, hushed_print].
  unfold remove_current_user_from_teams.
  apply preserves_for_each; [apply _ | ]. intros item []. apply only_revokes_sweep_step.
Qed.

(** X12: in teams mode the only mutating calls a run can make, whatever the
    configuration, the remote state, the options and the answer, are
    revocations of memberships of the authenticated user. *)
Theorem teams_mode_only_revokes (order : SetOrder) (fuel : nat) (args : Args)
    (config : Config) (w : World) :
  args_mode args = "teams" →
  ∃ calls,
    trace (main order fuel args config w).2 = trace w ++ calls
    ∧ Forall (λ c, is_mutating c = false
                   ∨ ∃ s, c = RemoveMembership s (org_identity (org w))) calls.
Proof.
  intros Hmode. change (only_revokes (org_identity (org w)) w (main order fuel args config w).2).
  unfold main. rewrite bind_run, call_run. cbv beta iota.
  rewrite bind_run. unfold get_org at 1. cbv beta iota.
  rewrite bind_run, call_run. cbv beta iota.
  rewrite decide_True by done. cbn [org add_calls].
  etransitivity; [ | apply only_revokes_main_teams].
  eexists. split; [cbn; by rewrite <- app_assoc | ].
  repeat (constructor; [by left | ]). constructor.
Qed.

(** ** The repository diff of a dry run *)

#[export] Instance to_add_dec teams current pair : Decision (to_add teams current pair).
Proof. unfold to_add. apply _. Defined.

#[export] Instance to_update_dec teams current pair :
  Decision (to_update teams current pair).
Proof. unfold to_update. apply _. Defined.

Lemma grant_loop_dry repo current (T : gmap string RemoteTeam) : ∀ perms changes w,
  org_teams (org w) = T →
  ∃ changes' w',
    for_each perms (grant_step repo repo current true) changes w = (Ok changes', w')
    ∧ org_teams (org w') = T
    ∧ dd_get "add" changes'
      = dd_get "add" changes ++ map (add_message repo) (filter (to_add T current) perms)
    ∧ dd_get "update" changes'
      = dd_get "update" changes
        ++ map (update_message repo current) (filter (to_update T current) perms)
    ∧ dd_get "error" changes'
      = dd_get "error" changes
        ++ map (error_message repo) (filter (λ pair, T !! pair.1 = None) perms)
    ∧ dd_get "remove" changes' = dd_get "remove" changes.
Proof.
  induction perms as [|[t l] perms IH]; intros changes w HT.
  - exists changes, w. cbn. by rewrite !app_nil_r.
  - pose proof (grant_step_run repo repo current true t l changes w) as Hstep.
    rewrite HT in Hstep. cbn [for_each]. rewrite bind_run, Hstep. clear Hstep.
    destruct (T !! t) as [rt|] eqn:Ht; cbn zeta; cbv iota.
    + destruct (IH (grant_entry repo current t l changes) (add_calls w [GetTeamBySlug t]))
        as (changes' & w' & -> & HT' & Ha & Hu & He & Hr); [done | ].
      exists changes', w'. split; [done | ]. split; [done | ].
      rewrite Ha, Hu, He, Hr. unfold grant_entry, to_add, to_update.
      rewrite (filter_cons_False (λ pair, T !! pair.1 = None)) by (cbn; congruence).
      destruct (PyDict.get t current) as [cur|] eqn:Hcur.
      * rewrite (filter_cons_False (λ pair, is_Some (T !! pair.1) ∧ _))
          by (cbn; rewrite Hcur; intros [_ [=]]).
        case_decide as Hne.
        -- rewrite filter_cons_True by (cbn; rewrite Ht, Hcur; split_and!; eauto; congruence).
           rewrite dd_get_append_eq, !dd_get_append_ne by done.
           cbn [map]. unfold update_message at 2. cbn [fst snd]. rewrite Hcur. cbn [default].
           rewrite <- app_assoc. done.
        -- rewrite filter_cons_False; [done | ].
           cbn. rewrite Hcur. intros (_ & _ & Hn). congruence.
      * rewrite filter_cons_True by (cbn; rewrite Ht, Hcur; eauto).
        rewrite (filter_cons_False (λ pair, is_Some (T !! pair.1) ∧ is_Some _ ∧ _))
          by (cbn; rewrite Hcur; intros (_ & [? [=]] & _)).
        rewrite dd_get_append_eq, !dd_get_append_ne by done.
        cbn [map]. rewrite <- app_assoc. done.
    + destruct (IH (dd_append "error"
                      ("Error processing team " +:+ t +:+ " for " +:+ repo +:+ ": "
                       +:+ exn_str (UnknownObject t)) changes)
                  (add_calls w [GetTeamBySlug t]))
        as (changes' & w' & -> & HT' & Ha & Hu & He & Hr); [done | ].
      exists changes', w'. split; [done | ]. split; [done | ].
      rewrite Ha, Hu, He, Hr. unfold to_add, to_update.
      rewrite (filter_cons_True (λ pair, T !! pair.1 = None)) by done.
      rewrite (filter_cons_False (λ pair, is_Some (T !! pair.1) ∧ PyDict.get _ _ = None))
        by (cbn; rewrite Ht; intros [[? [=]] _]).
      rewrite (filter_cons_False (λ pair, is_Some (T !! pair.1) ∧ is_Some _ ∧ _))
        by (cbn; rewrite Ht; intros [[? [=]] _]).
      rewrite dd_get_append_eq, !dd_get_append_ne by done.
      cbn [map]. rewrite <- app_assoc. done.
Qed.

Lemma revoke_loop_dry repo perms : ∀ ks changes w,
  ∃ changes',
    for_each ks (revoke_step repo repo perms true) changes w = (Ok changes', w)
    ∧ dd_get "remove" changes'
      = dd_get "remove" changes
        ++ map (remove_message repo) (filter (λ t, t ∉ PyDict.keys perms) ks)
    ∧ ∀ k, k ≠ "remove" → dd_get k changes' = dd_get k changes.
Proof.
  induction ks as [|t ks IH]; intros changes w.
  - exists changes. cbn. by rewrite app_nil_r.
  - cbn [for_each]. rewrite bind_run, revoke_step_run.
    destruct (PyDict.mem t perms) eqn:Hmem.
    + rewrite filter_cons_False by (intros Hn; by apply Hn, mem_keys). apply IH.
    + assert (t ∉ PyDict.keys perms) as Hout.
      { intros Hin%mem_keys. congruence. }
      rewrite filter_cons_True by done. cbn zeta. cbv iota.
      destruct (IH (dd_append "remove" ("Would remove team " +:+ t +:+ " from " +:+ repo)
                      changes) w) as (changes' & -> & Hr & Hk).
      exists changes'. split; [done | ]. split.
      * rewrite Hr, dd_get_append_eq, <- app_assoc. done.
      * intros k Hne. rewrite Hk by done. by rewrite dd_get_append_ne.
Qed.

(** X13: for a repository that is found, the diff of a dry run returns and
    records, in the order of the desired mapping, an add entry for every
    desired pair whose team exists and has no grant on the repository, an
    update entry for every pair whose team exists and has a grant at another
    level than the translated one, and an error entry for every pair whose
    team cannot be looked up; and, in the order of the current grants, a
    remove entry for every granted team that is not a key of the desired
    mapping. *)
Theorem repository_diff_entries (repo : string) (team_permissions : PyDict.t string)
    (w : World) (grants : list (string * string)) :
  org_repos (org w) !! repo = Some grants →
  let current := PyDict.comprehension fst snd grants in
  let teams := org_teams (org w) in
  ∃ changes w',
    process_repository_permissions repo team_permissions true w = (Ok changes, w')
    ∧ dd_get "add" changes
      = map (add_message repo) (filter (to_add teams current) team_permissions)
    ∧ dd_get "update" changes
      = map (update_message repo current) (filter (to_update teams current) team_permissions)
    ∧ Forall2 (λ entry pair,
                 ∃ text, entry = "Error processing team " +:+ pair.1 +:+ " for " +:+ repo
                                 +:+ ": " +:+ text)
        (dd_get "error" changes)
        (filter (λ pair, teams !! pair.1 = None) team_permissions)
    ∧ dd_get "remove" changes
      = map (remove_message repo)
          (filter (λ t, t ∉ PyDict.keys team_permissions) (PyDict.keys current)).
Proof.
  intros Hrepo. cbv zeta.
  rewrite (process_repository_permissions_found repo team_permissions true w grants Hrepo).
  rewrite bind_run.
  destruct (grant_loop_dry repo (PyDict.comprehension fst snd grants) (org_teams (org w))
              team_permissions [] (add_calls w [GetRepo repo; GetTeams repo]))
    as (changes1 & w1 & -> & _ & Ha & Hu & He & Hr); [done | ].
  destruct (revoke_loop_dry repo team_permissions
              (PyDict.keys (PyDict.comprehension fst snd grants)) changes1 w1)
    as (changes2 & -> & Hr2 & Hk).
  exists changes2, w1. split; [done | ].
  rewrite Hr2, !Hk, Ha, Hu, He, Hr by done. split_and!; [done | done | | done].
  apply Forall2_fmap_l, Forall_Forall2_diag, Forall_forall.
  intros pair _. by eexists.
Qed.

(** ** The state after a live repository pass *)

Lemma fold_set_get_other {A V} (key : A → string) (val : A → V) (l : list A) d k :
  k ∉ map key l →
  PyDict.get k (fold_left (λ d x, PyDict.set (key x) (val x) d) l d) = PyDict.get k d.
Proof.
  revert d. induction l as [|x l IH]; intros d Hk; simpl; [done | ].
  simpl in Hk. apply not_elem_of_cons in Hk as [Hne Hk].
  rewrite IH by done. by rewrite PyDictFacts.get_set_ne.
Qed.

Lemma fold_set_get {A V} (key : A → string) (val : A → V) (l : list A) d x :
  NoDup (map key l) → x ∈ l →
  PyDict.get (key x) (fold_left (λ d x, PyDict.set (key x) (val x) d) l d) = Some (val x).
Proof.
  revert d. induction l as [|y l IH]; intros d Hnd Hx; [by apply elem_of_nil in Hx | ].
  simpl in *. apply NoDup_cons in Hnd as [Hy Hnd].
  apply elem_of_cons in Hx as [-> | Hx]; [ | by apply IH].
  rewrite fold_set_get_other by done. apply PyDictFacts.get_set_eq.
Qed.

Lemma get_filter_ne {V} (g : PyDict.t V) t t' :
  t' ≠ t → PyDict.get t (filter (λ x, x.1 ≠ t') g) = PyDict.get t g.
Proof.
  intros Hne. induction g as [|[k v] g IH]; [done | ].
  destruct (decide (k = t')) as [-> | Hk].
  - rewrite filter_cons_False by (cbn; auto). rewrite IH. simpl.
    by rewrite decide_False by congruence.
  - rewrite filter_cons_True by done. simpl. case_decide; [done | apply IH].
Qed.

Lemma keys_filter_ne {V} (g : PyDict.t V) k t' :
  k ∈ PyDict.keys (filter (λ x, x.1 ≠ t') g) ↔ k ∈ PyDict.keys g ∧ k ≠ t'.
Proof.
  unfold PyDict.keys. rewrite !elem_of_map. split.
  - intros ([k0 v] & -> & [Hne ?]%list_elem_of_filter). split; [ | done].
    exists (k0, v). done.
  - intros [([k0 v] & -> & ?) Hne]. exists (k0, v). split; [done | ].
    by apply list_elem_of_filter.
Qed.

Lemma NoDup_keys_filter {V} (P : string * V → Prop) `{!∀ x, Decision (P x)}
    (g : PyDict.t V) :
  NoDup (PyDict.keys g) → NoDup (PyDict.keys (filter P g)).
Proof.
  unfold PyDict.keys. induction g as [|[k v] g IH]; [done | ]. simpl.
  intros [Hk Hnd]%NoDup_cons. destruct (decide (P (k, v))).
  - rewrite filter_cons_True by done. simpl. apply NoDup_cons. split; [ | by apply IH].
    intros ([k0 v0] & Heq & [_ ?]%list_elem_of_filter)%elem_of_map. apply Hk.
    apply elem_of_map. by exists (k0, v0).
  - rewrite filter_cons_False by done. by apply IH.
Qed.

Lemma comprehension_grants (g : list (string * string)) :
  NoDup (map fst g) → PyDict.comprehension fst snd g = g.
Proof.
  intros Hnd. rewrite PyDictFacts.comprehension_NoDup by done.
  induction g as [|[k v] g IH]; [done | ]. simpl. f_equal. apply IH.
  by apply NoDup_cons in Hnd as [_ ?].
Qed.

Lemma revoked_get perms t : ∀ ks g,
  t ∈ PyDict.keys perms → PyDict.get t (revoked perms ks g) = PyDict.get t g.
Proof.
  unfold revoked. induction ks as [|t' ks IH]; intros g Ht; [done | ].
  simpl. rewrite IH by done. destruct (PyDict.mem t' perms) eqn:Hmem; [done | ].
  apply get_filter_ne. intros ->. apply mem_keys in Ht. congruence.
Qed.

Lemma revoked_keys perms k : ∀ ks g,
  k ∈ PyDict.keys (revoked perms ks g) →
  k ∈ PyDict.keys g ∧ (k ∈ ks → k ∈ PyDict.keys perms).
Proof.
  unfold revoked. induction ks as [|t' ks IH]; intros g Hk; simpl in Hk.
  - split; [done | ]. by intros ?%elem_of_nil.
  - apply IH in Hk as [Hk Hks]. destruct (PyDict.mem t' perms) eqn:Hmem.
    + split; [done | ]. intros [-> | ?]%elem_of_cons; [by apply mem_keys | auto].
    + apply keys_filter_ne in Hk as [Hk Hne]. split; [done | ].
      intros [-> | ?]%elem_of_cons; [done | auto].
Qed.

Lemma revoked_NoDup perms : ∀ ks g,
  NoDup (PyDict.keys g) → NoDup (PyDict.keys (revoked perms ks g)).
Proof.
  unfold revoked. induction ks as [|t' ks IH]; intros g Hnd; [done | ].
  simpl. apply IH. destruct (PyDict.mem t' perms); [done | ].
  by apply NoDup_keys_filter.
Qed.

Lemma grant_loop_state repo current (T : gmap string RemoteTeam) : ∀ perms changes w g,
  org_teams (org w) = T → org_repos (org w) !! repo = Some g →
  (∀ pair, pair ∈ perms → is_Some (T !! pair.1)) →
  ∃ changes' w',
    for_each perms (grant_step repo repo current false) changes w = (Ok changes', w')
    ∧ org_teams (org w') = T
    ∧ org_repos (org w') !! repo = Some (granted perms g).
Proof.
  unfold granted.
  induction perms as [|[t l] perms IH]; intros changes w g HT Hg Hall.
  - exists changes, w. done.
  - pose proof (grant_step_run repo repo current false t l changes w) as Hstep.
    rewrite HT, Hg in Hstep. destruct (Hall (t, l)) as [rt Hrt]; [by left | ].
    cbn [fst] in Hrt. rewrite Hrt in Hstep. cbn zeta in Hstep.
    cbn [for_each]. rewrite bind_run, Hstep. clear Hstep. cbv iota.
    edestruct IH as (changes' & w' & -> & HT' & Hg'); [ | | | eexists _, _; split; [done | ] ].
    + done.
    + cbn. apply lookup_insert_eq.
    + intros pair ?. apply Hall. by right.
    + split; [done | ]. exact Hg'.
Qed.

Lemma revoke_loop_state repo perms (T : gmap string RemoteTeam) : ∀ ks changes w g changes' w',
  org_teams (org w) = T → org_repos (org w) !! repo = Some g →
  for_each ks (revoke_step repo repo perms false) changes w = (Ok changes', w') →
  org_repos (org w') !! repo = Some (revoked perms ks g).
Proof.
  unfold revoked.
  induction ks as [|t ks IH]; intros changes w g changes' w' HT Hg Hrun.
  - cbn in Hrun. by injection Hrun as _ <-.
  - pose proof (revoke_step_run repo repo perms false t changes w) as Hstep.
    rewrite HT, Hg in Hstep. cbn [for_each] in Hrun. rewrite bind_run, Hstep in Hrun.
    clear Hstep. simpl. destruct (PyDict.mem t perms); [by eapply IH | ].
    cbn zeta in Hrun. destruct (T !! t) as [rt|]; [ | done].
    cbv iota in Hrun. eapply IH; [ | | exact Hrun]; [done | ].
    cbn. apply lookup_insert_eq.
Qed.

(** X14: when the service lists each team of the repository once, the keys
    of the desired mapping are distinct and all its teams exist, a live pass
    that returns leaves the remote grants equal to the desired ones, each at
    its translated level, so that the diff computed next has no add, update
    or remove entry. *)
Theorem live_pass_converges (repo : string) (team_permissions : PyDict.t string)
    (w w' : World) (grants : list (string * string)) (changes : ChangeSet) :
  org_repos (org w) !! repo = Some grants →
  NoDup (map fst grants) →
  NoDup (PyDict.keys team_permissions) →
  (∀ pair, pair ∈ team_permissions → is_Some (org_teams (org w) !! pair.1)) →
  process_repository_permissions repo team_permissions false w = (Ok changes, w') →
  repo_in_sync (org w') repo team_permissions
  ∧ ∃ changes2 w2,
      process_repository_permissions repo team_permissions true w' = (Ok changes2, w2)
      ∧ dd_get "add" changes2 = []
      ∧ dd_get "update" changes2 = []
      ∧ dd_get "remove" changes2 = [].
Proof.
  intros Hrepo Hnd Hndp Hall Hrun.
  assert (repo_in_sync (org w') repo team_permissions) as Hsync;
    [ | split; [done | by apply repo_diff_in_sync] ].
  rewrite (process_repository_permissions_found repo team_permissions false w grants Hrepo)
    in Hrun.
  rewrite bind_run in Hrun. rewrite (comprehension_grants grants Hnd) in Hrun.
  destruct (grant_loop_state repo grants (org_teams (org w)) team_permissions []
              (add_calls w [GetRepo repo; GetTeams repo]) grants)
    as (changes1 & w1 & Hrun1 & HT1 & Hg1); [done | done | done | ].
  rewrite Hrun1 in Hrun.
  pose proof (revoke_loop_state repo team_permissions (org_teams (org w)) _ _ _ _ _ _
                HT1 Hg1 Hrun) as Hfinal.
  assert (NoDup (PyDict.keys (granted team_permissions grants))) as Hndg.
  { apply (PyDictFacts.fold_set_keys fst (λ pair, translate_permission pair.2)). exact Hnd. }
  exists (revoked team_permissions (PyDict.keys grants) (granted team_permissions grants)).
  split; [done | ].
  rewrite comprehension_grants by (by apply revoked_NoDup). split.
  - intros t l Hin. rewrite revoked_get.
    + apply (fold_set_get fst (λ pair, translate_permission pair.2) team_permissions grants
               (t, l)); done.
    + apply elem_of_map. by exists (t, l).
  - intros t Ht. apply revoked_keys in Ht as [Hg Hks].
    apply (PyDictFacts.fold_set_keys fst (λ pair, translate_permission pair.2)) in Hg;
      [ | exact Hnd].
    destruct Hg as [Hg | Hg]; [by apply Hks | done].
Qed.

(** ** The member named by an entry *)

Lemma append_nil_r (s : string) : s +:+ "" = s.
Proof. induction s as [|c s IH]; [done | ]. change (String c (s +:+ "") = String c s). congruence. Qed.

Lemma append_snoc (word : string) (c : ascii) (m : string) :
  (word +:+ String c "") +:+ m = word +:+ String c m.
Proof.
  induction word as [|c' word IH]; [done | ].
  change (String c' ((word +:+ String c "") +:+ m) = String c' (word +:+ String c m)).
  congruence.
Qed.

Lemma split_from_word (m : string) : ∀ word rest,
  no_space m = true → word +:+ m ≠ "" →
  split_from (m +:+ String " " rest) word = (word +:+ m) :: split_from rest "".
Proof.
  induction m as [|c m IH]; intros word rest Hm Hne.
  - rewrite append_nil_r in *. change ("" +:+ String " " rest) with (String " " rest).
    cbn [split_from]. change (is_space " ") with true. cbv iota.
    by rewrite decide_False.
  - cbn [no_space] in Hm. apply andb_true_iff in Hm as [Hc Hm].
    apply negb_true_iff in Hc.
    change (String c m +:+ String " " rest) with (String c (m +:+ String " " rest)).
    cbn [split_from]. rewrite Hc.
    rewrite IH; [ | done | ]; rewrite append_snoc; done.
Qed.

(** The second word of an add entry and of a remove entry. *)
Lemma entry_second_word (member team_name role : string) :
  member ≠ "" →
  no_space member = true →
  split ("Add " +:+ member +:+ " to " +:+ team_name +:+ " as " +:+ role) !! 1 = Some member
  ∧ split ("Remove " +:+ member +:+ " from " +:+ team_name) !! 1 = Some member.
Proof.
  intros Hne Hm. unfold split. split.
  - change ("Add " +:+ member +:+ " to " +:+ team_name +:+ " as " +:+ role)
      with (String "A" (String "d" (String "d" (String " "
              (member +:+ String " " ("to " +:+ team_name +:+ " as " +:+ role)))))).
    cbn [split_from]. change (is_space "A") with false. change (is_space "d") with false.
    change (is_space " ") with true. cbv iota. cbn [String.append].
    rewrite decide_False by done. rewrite split_from_word by done. done.
  - change ("Remove " +:+ member +:+ " from " +:+ team_name)
      with (String "R" (String "e" (String "m" (String "o" (String "v" (String "e"
              (String " " (member +:+ String " " ("from " +:+ team_name))))))))).
    cbn [split_from]. change (is_space "R") with false. change (is_space "e") with false.
    change (is_space "m") with false. change (is_space "o") with false.
    change (is_space "v") with false. change (is_space " ") with true.
    cbv iota. cbn [String.append].
    rewrite decide_False by done. rewrite split_from_word by done. done.
Qed.

(** X7: the applier reads the member of an add or remove entry as the second
    word of the entry; for a name of ASCII characters that is not empty and
    holds no whitespace this gives back the name the differ wrote. *)
Theorem entry_member_round_trip (member team_name role : string) (w : World) :
  member ≠ "" →
  ascii_only member = true →
  no_space member = true →
  second_word ("Add " +:+ member +:+ " to " +:+ team_name +:+ " as " +:+ role) w
  = (Ok member, w)
  ∧ second_word ("Remove " +:+ member +:+ " from " +:+ team_name) w = (Ok member, w).
Proof.
  intros Hne _ Hm. destruct (entry_second_word member team_name role Hne Hm) as [Hadd Hrem].
  unfold second_word. by rewrite Hadd, Hrem.
Qed.

(** ** The categories of a dry-run team diff *)

Lemma create_or_update_team_dry_head order n Ms Ns p w :
  ∃ w',
    create_or_update_team order n Ms Ns p true w
    = (Ok (with_membership order n Ms Ns (current_members (org w) n) (dry_head (org w) n)),
       w').
Proof.
  unfold create_or_update_team, with_membership, current_members, dry_head, try_except,
    get_team_by_slug, get_members, mbind, M_bind, mret, M_ret, call, get_org, raise.
  cbn. destruct (org_teams (org w) !! n) as [rt|] eqn:Hn; cbn.
  - rewrite Hn. cbn. eauto.
  - eauto.
Qed.

(** X6: the diff the first phase displays for a team holds, besides the
    membership entries, one create entry and no update entry when the team
    does not exist; when it exists, no create entry and, under update, the
    entry that announces the existing team, followed by a visibility entry
    when the team is not closed. It never holds an entry about the parent
    and never an error entry. *)
Theorem team_diff_structure (order : SetOrder) (team_name : string)
    (maintainers members : list string) (parent_name : option string) (w : World) :
  ∃ changes w',
    create_or_update_team order team_name maintainers members parent_name true w
    = (Ok changes, w')
    ∧ dd_get "error" changes = []
    ∧ match org_teams (org w) !! team_name with
      | None =>
          dd_get "create" changes = ["Would create new public team: " +:+ team_name]
          ∧ dd_get "update" changes = []
      | Some rt =>
          dd_get "create" changes = []
          ∧ dd_get "update" changes
            = ("Would update existing team: " +:+ team_name)
              :: (if decide (privacy rt ≠ "closed")
                  then ["Would change " +:+ team_name +:+ " visibility to public"]
                  else [])
      end.
Proof.
  destruct (create_or_update_team_dry_head order team_name maintainers members parent_name w)
    as [w' ->].
  eexists _, _. split; [reflexivity | ].
  rewrite !with_membership_other by done. unfold dry_head.
  destruct (org_teams (org w) !! team_name) as [rt|].
  - case_decide.
    + rewrite !(dd_get_append_eq "update"), !dd_get_append_ne, !dd_get_nil by done. done.
    + rewrite !(dd_get_append_eq "update"), !dd_get_append_ne, !dd_get_nil by done. done.
  - rewrite !(dd_get_append_eq "create"), !dd_get_append_ne, !dd_get_nil by done. done.
Qed.

(** ** The applier on an existing team *)

Lemma get_user_run m w :
  m ∈ org_users (org w) → get_user m w = (Ok m, add_calls w [GetUser m]).
Proof.
  intros Hm. unfold get_user, mbind, M_bind, mret, M_ret, call, get_org, add_calls. cbn.
  by rewrite decide_True.
Qed.

Lemma get_team_by_slug_run s rt w :
  org_teams (org w) !! s = Some rt →
  get_team_by_slug s w = (Ok (snapshot s rt), add_calls w [GetTeamBySlug s]).
Proof.
  intros Hs. unfold get_team_by_slug, mbind, M_bind, mret, M_ret, call, get_org, add_calls.
  cbn. by rewrite Hs.
Qed.

Lemma only_team_put n w rt calls lines :
  is_Some (org_teams (org w) !! n) → only_team n w (put_team w n rt calls lines).
Proof.
  intros Hn. split_and!; [done | | ].
  - intros s Hs. cbn. by rewrite lookup_insert_ne.
  - intros _. cbn. rewrite lookup_insert_eq. eauto.
Qed.

Lemma only_team_frame n w w' : org w' = org w → only_team n w w'.
Proof. intros H. unfold only_team. rewrite H. done. Qed.

Lemma only_team_trans n w1 w2 w3 : only_team n w1 w2 → only_team n w2 w3 → only_team n w1 w3.
Proof.
  intros (Hu1 & Ho1 & Hn1) (Hu2 & Ho2 & Hn2). split_and!; [congruence | | auto].
  intros s Hs. rewrite Ho2, Ho1; done.
Qed.

Lemma add_membership_run team u role rt w :
  org_teams (org w) !! slug team = Some rt →
  add_membership team u role w
  = (Ok tt,
     put_team w (slug team)
       {| privacy := privacy rt; team_parent := team_parent rt;
          team_members := <[u := role]> (team_members rt) |}
       [AddMembership (slug team) u role] []).
Proof.
  intros Hs. unfold add_membership, update_remote_team, set_org, mbind, M_bind, call,
    get_org, put_team. cbn. rewrite Hs. by rewrite app_nil_r.
Qed.

Lemma remove_membership_run team u rt w :
  org_teams (org w) !! slug team = Some rt →
  remove_membership team u w
  = (Ok tt, put_team w (slug team) (revoke u rt) [RemoveMembership (slug team) u] []).
Proof.
  intros Hs. unfold remove_membership, update_remote_team, set_org, mbind, M_bind, call,
    get_org, put_team, revoke. cbn. rewrite Hs. by rewrite app_nil_r.
Qed.

Lemma edit_privacy_run team priv rt w :
  org_teams (org w) !! slug team = Some rt →
  edit_privacy team priv w
  = (Ok tt,
     put_team w (slug team)
       {| privacy := priv; team_parent := team_parent rt; team_members := team_members rt |}
       [EditPrivacy (slug team) priv] []).
Proof.
  intros Hs. unfold edit_privacy, update_remote_team, set_org, mbind, M_bind, call,
    get_org, put_team. cbn. rewrite Hs. by rewrite app_nil_r.
Qed.

Lemma edit_parent_run team parent_team rt w :
  org_teams (org w) !! slug team = Some rt →
  edit_parent team parent_team w
  = (Ok tt,
     put_team w (slug team)
       {| privacy := privacy rt; team_parent := Some (slug parent_team);
          team_members := team_members rt |}
       [EditParent (slug team) (slug parent_team)] []).
Proof.
  intros Hs. unfold edit_parent, update_remote_team, set_org, mbind, M_bind, call,
    get_org, put_team. cbn. rewrite Hs. by rewrite app_nil_r.
Qed.

(** The loop over the add entries. *)
Lemma apply_add_loop (team : Team) (n : string) (Ms : list string) : ∀ adds w rt,
  org_teams (org w) !! slug team = Some rt →
  (∀ m, m ∈ adds → appliable (org w) m) →
  ∃ w' rt',
    for_each (map (add_entry n Ms) adds) (λ change _,
        member ← second_word change;
        let role := role_of member Ms in
        user ← get_user member;
        _ ← add_membership team user role;
        print ("Added " +:+ member +:+ " to " +:+ n +:+ " as " +:+ role)) tt w
    = (Ok tt, w')
    ∧ only_team (slug team) w w'
    ∧ org_teams (org w') !! slug team = Some rt'
    ∧ privacy rt' = privacy rt
    ∧ team_parent rt' = team_parent rt
    ∧ team_members rt' = members_added Ms adds (team_members rt).
Proof.
  unfold members_added.
  induction adds as [|m adds IH]; intros w rt Hrt Hall.
  - exists w, rt. done.
  - destruct (Hall m) as (Hne & Hm & Hu); [by left | ].
    cbn [map for_each]. rewrite bind_run. rewrite bind_run.
    unfold add_entry at 1, second_word at 1.
    rewrite (proj1 (entry_second_word m n (role_of m Ms) Hne Hm)).
    cbn [mret M_ret]. cbv beta iota zeta.
    rewrite bind_run, (get_user_run m w Hu). cbv beta iota.
    rewrite bind_run, (add_membership_run team m (role_of m Ms) rt) by done.
    cbv beta iota. rewrite print_run.
    match goal with
    | |- context [for_each _ _ tt ?w1] =>
        destruct (IH w1 {| privacy := privacy rt; team_parent := team_parent rt;
                           team_members := <[m := role_of m Ms]> (team_members rt) |})
          as (w' & rt' & Hrun & Hframe & Hrt' & Hp & Hpar & Hmm)
    end.
    + cbn. apply lookup_insert_eq.
    + intros m' Hm'. destruct (Hall m') as (? & ? & ?); [by right | ]. done.
    + exists w', rt'. split; [exact Hrun | ]. split_and!; [ | done | done | done | done].
      eapply only_team_trans; [ | exact Hframe].
      destruct (only_team_put (slug team) w
                  {| privacy := privacy rt; team_parent := team_parent rt;
                     team_members := <[m := role_of m Ms]> (team_members rt) |}
                  [GetUser m; AddMembership (slug team) m (role_of m Ms)]
                  ["Added " +:+ m +:+ " to " +:+ n +:+ " as " +:+ role_of m Ms])
        as (H1 & H2 & H3); [eauto | ].
      split_and!; [exact H1 | exact H2 | exact H3].
Qed.

(** The loop over the remove entries. *)
Lemma apply_remove_loop (team : Team) (n : string) : ∀ rems w rt,
  org_teams (org w) !! slug team = Some rt →
  (∀ m, m ∈ rems → appliable (org w) m) →
  ∃ w' rt',
    for_each (map (remove_entry n) rems) (λ change _,
        member ← second_word change;
        user ← get_user member;
        _ ← remove_membership team user;
        print ("Removed " +:+ member +:+ " from " +:+ n)) tt w
    = (Ok tt, w')
    ∧ only_team (slug team) w w'
    ∧ org_teams (org w') !! slug team = Some rt'
    ∧ privacy rt' = privacy rt
    ∧ team_parent rt' = team_parent rt
    ∧ team_members rt' = members_removed rems (team_members rt).
Proof.
  unfold members_removed.
  induction rems as [|m rems IH]; intros w rt Hrt Hall.
  - exists w, rt. done.
  - destruct (Hall m) as (Hne & Hm & Hu); [by left | ].
    cbn [map for_each]. rewrite bind_run. rewrite bind_run.
    unfold remove_entry at 1, second_word at 1.
    rewrite (proj2 (entry_second_word m n "" Hne Hm)).
    cbn [mret M_ret]. cbv beta iota zeta.
    rewrite bind_run, (get_user_run m w Hu). cbv beta iota.
    rewrite bind_run, (remove_membership_run team m rt) by done.
    cbv beta iota. rewrite print_run.
    match goal with
    | |- context [for_each _ _ tt ?w1] =>
        destruct (IH w1 (revoke m rt))
          as (w' & rt' & Hrun & Hframe & Hrt' & Hp & Hpar & Hmm)
    end.
    + cbn. apply lookup_insert_eq.
    + intros m' Hm'. destruct (Hall m') as (? & ? & ?); [by right | ]. done.
    + exists w', rt'. split; [exact Hrun | ]. split_and!; [ | done | done | done | done].
      eapply only_team_trans; [ | exact Hframe].
      destruct (only_team_put (slug team) w (revoke m rt)
                  [GetUser m; RemoveMembership (slug team) m]
                  ["Removed " +:+ m +:+ " from " +:+ n])
        as (H1 & H2 & H3); [eauto | ].
      split_and!; [exact H1 | exact H2 | exact H3].
Qed.

Lemma members_added_lookup Ms adds : ∀ mm m,
  members_added Ms adds mm !! m
  = if decide (m ∈ adds) then Some (role_of m Ms) else mm !! m.
Proof.
  unfold members_added.
  induction adds as [|a adds IH]; intros mm m; cbn [fold_left].
  - case_decide as Hin; [by apply elem_of_nil in Hin | done].
  - rewrite IH. destruct (decide (m ∈ adds)) as [Hin | Hout].
    + rewrite decide_True by (by right). done.
    + destruct (decide (m = a)) as [-> | Hne].
      * rewrite decide_True by (by left). apply lookup_insert_eq.
      * rewrite decide_False by (intros [? | ?]%elem_of_cons; done).
        by rewrite lookup_insert_ne.
Qed.

Lemma members_removed_lookup rems : ∀ mm m,
  members_removed rems mm !! m = if decide (m ∈ rems) then None else mm !! m.
Proof.
  unfold members_removed.
  induction rems as [|a rems IH]; intros mm m; cbn [fold_left].
  - case_decide as Hin; [by apply elem_of_nil in Hin | done].
  - rewrite IH. destruct (decide (m ∈ rems)) as [Hin | Hout].
    + rewrite decide_True by (by right). done.
    + destruct (decide (m = a)) as [-> | Hne].
      * rewrite decide_True by (by left). apply lookup_delete_eq.
      * rewrite decide_False by (intros [? | ?]%elem_of_cons; done).
        by rewrite lookup_delete_ne.
Qed.

(** The visibility stage of the applier. *)
Lemma apply_privacy_stage (n : string) (rt : RemoteTeam) (w : World) :
  org_teams (org w) !! n = Some rt →
  ∃ w' rt',
    (if decide (Team_privacy (snapshot n rt) ≠ "closed")
     then (_ ← edit_privacy (snapshot n rt) "closed";
           print ("Changed " +:+ n +:+ " visibility to public"))
     else mret tt) w = (Ok tt, w')
    ∧ only_team n w w'
    ∧ org_teams (org w') !! n = Some rt'
    ∧ privacy rt' = "closed"
    ∧ team_parent rt' = team_parent rt
    ∧ team_members rt' = team_members rt.
Proof.
  intros Hrt. case_decide as Hp.
  - rewrite bind_run, (edit_privacy_run _ _ rt) by done. cbv beta iota. rewrite print_run.
    eexists _, {| privacy := "closed"; team_parent := team_parent rt;
                  team_members := team_members rt |}.
    split; [reflexivity | ]. split_and!; [ | apply lookup_insert_eq | done | done | done].
    split_and!; [done | | ].
    + intros s Hs. cbn. by rewrite lookup_insert_ne.
    + intros _. cbn. rewrite lookup_insert_eq. eauto.
  - exists w, rt. split; [done | ].
    split_and!; [by apply only_team_frame | done | | done | done].
    cbn in Hp. by destruct (decide (privacy rt = "closed")).
Qed.

(** The parent stage of the applier, for a team read as [rt0] at the start. *)
Lemma apply_parent_stage (n : string) (p : option string) (rt0 rt : RemoteTeam) (w : World) :
  org_teams (org w) !! n = Some rt →
  team_parent rt = team_parent rt0 →
  (∀ p', truthy p = Some p' → is_Some (org_teams (org w) !! p')) →
  ∃ w' rt',
    (match truthy p with
     | Some p' =>
         parent_team ← get_team_by_slug p';
         if decide (Team_parent (snapshot n rt0) ≠ Some (slug parent_team))
         then (_ ← edit_parent (snapshot n rt0) parent_team;
               print ("Set parent team of " +:+ n +:+ " to " +:+ p'))
         else mret tt
     | None => mret tt
     end) w = (Ok tt, w')
    ∧ only_team n w w'
    ∧ org_teams (org w') !! n = Some rt'
    ∧ privacy rt' = privacy rt
    ∧ team_parent rt' = match truthy p with Some p' => Some p' | None => team_parent rt end
    ∧ team_members rt' = team_members rt.
Proof.
  intros Hrt Hpar Hp. destruct (truthy p) as [p'|].
  - destruct (Hp p' eq_refl) as [rtp Hrtp].
    rewrite bind_run, (get_team_by_slug_run p' rtp) by done. cbv beta iota.
    case_decide as Hne.
    + rewrite bind_run, (edit_parent_run _ _ rt) by done. cbv beta iota. rewrite print_run.
      eexists _, {| privacy := privacy rt; team_parent := Some p';
                    team_members := team_members rt |}.
      split; [reflexivity | ]. split_and!; [ | apply lookup_insert_eq | done | done | done].
      split_and!; [done | | ].
      * intros s Hs. cbn. by rewrite lookup_insert_ne.
      * intros _. cbn. rewrite lookup_insert_eq. eauto.
    + eexists _, rt. split; [reflexivity | ].
      split_and!; [by apply only_team_frame | done | done | | done].
      cbn in Hne. rewrite Hpar. by destruct (decide (team_parent rt0 = Some p')).
  - exists w, rt. split; [done | ].
    split_and!; [by apply only_team_frame | done | done | done | done].
Qed.

(** The members left by the grants for [adds] and the revocations for
    [rems], when these are what is desired and not current, and what is
    current and not desired. *)
Lemma converged_lookup (mm : gmap string string) (desired : gset string)
    (adds rems Ms : list string) (m : string) :
  (m ∈ adds ↔ m ∈ desired ∧ m ∉ dom mm) →
  (m ∈ rems ↔ m ∈ dom mm ∧ m ∉ desired) →
  (is_Some (if decide (m ∈ rems) then None
            else if decide (m ∈ adds) then Some (role_of m Ms) else mm !! m)
   ↔ m ∈ desired)
  ∧ (m ∈ desired →
     (if decide (m ∈ rems) then None
      else if decide (m ∈ adds) then Some (role_of m Ms) else mm !! m)
     = if decide (m ∈ dom mm) then mm !! m else Some (role_of m Ms)).
Proof.
  intros Hadds Hrems.
  destruct (decide (m ∈ rems)) as [Hr | Hr], (decide (m ∈ adds)) as [Ha | Ha],
    (decide (m ∈ dom mm)) as [Hc | Hc], (decide (m ∈ desired)) as [Hd | Hd];
    try tauto.
  - split; [ | done]. split; [by intros [? ?] | done].
  - split; [ | done]. split; [tauto | eauto].
  - split; [ | done]. split; [tauto | intros _; by apply elem_of_dom].
  - split; [ | done]. split; [ | done].
    rewrite (proj1 (not_elem_of_dom mm m) Hc). by intros [? ?].
Qed.

(** X8: applied to the diff a dry run computed for a team that exists, the
    applier ends without an exception and leaves the team closed, under the
    desired parent when one is given, with exactly the desired maintainers
    and members as its members. A name it adds gets the role the lists give
    it; a name that was already a member keeps the role it had. No other
    team and no user changes. The names handled are non-empty, without white
    space and known users, and the desired parent exists. *)
Theorem apply_changes_converges (order : SetOrder) (team_name : string)
    (maintainers members : list string) (parent_name : option string)
    (w w1 : World) (rt : RemoteTeam) (changes : ChangeSet) :
  org_teams (org w) !! team_name = Some rt →
  (∀ m, m ∈ maintainers ++ members → appliable (org w) m) →
  (∀ m, m ∈ dom (team_members rt) → appliable (org w) m) →
  (∀ p, truthy parent_name = Some p → is_Some (org_teams (org w) !! p)) →
  create_or_update_team order team_name maintainers members parent_name true w
  = (Ok changes, w1) →
  ∃ w2 rt',
    apply_changes team_name maintainers members parent_name changes w1 = (Ok tt, w2)
    ∧ only_team team_name w w2
    ∧ org_teams (org w2) !! team_name = Some rt'
    ∧ privacy rt' = "closed"
    ∧ team_parent rt'
      = match truthy parent_name with Some p => Some p | None => team_parent rt end
    ∧ dom (team_members rt') = list_to_set (maintainers ++ members)
    ∧ ∀ m, m ∈ maintainers ++ members →
        team_members rt' !! m
        = if decide (m ∈ dom (team_members rt)) then team_members rt !! m
          else Some (role_of m maintainers).
Proof.
  intros Hrt Hdesired Hcurrent Hparent Hdiff.
  destruct (create_or_update_team_cases order team_name maintainers members parent_name
              true w)
    as [(head & calls & Hrun & Hadd & Hrem & _) | [? _]]; [ | done].
  rewrite Hrun in Hdiff. injection Hdiff as <- <-.
  unfold current_members. rewrite Hrt.
  set (desired := list_to_set (maintainers ++ members) : gset string).
  set (current := dom (team_members rt)).
  set (adds := iterate order team_name (desired ∖ current)).
  set (rems := iterate order team_name (current ∖ desired)).
  assert (Hin_adds : ∀ m, m ∈ adds ↔ m ∈ desired ∧ m ∉ current).
  { intros m. unfold adds. rewrite (iterate_perm order), elem_of_elements. set_solver. }
  assert (Hin_rems : ∀ m, m ∈ rems ↔ m ∈ current ∧ m ∉ desired).
  { intros m. unfold rems. rewrite (iterate_perm order), elem_of_elements. set_solver. }
  unfold apply_changes.
  rewrite with_membership_add, with_membership_remove, Hadd, Hrem. cbn [app].
  fold desired current adds rems.
  change (map _ adds) with (map (add_entry team_name maintainers) adds).
  change (map _ rems) with (map (remove_entry team_name) rems).
  rewrite bind_run. unfold try_except at 1.
  rewrite (get_team_by_slug_run team_name rt) by done. cbv beta iota.
  destruct (apply_privacy_stage team_name rt
              (add_calls (add_calls w calls) [GetTeamBySlug team_name]))
    as (wa & rta & Hruna & Hframea & Hrta & Hpa & Hpara & Hma); [done | ].
  rewrite bind_run, Hruna. cbv beta iota.
  destruct (apply_parent_stage team_name parent_name rt rta wa)
    as (wb & rtb & Hrunb & Hframeb & Hrtb & Hpb & Hparb & Hmb); [done | done | | ].
  { intros p Hp. destruct Hframea as (_ & Hother & Hsame).
    destruct (decide (p = team_name)) as [-> | Hne]; [eauto | ].
    rewrite Hother by done. by apply Hparent. }
  rewrite bind_run, Hrunb. cbv beta iota.
  assert (Husers : org_users (org wb) = org_users (org w)).
  { destruct Hframeb as (-> & _), Hframea as (-> & _). done. }
  destruct (apply_add_loop (snapshot team_name rt) team_name maintainers adds wb rtb)
    as (wc & rtc & Hrunc & Hframec & Hrtc & Hpc & Hparc & Hmc); [done | | ].
  { intros m [Hm _]%Hin_adds. unfold appliable. rewrite Husers.
    apply Hdesired. by apply elem_of_list_to_set in Hm. }
  cbv zeta in Hrunc. rewrite bind_run, Hrunc. cbv beta iota.
  destruct (apply_remove_loop (snapshot team_name rt) team_name rems wc rtc)
    as (wd & rtd & Hrund & Hframed & Hrtd & Hpd & Hpard & Hmd); [done | | ].
  { intros m [Hm _]%Hin_rems. unfold appliable.
    destruct Hframec as (-> & _). rewrite Husers. by apply Hcurrent. }
  exists wd, rtd. split; [exact Hrund | ].
  assert (Hlookup : ∀ m, team_members rtd !! m
            = if decide (m ∈ rems) then None
              else if decide (m ∈ adds) then Some (role_of m maintainers)
                   else team_members rt !! m).
  { intros m. rewrite Hmd, members_removed_lookup, Hmc, members_added_lookup, Hmb, Hma.
    done. }
  split_and!.
  - eapply only_team_trans; [ | exact Hframed].
    eapply only_team_trans; [ | exact Hframec].
    eapply only_team_trans; [ | exact Hframeb].
    eapply only_team_trans; [ | exact Hframea].
    by apply only_team_frame.
  - exact Hrtd.
  - congruence.
  - rewrite Hpard, Hparc, Hparb. destruct (truthy parent_name); congruence.
  - apply set_eq. intros m. rewrite elem_of_dom, Hlookup.
    apply (converged_lookup (team_members rt) desired adds rems maintainers m);
      [apply Hin_adds | apply Hin_rems].
  - intros m Hm. rewrite Hlookup.
    apply (converged_lookup (team_members rt) desired adds rems maintainers m);
      [apply Hin_adds | apply Hin_rems | ].
    unfold desired. by apply elem_of_list_to_set.
Qed.

(** * Instances of the further properties *)

Lemma topological_sort_flat_witness :
  topological_sort elements_order flat_teams = Ok (reverse (map name flat_teams)).
Proof.
  apply (topological_sort_flat elements_order flat_teams).
  - apply (bool_decide_unpack (NoDup (map name flat_teams))). vm_compute. exact I.
  - intros t [-> | [-> | []%elem_of_nil]%elem_of_cons]%elem_of_cons; reflexivity.
Defined.

Lemma get_dependent_teams_cycle_witness :
  get_dependent_teams 5 "a" (PyDict.comprehension name id cyclic_teams) = OutOfFuel.
Proof.
  apply (get_dependent_teams_cycle 5 (PyDict.comprehension name id cyclic_teams) "a"
           (λ x, x = "a" ∨ x = "b")).
  - left. reflexivity.
  - intros x [-> | ->].
    + exists (sample_team "a" (Some "b")), "b".
      split; [reflexivity | split; [reflexivity | right; reflexivity]].
    + exists (sample_team "b" (Some "a")), "a".
      split; [reflexivity | split; [reflexivity | left; reflexivity]].
Defined.

Lemma dangling_chain :
  open_chain (PyDict.comprehension name id dangling_teams) "a" ["ghost"].
Proof.
  apply (open_step _ "a" (sample_team "a" (Some "ghost")) "ghost" []);
    [reflexivity | reflexivity | ].
  apply open_end. reflexivity.
Qed.

Lemma scoped_run_dangling_witness :
  ∃ p l',
    ["ghost"] = p :: l'
    ∧ PyDict.get p (PyDict.comprehension name id (config_teams dangling_config)) = None
    ∧ get_dependent_teams 2 "a"
        (PyDict.comprehension name id (config_teams dangling_config)) = Ok ["ghost"]
    ∧ main elements_order 2 dangling_args dangling_config (world_of empty_org [])
      = (Raise (KeyError p),
         add_calls (world_of empty_org [])
           [GetAuthenticatedUser; GetOrganization "open-telemetry"]).
Proof.
  apply (scoped_run_dangling elements_order 2 dangling_args dangling_config "a" ["ghost"]
           (world_of empty_org [])).
  - exact dangling_chain.
  - eexists. reflexivity.
  - simpl. lia.
  - reflexivity.
  - reflexivity.
  - discriminate.
Defined.

Lemma dry_run_changes_nothing_witness :
  let w := world_of synced_org ["yes"] in
  let w' := (main elements_order 3 scoped_args sample_config w).2 in
  org w' = org w
  ∧ stdin w' = stdin w
  ∧ ∃ calls, trace w' = trace w ++ calls ∧ Forall (λ c, is_mutating c = false) calls.
Proof.
  apply (dry_run_changes_nothing elements_order 3 scoped_args sample_config
           (world_of synced_org ["yes"])).
  reflexivity.
Defined.

Lemma declined_run_changes_nothing_witness :
  let w := world_of synced_org ["no"] in
  let w' := (main elements_order 0 live_teams_args one_team_config w).2 in
  org w' = org w
  ∧ ∃ calls, trace w' = trace w ++ calls ∧ Forall (λ c, is_mutating c = false) calls.
Proof.
  apply (declined_run_changes_nothing elements_order 0 live_teams_args one_team_config
           (world_of synced_org ["no"]) "no" []).
  - reflexivity.
  - vm_compute. discriminate.
  - vm_compute. discriminate.
Defined.

Lemma target_not_found_witness :
  main elements_order 0 (missing_args "teams") sample_config (world_of empty_org [])
  = (Raise (SystemExit 1),
     add_lines (add_calls (world_of empty_org [])
                  [GetAuthenticatedUser; GetOrganization "open-telemetry"])
       ["Error: Team '" +:+ "zzz" +:+ "' not found in the configuration."])
  ∧ main elements_order 0 (missing_args "repos") sample_config (world_of empty_org [])
    = (Raise (SystemExit 1),
       add_lines (add_calls (world_of empty_org [])
                    [GetAuthenticatedUser; GetOrganization "open-telemetry"])
         ["Error: Repository '" +:+ "zzz" +:+ "' not found in the configuration."]).
Proof.
  split.
  - apply (target_not_found elements_order 0 (missing_args "teams") sample_config "zzz"
             (world_of empty_org [])); reflexivity.
  - apply (target_not_found elements_order 0 (missing_args "repos") sample_config "zzz"
             (world_of empty_org [])); reflexivity.
Defined.

Lemma teams_mode_only_revokes_witness :
  ∃ calls,
    trace (main elements_order 0 live_teams_args one_team_config
             (world_of synced_org ["yes"])).2
    = trace (world_of synced_org ["yes"]) ++ calls
    ∧ Forall (λ c, is_mutating c = false
                   ∨ ∃ s, c = RemoveMembership s
                                (org_identity (org (world_of synced_org ["yes"]))))
        calls.
Proof.
  apply (teams_mode_only_revokes elements_order 0 live_teams_args one_team_config
           (world_of synced_org ["yes"])).
  reflexivity.
Defined.

Lemma repository_diff_entries_witness :
  let current := PyDict.comprehension fst snd [("t", "pull")] in
  let teams := org_teams synced_org in
  let desired := [("t", "write"); ("ghost", "read")] in
  ∃ changes w',
    process_repository_permissions "r" desired true (world_of synced_org [])
    = (Ok changes, w')
    ∧ dd_get "add" changes = map (add_message "r") (filter (to_add teams current) desired)
    ∧ dd_get "update" changes
      = map (update_message "r" current) (filter (to_update teams current) desired)
    ∧ Forall2 (λ entry pair,
                 ∃ text, entry = "Error processing team " +:+ pair.1 +:+ " for " +:+ "r"
                                 +:+ ": " +:+ text)
        (dd_get "error" changes) (filter (λ pair, teams !! pair.1 = None) desired)
    ∧ dd_get "remove" changes
      = map (remove_message "r")
          (filter (λ t, t ∉ PyDict.keys desired) (PyDict.keys current)).
Proof.
  apply (repository_diff_entries "r" [("t", "write"); ("ghost", "read")]
           (world_of synced_org []) [("t", "pull")]).
  reflexivity.
Defined.

Lemma live_pass_converges_witness :
  let w := world_of synced_org [] in
  let w' := (process_repository_permissions "r" [("t", "write")] false w).2 in
  repo_in_sync (org w') "r" [("t", "write")]
  ∧ ∃ changes2 w2,
      process_repository_permissions "r" [("t", "write")] true w' = (Ok changes2, w2)
      ∧ dd_get "add" changes2 = []
      ∧ dd_get "update" changes2 = []
      ∧ dd_get "remove" changes2 = [].
Proof.
  apply (live_pass_converges "r" [("t", "write")] (world_of synced_org [])
           (process_repository_permissions "r" [("t", "write")] false
              (world_of synced_org [])).2
           [("t", "pull")]
           (dd_append "update"
              "Would update team t permission on r from pull to write" [])).
  - reflexivity.
  - apply (bool_decide_unpack (NoDup (map fst [("t", "pull")]))). vm_compute. exact I.
  - apply (bool_decide_unpack (NoDup (PyDict.keys [("t", "write")]))). vm_compute. exact I.
  - intros pair [-> | []%elem_of_nil]%elem_of_cons. eexists. reflexivity.
  - vm_compute. reflexivity.
Defined.

Lemma entry_member_round_trip_witness :
  second_word ("Add " +:+ "alice" +:+ " to " +:+ "t" +:+ " as " +:+ "member")
    (world_of empty_org [])
  = (Ok "alice", world_of empty_org [])
  ∧ second_word ("Remove " +:+ "alice" +:+ " from " +:+ "t") (world_of empty_org [])
    = (Ok "alice", world_of empty_org []).
Proof.
  apply (entry_member_round_trip "alice" "t" "member" (world_of empty_org [])).
  - discriminate.
  - reflexivity.
  - reflexivity.
Defined.

Lemma staffed_users (m : string) :
  m ∈ ["alice"; "bob"; "carol"] → appliable (org (world_of staffed_org [])) m.
Proof.
  intros Hm. assert (m = "alice" ∨ m = "bob" ∨ m = "carol") as [-> | [-> | ->]]
    by set_solver.
  all: split; [discriminate | split; [reflexivity | cbn; set_solver]].
Qed.

Lemma apply_changes_converges_witness :
  let w := world_of staffed_org [] in
  let rt := {| privacy := "secret"; team_parent := None;
               team_members := {[ "alice" := "member"; "carol" := "member" ]} |} in
  let changes :=
    dd_append "remove" "Remove carol from t"
      (dd_append "add" "Add bob to t as member"
         (dd_append "update" "Would change t visibility to public"
            (dd_append "update" "Would update existing team: t" []))) in
  ∃ w2 rt',
    apply_changes "t" ["alice"] ["bob"] None changes
      (add_calls w [GetTeamBySlug "t"; GetMembers "t"])
    = (Ok tt, w2)
    ∧ only_team "t" w w2
    ∧ org_teams (org w2) !! "t" = Some rt'
    ∧ privacy rt' = "closed"
    ∧ team_parent rt' = match truthy None with Some p => Some p | None => team_parent rt end
    ∧ dom (team_members rt') = list_to_set (["alice"] ++ ["bob"])
    ∧ ∀ m, m ∈ ["alice"] ++ ["bob"] →
        team_members rt' !! m
        = if decide (m ∈ dom (team_members rt)) then team_members rt !! m
          else Some (role_of m ["alice"]).
Proof.
  intros w rt changes.
  apply (apply_changes_converges elements_order "t" ["alice"] ["bob"] None w
           (add_calls w [GetTeamBySlug "t"; GetMembers "t"]) rt changes).
  - reflexivity.
  - intros m Hm. apply staffed_users. set_solver.
  - intros m Hm. apply staffed_users. set_solver.
  - intros p [=].
  - vm_compute. reflexivity.
Defined.
